(** * Safe-Miles: the school-bus optimisation core

    A shallow embedding of the routing and clustering stages of the
    optimisation pipeline ([backend/models/routing.py],
    [backend/models/clustering.py], [backend/models/optimizer.py]) together
    with the properties the design document states about them.

    Conventions of the embedding.
    - Python [int] is [Z].  A Python [float] is a rational in canonical
      form ([Qc]): every finite float is one, and arithmetic on them is
      taken exact.  Where the rounding decides, in comparing an entry of
      the distance matrix with its transpose, the lengths are binary64
      floats ([Routing64]).
    - [math.ceil(a / b)] on two ints is the exact integer ceiling; the float
      quotient is exact for the magnitudes a roster can reach (below 2^53).
    - A call that can raise returns [option] (or a dedicated outcome type);
      [None] is the exception leaving the function.
    - [print] is modelled by a log of events.
    - Library calls (OR-tools, scikit-learn, networkx, haversine) are not
      part of the repository: the solver, k-means and the great-circle
      distance are parameters of the model; the shortest-path oracle is
      modelled by a function that meets its contract
      ([MatrixFacts.dijkstra_contract]). *)

From Stdlib Require Import ZArith QArith Qround Qcanon List Lia.
From stdpp Require Import base option numbers list strings pretty sorting gmap.
From Stdlib Require Floats.

Local Open Scope Z_scope.

(** ** Python helpers *)

Module Py.

(** [math.ceil(a / b)] for ints [a], [b]; [ZeroDivisionError] when [b = 0].
    [Z.div] rounds towards minus infinity, like Python's [//]. *)
Definition ceil_div (a b : Z) : option Z :=
  if b =? 0 then None else Some (- ((- a) / b)).

(** [range(n)] *)
Definition range (n : Z) : list Z :=
  Z.of_nat <$> seq 0 (Z.to_nat n).

(** [range(a, b)] *)
Definition range2 (a b : Z) : list Z :=
  (λ k, a + Z.of_nat k) <$> seq 0 (Z.to_nat (b - a)).

(** [sum(l)] *)
Definition sum (l : list Z) : Z := fold_right Z.add 0 l.

(** [int(x)] on a float: truncation towards zero. *)
Definition int_of_float (x : Qc) : Z :=
  if decide (0 ≤ x)%Qc then Qfloor x else Qceiling x.

(** [for i, x in enumerate(xs): acc = body(i, x, acc)], counting from [i]. *)
Fixpoint for_enumerate {A B} (body : nat → B → A → A) (i : nat) (xs : list B)
    (acc : A) : A :=
  match xs with
  | [] => acc
  | x :: rest => for_enumerate body (S i) rest (body i x acc)
  end.

(** [max(l)] on a non-empty list of floats. *)
Definition max_float (x : Qc) (l : list Qc) : Qc :=
  foldl (λ m y, if decide (m < y)%Qc then y else m) x l.

End Py.

(** ** The stop table *)

(** [stop_id] holds an int for a cluster, the string ['school'] for the
    depot and a derived string for the parts of a split stop. *)
Inductive stop_ident :=
  | IdInt (n : Z)
  | IdStr (s : string).

(** [f"{stop_id}"] *)
Definition format_ident (i : stop_ident) : string :=
  match i with
  | IdInt n => pretty n
  | IdStr s => s
  end.

(** One row of [stop_df], with the columns [create_stop_df] and
    [snap_stops_to_graph] give it. *)
Record stop_row := mk_stop_row {
  stop_id : stop_ident;
  original_stop_id : stop_ident;
  latitude : Qc;
  longitude : Qc;
  num_students : Z;
  student_ids : list string;
  graph_node : Z;
  snapped_lat : Qc;
  snapped_lon : Qc
}.

Definition school : stop_ident := IdStr "school".

(** ** routing.py: [split_large_stops] *)

Module Routing.

(** The body of [for i in range(num_sub_stops)]: [row.copy()] with
    [stop_id] and [num_students] overwritten. *)
Definition sub_stop (row : stop_row) (demand num_sub_stops students_per_sub_stop i : Z)
  : stop_row :=
  {| stop_id := IdStr (format_ident (stop_id row) +:+ "_part" +:+ pretty (i + 1));
     original_stop_id := original_stop_id row;
     latitude := latitude row;
     longitude := longitude row;
     num_students :=
       if i =? num_sub_stops - 1
       then demand - students_per_sub_stop * (num_sub_stops - 1)
       else students_per_sub_stop;
     student_ids := student_ids row;
     graph_node := graph_node row;
     snapped_lat := snapped_lat row;
     snapped_lon := snapped_lon row |}.

(** The rows one input row contributes to [new_stops]. *)
Definition split_row (bus_capacity : Z) (row : stop_row) : option (list stop_row) :=
  let demand := num_students row in
  if demand <=? bus_capacity then Some [row]
  else
    num_sub_stops ← Py.ceil_div demand bus_capacity;
    students_per_sub_stop ← Py.ceil_div demand num_sub_stops;
    Some (sub_stop row demand num_sub_stops students_per_sub_stop
            <$> Py.range num_sub_stops).

Definition split_large_stops (stop_df : list stop_row) (bus_capacity : Z)
  : option (list stop_row) :=
  @concat stop_row <$> mapM (split_row bus_capacity) stop_df.

(** ** routing.py: [build_distance_matrix] *)

(** The road graph, as networkx holds it: a node set and weighted edges
    (the ['length'] attribute).  An undirected ([nx.Graph]) edge is
    traversable both ways; parallel edges of a multigraph are just
    repeated entries.  Adding an edge adds its end points as nodes. *)
Record graph := mk_graph {
  directed : bool;
  nodes : list Z;
  edges : list (Z * Z * Qc)
}.

Definition graph_nodes (G : graph) : list Z :=
  nodes G ++ flat_map (λ e, [e.1.1; e.1.2]) (edges G).

Definition has_node (G : graph) (n : Z) : bool :=
  bool_decide (n ∈ graph_nodes G).

Definition flip_edge (e : Z * Z * Qc) : Z * Z * Qc := (e.1.2, e.1.1, e.2).

(** The arcs a path may follow. *)
Definition arcs (G : graph) : list (Z * Z * Qc) :=
  if directed G then edges G else edges G ++ (flip_edge <$> edges G).

Definition nonneg_lengths (G : graph) : Prop :=
  Forall (λ e, 0 ≤ e.2)%Qc (edges G).

(** The smaller of two optional lengths; [None] is "no path". *)
Definition omin (a b : option Qc) : option Qc :=
  match a, b with
  | None, _ => b
  | _, None => a
  | Some x, Some y => Some (if decide (x ≤ y)%Qc then x else y)
  end.

(** One round of edge relaxation towards [t]: the best of [init] and of
    every arc into [t] appended to a known length [known u] of its tail. *)
Definition relax (t : Z) (known : Z → option Qc) (l : list (Z * Z * Qc))
    (init : option Qc) : option Qc :=
  foldr (λ e acc,
           if decide (e.1.2 = t)
           then omin acc ((λ d, d + e.2)%Qc <$> known e.1.1)
           else acc)
        init l.

(** Length of a shortest walk from [s] to [t] with at most [k] arcs. *)
Fixpoint walk_dist (G : graph) (k : nat) (s t : Z) : option Qc :=
  match k with
  | O => if decide (s = t) then Some 0%Qc else None
  | S k' => relax t (walk_dist G k' s) (arcs G) (walk_dist G k' s t)
  end.

(** [nx.single_source_dijkstra_path_length(G, source, weight='length')],
    by its contract on non-negative lengths: [NodeNotFound] ([None]) when
    [source] is not in the graph, otherwise the dict that maps every node
    reachable from [source] to its shortest path length and has no entry
    for the others.  The dict is read through its lookup function.  A
    shortest path never repeats a node, so walks of at most
    [length (graph_nodes G)] arcs cover them all. *)
Definition single_source_dijkstra_path_length (G : graph) (source : Z)
  : option (Z → option Qc) :=
  if has_node G source
  then Some (walk_dist G (length (graph_nodes G)) source)
  else None.

(** An entry of the float matrix before [astype(int)]. *)
Inductive npfloat :=
  | Finite (x : Qc)
  | NaN
  | PosInf
  | NegInf.

(** An entry under [np.nan_to_num(_, nan=1e6, posinf=1e6, neginf=1e6)]. *)
Definition nan_to_num_entry (v : npfloat) : Qc :=
  match v with
  | Finite x => x
  | NaN | PosInf | NegInf => Qc_of_Z 1000000
  end.

Definition nan_to_num (dist_matrix : list (list npfloat)) : list (list Qc) :=
  (λ row : list npfloat, nan_to_num_entry <$> row) <$> dist_matrix.

(** [dist_matrix.astype(int)] *)
Definition astype_int (dist_matrix : list (list Qc)) : list (list Z) :=
  (λ row : list Qc, Py.int_of_float <$> row) <$> dist_matrix.

(** [np.zeros((n, n))] *)
Definition np_zeros (n : nat) : list (list npfloat) :=
  replicate n (replicate n (Finite 0%Qc)).

(** [np.fill_diagonal(dist_matrix, 0)] *)
Definition fill_diagonal (dist_matrix : list (list npfloat)) : list (list npfloat) :=
  imap (λ i row, <[i := Finite 0%Qc]> row) dist_matrix.

(** The inner loop over the targets, on row [i] of the matrix: an entry
    is written only [if target_node in distances]. *)
Definition fill_row (distances : Z → option Qc) (stop_nodes : list Z)
    (row : list npfloat) : list npfloat :=
  Py.for_enumerate
    (λ j target_node row,
       match distances target_node with
       | Some d => <[j := Finite d]> row
       | None => row
       end)
    0 stop_nodes row.

(** The outer loop over the sources; [except Exception: continue] leaves
    the row as it is. *)
Definition fill_rows (G : graph) (stop_nodes : list Z)
    (dist_matrix : list (list npfloat)) : list (list npfloat) :=
  Py.for_enumerate
    (λ i source_node dist_matrix,
       match single_source_dijkstra_path_length G source_node with
       | Some distances => alter (fill_row distances stop_nodes) i dist_matrix
       | None => dist_matrix
       end)
    0 stop_nodes dist_matrix.

Definition build_distance_matrix (G : graph) (stop_nodes : list Z)
  : list (list Z) :=
  let n := length stop_nodes in
  let dist_matrix := fill_diagonal (np_zeros n) in
  let dist_matrix := fill_rows G stop_nodes dist_matrix in
  let dist_matrix := nan_to_num dist_matrix in
  astype_int dist_matrix.

(** ** routing.py: [solve_vrp_with_fleet_limit] *)

(** What the function prints, one constructor per message. *)
Inductive event :=
  | WarnFleetTooSmall (theoretical_min_buses max_buses : Z)
  | Attempting (num_vehicles : Z)
  | FoundSolution (buses_used : Z)
  | NearOptimal
  | NoSolution (num_vehicles : Z)
  | OverloadedBuses (count : nat)
  | UnderutilizedBuses (count : nat)
  | OptimizationFailed.

(** The routing model one attempt registers with OR-tools.  Callbacks are
    given on nodes: [manager.IndexToNode] is the solver's own bijection. *)
Record routing_model := mk_routing_model {
  rm_num_stops : nat;
  rm_num_vehicles : Z;
  rm_depot : nat;
  rm_arc_cost : nat → nat → option Z;
  rm_demand : nat → option Z;
  rm_capacities : list Z
}.

Record metrics := mk_metrics {
  buses_requested : Z;
  buses_used : Z;
  theoretical_minimum : Z;
  efficiency_gain : Qc;          (* the percentage, before formatting *)
  total_students : Z;
  bus_loads : list Z;
  avg_load : Qc;
  overloaded_buses : list nat;
  underutilized_buses : list nat;
  status : string
}.

(** [distance_callback], on nodes. *)
Definition distance_callback (dist_matrix : list (list Qc)) (from_node to_node : nat)
  : option Z :=
  row ← dist_matrix !! from_node;
  x ← row !! to_node;
  Some (Py.int_of_float x).

(** [demand_callback], on nodes. *)
Definition demand_callback (demands : list Z) (from_node : nat) : option Z :=
  demands !! from_node.

(** [sum(demands[i] for i in route if i != depot_index)] *)
Definition route_load (demands : list Z) (depot_index : nat) (route : list nat)
  : option Z :=
  Py.sum <$> mapM (λ i, demands !! i) (filter (λ i, i ≠ depot_index) route).

(** The [for vehicle_id] loop: the routes that serve students. *)
Fixpoint used_routes (demands : list Z) (depot_index : nat)
    (vehicle_routes : list (list nat)) : option (list (list nat)) :=
  match vehicle_routes with
  | [] => Some []
  | route :: rest =>
      load ← route_load demands depot_index route;
      routes ← used_routes demands depot_index rest;
      Some (if 0 <? load then route :: routes else routes)
  end.

(** [enumerate]-based index selection for the load classification. *)
Definition indices_where (P : Z → bool) (loads : list Z) : list nat :=
  omap (λ il, if P il.2 then Some il.1 else None) (imap (λ i load, (i, load)) loads).

Record search_state := mk_search_state {
  best_routes : list (list nat);
  best_num_buses : Z;
  printed : list event
}.

Definition print (e : event) (st : search_state) : search_state :=
  mk_search_state (best_routes st) (best_num_buses st) (printed st ++ [e]).

Section FleetSearch.

(** [routing.SolveWithParameters] followed by the walk along [NextVar]:
    [None] when the solver returns no solution within its time limit,
    otherwise the node sequence of each of the [num_vehicles] vehicles,
    from its start to its end. *)
Variable SolveWithParameters : routing_model → option (list (list nat)).

Variable dist_matrix : list (list Qc).
Variable demands : list Z.
Variable depot_index : nat.

(** The body of [for num_vehicles in range(...)], over the candidates that
    are left; [break] returns the state as it is. *)
Fixpoint fleet_search (capacity theoretical_min_buses : Z) (candidates : list Z)
    (st : search_state) : option search_state :=
  match candidates with
  | [] => Some st
  | num_vehicles :: rest =>
      let st := print (Attempting num_vehicles) st in
      let model :=
        mk_routing_model (length dist_matrix) num_vehicles depot_index
          (distance_callback dist_matrix) (demand_callback demands)
          (replicate (Z.to_nat num_vehicles) capacity) in
      match SolveWithParameters model with
      | Some vehicle_routes =>
          routes ← used_routes demands depot_index vehicle_routes;
          let buses_used := Z.of_nat (length routes) in
          let st := print (FoundSolution buses_used) st in
          if buses_used <? best_num_buses st then
            let st := mk_search_state routes buses_used (printed st) in
            if buses_used <=? theoretical_min_buses + 2
            then Some (print NearOptimal st)
            else fleet_search capacity theoretical_min_buses rest st
          else fleet_search capacity theoretical_min_buses rest st
      | None =>
          fleet_search capacity theoretical_min_buses rest
            (print (NoSolution num_vehicles) st)
      end
  end.

Definition solve_vrp_with_fleet_limit (vehicle_capacities : list Z)
    (max_buses : Z) (min_buses : option Z)
  : option (list (list nat) * option metrics * list event) :=
  let min_buses := default (Z.max 1 (max_buses / 2)) min_buses in
  let total_demand := Py.sum demands in
  capacity ← vehicle_capacities !! 0%nat;
  theoretical_min_buses ← Py.ceil_div total_demand capacity;
  let warnings :=
    if max_buses <? theoretical_min_buses
    then [WarnFleetTooSmall theoretical_min_buses max_buses] else [] in
  st ← fleet_search capacity theoretical_min_buses
         (Py.range2 (Z.max theoretical_min_buses min_buses) (max_buses + 1))
         (mk_search_state [] max_buses warnings);
  match best_routes st with
  | [] => Some ([], None, printed st ++ [OptimizationFailed])
  | _ :: _ =>
      loads ← mapM (route_load demands depot_index) (best_routes st);
      guard (max_buses ≠ 0);;
      let overloaded := indices_where (λ load, capacity <? load) loads in
      let underutilized :=
        indices_where
          (λ load, bool_decide (Qc_of_Z load < Qc_of_Z capacity * Q2Qc (1 # 2))%Qc)
          loads in
      let m :=
        mk_metrics max_buses (best_num_buses st) theoretical_min_buses
          (Qc_of_Z (max_buses - best_num_buses st) / Qc_of_Z max_buses
             * Qc_of_Z 100)%Qc
          total_demand loads
          (Qc_of_Z (Py.sum loads) / Qc_of_Z (Z.of_nat (length loads)))%Qc
          overloaded underutilized
          (if best_num_buses st =? theoretical_min_buses then "optimal" else "good") in
      Some (best_routes st, Some m,
            printed st
              ++ (if overloaded is [] then [] else [OverloadedBuses (length overloaded)])
              ++ (if underutilized is [] then [] else [UnderutilizedBuses (length underutilized)]))
  end.

End FleetSearch.

End Routing.

(** ** optimizer.py: what [full_optimization_pipeline] hands to the router *)

Module Optimizer.

(** [dist_matrix_km = dist_matrix / 1000] *)
Definition dist_matrix_km (dist_matrix : list (list Z)) : list (list Qc) :=
  (λ row : list Z, (λ d, Qc_of_Z d / Qc_of_Z 1000)%Qc <$> row) <$> dist_matrix.

End Optimizer.

(** ** clustering.py: [enforce_max_distance] *)

Module Clustering.

(** One row of [df_bus]. *)
Record student_row := mk_student_row {
  StudentID : string;
  Latitude : Qc;
  Longitude : Qc;
  assigned_stop_id : Z;
  distance_to_stop_km : Qc
}.

Definition coords (r : student_row) : Qc * Qc := (Latitude r, Longitude r).

Definition set_distance (d : Qc) (r : student_row) : student_row :=
  mk_student_row (StudentID r) (Latitude r) (Longitude r) (assigned_stop_id r) d.

Definition set_stop (id : Z) (r : student_row) : student_row :=
  mk_student_row (StudentID r) (Latitude r) (Longitude r) id (distance_to_stop_km r).

(** How a call of the function ends.  [OutOfFuel] belongs to the model
    only: the source loops [while True]. *)
Inductive outcome :=
  | Returned (df : list student_row)
  | Raised
  | OutOfFuel.

(** [Series.mean()] *)
Definition mean (l : list Qc) : Qc :=
  (foldr Qcplus 0 l / Qc_of_Z (Z.of_nat (length l)))%Qc.

(** [group[['Latitude', 'Longitude']].mean()] *)
Definition centroid (group : list student_row) : Qc * Qc :=
  (mean (Latitude <$> group), mean (Longitude <$> group)).

(** [new_df[new_df['assigned_stop_id'] == stop_id]] *)
Definition group_of (df : list student_row) (stop_id : Z) : list student_row :=
  filter (λ r, assigned_stop_id r = stop_id) df.

(** The keys of [new_df.groupby('assigned_stop_id')], in the order the
    iteration yields them (ascending). *)
Definition group_keys (df : list student_row) : list Z :=
  merge_sort Z.le (remove_dups (assigned_stop_id <$> df)).

(** [group['distance_to_stop_km'].max()]; [None] on an empty group. *)
Definition group_max (df : list student_row) (stop_id : Z) : option Qc :=
  match distance_to_stop_km <$> group_of df stop_id with
  | [] => None
  | d :: ds => Some (Py.max_float d ds)
  end.

(** [new_df['assigned_stop_id'].max()] *)
Definition max_stop_id (df : list student_row) : option Z :=
  match assigned_stop_id <$> df with
  | [] => None
  | x :: l => Some (foldl Z.max x l)
  end.

(** The inner [for i, student_idx in enumerate(group.index)] loop: the
    rows of the group, in table order, take [max_existing_id + new_labels[i]].
    [None] is the [IndexError] when the labels run out. *)
Fixpoint relabel (stop_id max_existing_id : Z) (new_labels : list Z)
    (df : list student_row) : option (list student_row) :=
  match df with
  | [] => Some []
  | r :: df' =>
      if decide (assigned_stop_id r = stop_id) then
        match new_labels with
        | [] => None
        | l :: ls =>
            (set_stop (max_existing_id + l) r ::.)
              <$> relabel stop_id max_existing_id ls df'
        end
      else (r ::.) <$> relabel stop_id max_existing_id new_labels df'
  end.

Section Repair.

(** [haversine_distances(radians(a), radians(b)) * 6371] for one pair of
    (latitude, longitude) points in degrees. *)
Variable haversine_km : Qc * Qc → Qc * Qc → Qc.

(** The labels [KMeans(n_clusters, random_state=42).fit_predict(X)]
    returns when it accepts its input. *)
Variable KMeans_labels : Z → list (Qc * Qc) → list Z.

(** scikit-learn rejects an input with fewer samples than clusters
    ([ValueError]: n_samples should be >= n_clusters). *)
Definition KMeans_fit_predict (n_clusters : Z) (X : list (Qc * Qc))
  : option (list Z) :=
  if Z.of_nat (length X) <? n_clusters then None
  else Some (KMeans_labels n_clusters X).

Definition stop_centers (df : list student_row) : list (Qc * Qc) :=
  (λ stop_id, centroid (group_of df stop_id)) <$> group_keys df.

Definition cluster_map (df : list student_row) : gmap Z nat :=
  list_to_map (imap (λ new_idx stop_id, (stop_id, new_idx)) (group_keys df)).

(** The table with [distance_to_stop_km] recomputed: row [i] reads
    [distances_rad[i, cluster_map[assigned_stop_id]] * 6371]. *)
Definition with_distances (df : list student_row) : option (list student_row) :=
  mapM (λ r,
          reindexed ← cluster_map df !! assigned_stop_id r;
          center ← stop_centers df !! reindexed;
          Some (set_distance (haversine_km (coords r) center) r))
       df.

(** [group['distance_to_stop_km'].max() > max_distance_km] *)
Definition too_far (max_distance_km : Qc) (group_maximum : option Qc) : bool :=
  match group_maximum with
  | Some m => bool_decide (max_distance_km < m)%Qc
  | None => false
  end.

Definition problematic_clusters (max_distance_km : Qc) (df : list student_row)
  : list Z :=
  filter (λ stop_id, Is_true (too_far max_distance_km (group_max df stop_id)))
         (group_keys df).

(** One turn of [for stop_id in problematic_clusters], on the table and
    [max_existing_id].  An empty group has maximum NaN and a zero bound
    gives an infinite quotient: [math.ceil] raises on both. *)
Definition split_cluster (max_distance_km : Qc) (st : list student_row * Z)
    (stop_id : Z) : option (list student_row * Z) :=
  let group := group_of st.1 stop_id in
  m ← group_max st.1 stop_id;
  guard (max_distance_km ≠ 0%Qc);;
  let num_subclusters := Z.max 2 (Qceiling (m / max_distance_km)%Qc) in
  new_labels ← KMeans_fit_predict num_subclusters (coords <$> group);
  new_df ← relabel stop_id st.2 new_labels st.1;
  Some (new_df, st.2 + num_subclusters).

Fixpoint split_clusters (max_distance_km : Qc) (problematic : list Z)
    (st : list student_row * Z) : option (list student_row * Z) :=
  match problematic with
  | [] => Some st
  | stop_id :: rest =>
      st' ← split_cluster max_distance_km st stop_id;
      split_clusters max_distance_km rest st'
  end.

(** The [while True] loop.  On an empty table [haversine_distances] rejects
    its empty arrays.  The helper column [assigned_stop_id_reindexed] is
    dropped again before the return and is not kept in the rows. *)
Fixpoint enforce_loop (fuel : nat) (max_distance_km : Qc)
    (new_df : list student_row) : outcome :=
  match fuel with
  | O => OutOfFuel
  | S fuel' =>
      match new_df with
      | [] => Raised
      | _ :: _ =>
          match with_distances new_df with
          | None => Raised
          | Some new_df =>
              match problematic_clusters max_distance_km new_df with
              | [] => Returned new_df
              | problematic =>
                  match
                    max_id ← max_stop_id new_df;
                    split_clusters max_distance_km problematic (new_df, max_id + 1)
                  with
                  | None => Raised
                  | Some st => enforce_loop fuel' max_distance_km st.1
                  end
              end
          end
      end
  end.

Definition enforce_max_distance (fuel : nat) (df_bus : list student_row)
    (max_distance_km : Qc) : outcome :=
  enforce_loop fuel max_distance_km df_bus.

End Repair.

End Clustering.

(** ** clustering.py: [create_stop_df]; map.py: [snap_stops_to_graph] *)

Module Stops.
Import Clustering.

Global Instance stop_ident_eq_dec : EqDecision stop_ident.
Proof. solve_decision. Defined.

(** One row of the table [create_stop_df] builds: the stop before it is
    snapped to the road graph. *)
Record cluster_row := mk_cluster_row {
  c_stop_id : stop_ident;
  c_original_stop_id : stop_ident;
  c_latitude : Qc;
  c_longitude : Qc;
  c_num_students : Z;
  c_student_ids : list string
}.

(** [Series.unique()]: the values in the order of their first appearance. *)
Fixpoint unique (l : list Z) : list Z :=
  match l with
  | [] => []
  | x :: rest => x :: filter (λ y, y ≠ x) (unique rest)
  end.

(** The body of [for stop_id in stop_ids]. *)
Definition stop_of_cluster (df : list student_row) (stop_id : Z) : cluster_row :=
  let students_at_stop := group_of df stop_id in
  mk_cluster_row (IdInt stop_id) (IdInt stop_id)
    (mean (Latitude <$> students_at_stop))
    (mean (Longitude <$> students_at_stop))
    (Z.of_nat (length students_at_stop))
    (StudentID <$> students_at_stop).

Definition school_stop (school_coords : Qc * Qc) : cluster_row :=
  mk_cluster_row school school school_coords.1 school_coords.2 0 [].

(** [school_coords] is a pair or [None]; a pair is truthy. *)
Definition create_stop_df (df : list student_row) (school_coords : option (Qc * Qc))
  : list cluster_row :=
  let stop_ids := unique (assigned_stop_id <$> df) in
  let stop_df := stop_of_cluster df <$> stop_ids in
  match school_coords with
  | Some sc => school_stop sc :: stop_df
  | None => stop_df
  end.

Section Snap.

(** [ox.distance.nearest_nodes(G, X, Y)] for the graph at hand, and the
    coordinates [G.nodes[node]['y']], [G.nodes[node]['x']] of its nodes. *)
Variable nearest_nodes : Qc → Qc → Z.
Variable node_y node_x : Z → Qc.

Definition get_snapped_coords (row : cluster_row) : stop_row :=
  let node := nearest_nodes (c_longitude row) (c_latitude row) in
  if decide (c_stop_id row = school) then
    mk_stop_row (c_stop_id row) (c_original_stop_id row) (c_latitude row)
      (c_longitude row) (c_num_students row) (c_student_ids row)
      node (c_latitude row) (c_longitude row)
  else
    mk_stop_row (c_stop_id row) (c_original_stop_id row) (c_latitude row)
      (c_longitude row) (c_num_students row) (c_student_ids row)
      node (node_y node) (node_x node).

Definition snap_stops_to_graph (stop_df : list cluster_row) : list stop_row :=
  get_snapped_coords <$> stop_df.

End Snap.

End Stops.

(** ** optimizer.py: [full_optimization_pipeline] *)

Module Pipeline.
Import Routing Clustering Stops.

(** How a run ends: with a value, with one of the two [ValueError]s the
    pipeline raises itself, or with an exception from the code it calls.
    [Unfinished] belongs to the model only (the fuel of the repair loop). *)
Inductive raised :=
  | ValueError (msg : string)
  | Error.

Inductive result (A : Type) :=
  | Ok (a : A)
  | Raise (e : raised)
  | Unfinished.
Arguments Ok {A} a.
Arguments Raise {A} e.
Arguments Unfinished {A}.

Definition bind {A B} (r : result A) (f : A → result B) : result B :=
  match r with
  | Ok a => f a
  | Raise e => Raise e
  | Unfinished => Unfinished
  end.

Notation "x <- r ;;; k" := (bind r (λ x, k))
  (at level 100, r at next level, right associativity, only parsing).

(** A call that raises on [None]. *)
Definition try {A} (o : option A) : result A :=
  match o with
  | Some a => Ok a
  | None => Raise Error
  end.

(** One row of the uploaded table; its [Name] column is carried along
    and read by the report only. *)
Record upload_row := mk_upload_row {
  u_StudentID : string;
  u_Latitude : Qc;
  u_Longitude : Qc
}.

Definition u_coords (r : upload_row) : Qc * Qc := (u_Latitude r, u_Longitude r).

(** A fitted [KMeans]: [predict] and [cluster_centers_]. *)
Record kmeans_model := mk_kmeans_model {
  predict : list (Qc * Qc) → list Z;
  cluster_centers_ : list (Qc * Qc)
}.

(** What the pipeline has computed when it reaches its report stage
    (line 113).  What is printed on the way is not part of it. *)
Record plan := mk_plan {
  plan_df_walkers : list upload_row;
  plan_df_bus : list student_row;
  plan_stop_df : list stop_row;
  plan_dist_matrix_km : list (list Qc);
  plan_depot_index : nat;
  plan_demands : list Z;
  plan_routes : list (list nat);
  plan_bus_loads : list Z;
  plan_actual_num_buses : Z;
  plan_vrp_metrics : option metrics
}.

(** [a[i]] for a numpy index: negative indices count from the end. *)
Definition np_item {A} (a : list A) (i : Z) : option A :=
  if 0 <=? i then a !! Z.to_nat i
  else if - Z.of_nat (length a) <=? i then a !! Z.to_nat (Z.of_nat (length a) + i)
  else None.

Section Run.

Variable haversine_km : Qc * Qc → Qc * Qc → Qc.

(** scikit-learn and kneed: the inertia of [KMeans(n_clusters=k,
    random_state=42).fit(coords)], the elbow [KneeLocator] finds
    ([None] when it finds none), the fitted model, and the labels of
    the re-clustering in the repair loop. *)
Variable KMeans_inertia : Z → list (Qc * Qc) → Qc.
Variable KneeLocator_elbow : list Z → list Qc → option Z.
Variable KMeans_fit : Z → list (Qc * Qc) → kmeans_model.
Variable KMeans_labels : Z → list (Qc * Qc) → list Z.

(** osmnx: the drive network around a point, the node nearest to
    [(X, Y)], and the coordinates of a node. *)
Variable graph_from_point : Qc * Qc → option graph.
Variable nearest_nodes : graph → Qc → Qc → Z.
Variable node_y node_x : graph → Z → Qc.

Variable SolveWithParameters : routing_model → option (list (list nat)).

(** [KMeans.fit] rejects fewer samples than clusters. *)
Definition fit_checked {A} (n_clusters : Z) (coords : list (Qc * Qc)) (a : A)
  : option A :=
  if Z.of_nat (length coords) <? n_clusters then None else Some a.

(** clustering.py, [find_optimal_clusters], with [k_range = range(1, 31)];
    the plot it saves is left out.  Without an elbow [n_clusters] is
    [None], which [KMeans] rejects. *)
Definition find_optimal_clusters (coords : list (Qc * Qc))
  : option (Z * kmeans_model * list Qc) :=
  let k_range := Py.range2 1 31 in
  inertias ← mapM (λ k, fit_checked k coords (KMeans_inertia k coords)) k_range;
  optimal_k ← KneeLocator_elbow k_range inertias;
  kmeans_opt ← fit_checked optimal_k coords (KMeans_fit optimal_k coords);
  Some (optimal_k, kmeans_opt, inertias).

Definition SAFE_WALK_KM (safe_walk_miles : Qc) : Qc :=
  (safe_walk_miles / Q2Qc (27 # 10) * Q2Qc (160934 # 100000))%Qc.

Definition needs_bus (school_coords : Qc * Qc) (safe_walk_miles : Qc)
    (r : upload_row) : bool :=
  bool_decide (SAFE_WALK_KM safe_walk_miles < haversine_km (u_coords r) school_coords)%Qc.

(** Lines 46-47: [df[df['needs_bus']]] and [df[~df['needs_bus']]]. *)
Definition bus_riders (school_coords : Qc * Qc) (safe_walk_miles : Qc)
    (df : list upload_row) : list upload_row :=
  filter (λ r, Is_true (needs_bus school_coords safe_walk_miles r)) df.

Definition walkers (school_coords : Qc * Qc) (safe_walk_miles : Qc)
    (df : list upload_row) : list upload_row :=
  filter (λ r, ¬ Is_true (needs_bus school_coords safe_walk_miles r)) df.

(** Lines 50-56: the riders with the label of their cluster and the
    distance to its centre, which line 56 leaves in radians. *)
Definition assign_stops (df_bus : list upload_row) (kmeans : kmeans_model)
  : option (list student_row) :=
  let coords := u_coords <$> df_bus in
  let labels := predict kmeans coords in
  guard (length labels = length df_bus);;
  mapM (λ rl : upload_row * Z,
          center ← np_item (cluster_centers_ kmeans) rl.2;
          Some (mk_student_row (u_StudentID rl.1) (u_Latitude rl.1)
                  (u_Longitude rl.1) rl.2
                  (haversine_km (u_coords rl.1) center / Qc_of_Z 6371)%Qc))
       (zip df_bus labels).

(** Lines 108-109: the routes with a load, and their loads. *)
Definition remove_empty_buses (demands : list Z) (depot_index : nat)
    (routes : list (list nat)) : option (list (list nat) * list Z) :=
  loads ← mapM (route_load demands depot_index) routes;
  let filtered := filter (λ rl : list nat * Z, 0 < rl.2) (zip routes loads) in
  Some (filtered.*1, filtered.*2).

(** Lines 61-111: from the repaired rider table to the routes.  The
    matrix of lines 75-76 is replaced in line 81 before it is read. *)
Definition route_riders (df_walkers : list upload_row) (df_bus : list student_row)
    (school_coords : Qc * Qc) (bus_capacity num_bus : Z) : result plan :=
  let stop_df := create_stop_df df_bus (Some school_coords) in
  G <- try (graph_from_point
              (mean (Latitude <$> df_bus), mean (Longitude <$> df_bus))) ;;;
  let stop_df :=
    snap_stops_to_graph (nearest_nodes G) (node_y G) (node_x G) stop_df in
  stop_df <- try (split_large_stops stop_df bus_capacity) ;;;
  let stop_nodes := graph_node <$> stop_df in
  let dist_matrix := build_distance_matrix G stop_nodes in
  let dist_matrix_km := Optimizer.dist_matrix_km dist_matrix in
  let vehicle_capacities := replicate (Z.to_nat num_bus) bus_capacity in
  match list_find (λ row, stop_id row = school) stop_df with
  | None => Raise (ValueError "School not found in stop_df")
  | Some (depot_index, _) =>
      let demands := num_students <$> stop_df in
      solved <- try (solve_vrp_with_fleet_limit SolveWithParameters
                       dist_matrix_km demands depot_index vehicle_capacities
                       num_bus (Some (Z.max 1 (num_bus / 2)))) ;;;
      match solved.1.1 with
      | [] => Raise (ValueError "VRP optimization failed - no feasible solution found")
      | _ :: _ =>
          filtered <- try (remove_empty_buses demands depot_index solved.1.1) ;;;
          Ok (mk_plan df_walkers df_bus stop_df dist_matrix_km depot_index
                demands filtered.1 filtered.2
                (Z.of_nat (length filtered.1)) solved.1.2)
      end
  end.

(** Lines 35-111.  [haversine_distances] rejects an empty table. *)
Definition full_optimization_pipeline (fuel : nat) (df : list upload_row)
    (school_coords : Qc * Qc) (bus_capacity num_bus : Z) (safe_walk_miles : Qc)
  : result plan :=
  match df with
  | [] => Raise Error
  | _ :: _ =>
      let df_bus := bus_riders school_coords safe_walk_miles df in
      let df_walkers := walkers school_coords safe_walk_miles df in
      fitted <- try (find_optimal_clusters (u_coords <$> df_bus)) ;;;
      df_bus <- try (assign_stops df_bus fitted.1.2) ;;;
      match enforce_max_distance haversine_km KMeans_labels fuel df_bus 1 with
      | Returned df_bus =>
          route_riders df_walkers df_bus school_coords bus_capacity num_bus
      | Raised => Raise Error
      | OutOfFuel => Unfinished
      end
  end.

End Run.

End Pipeline.

(** ** info.py: the report tables *)

Module Info.
Import Routing Stops.

(** [stop_df[~depot_mask]]: the rows other than the school. *)
Definition not_depot (stop_df : list stop_row) : list stop_row :=
  filter (λ row, stop_id row ≠ school) stop_df.

Record admin_metrics := mk_admin_metrics {
  am_total_stops : Z;
  am_total_buses : Z;
  am_total_students : Z
}.

Definition calculate_admin_metrics (stop_df : list stop_row)
    (routes : list (list nat)) (vehicle_capacities : list Z) : admin_metrics :=
  mk_admin_metrics (Z.of_nat (length stop_df) - 1) (Z.of_nat (length routes))
    (Py.sum (num_students <$> not_depot stop_df)).

(** The values of the overview table; the count of a bus list is its
    length. *)
Record overview := mk_overview {
  ov_total_students : Z;
  ov_total_buses : Z;
  ov_overloaded : list nat;
  ov_underutilized : list nat;
  ov_total_stops : Z;
  ov_avg_students_per_stop : Qc;
  ov_total_distance : Qc;
  ov_avg_distance : Qc
}.

(** [sum(stop_df.iloc[i]['num_students'] for i in route
         if not depot_mask.iloc[i])]; [None] is the [IndexError]. *)
Definition bus_load (stop_df : list stop_row) (route : list nat) : option Z :=
  rows ← mapM (λ i, stop_df !! i) route;
  Some (Py.sum (num_students <$> not_depot rows)).

(** [vehicle_capacities[bus_idx] if bus_idx < len(vehicle_capacities)
     else vehicle_capacities[0]] *)
Definition capacity_of (vehicle_capacities : list Z) (bus_idx : nat) : option Z :=
  if decide (bus_idx < length vehicle_capacities)%nat
  then vehicle_capacities !! bus_idx
  else vehicle_capacities !! 0%nat.

(** [dist_matrix_km[route[i]][route[i + 1]]] for [i in range(len(route) - 1)] *)
Definition legs (dist_matrix_km : list (list Qc)) (route : list nat)
  : option (list Qc) :=
  mapM (λ ft : nat * nat, row ← dist_matrix_km !! ft.1; row !! ft.2)
       (zip route (tail route)).

(** The [for bus_idx, route in enumerate(routes)] loop, on
    [(overloaded, underutilized, total_distance)]. *)
Fixpoint tally_routes (stop_df : list stop_row) (vehicle_capacities : list Z)
    (dist_matrix_km : list (list Qc)) (bus_idx : nat) (routes : list (list nat))
    (t : list nat * list nat * Qc) : option (list nat * list nat * Qc) :=
  match routes with
  | [] => Some t
  | route :: rest =>
      load ← bus_load stop_df route;
      capacity ← capacity_of vehicle_capacities bus_idx;
      let marks :=
        if capacity <? load then (t.1.1 ++ [bus_idx], t.1.2)
        else if bool_decide (Qc_of_Z load < Qc_of_Z capacity * Q2Qc (1 # 2))%Qc
             then (t.1.1, t.1.2 ++ [bus_idx])
             else (t.1.1, t.1.2) in
      ls ← legs dist_matrix_km route;
      tally_routes stop_df vehicle_capacities dist_matrix_km (S bus_idx) rest
        (marks.1, marks.2, foldl Qcplus t.2 ls)
  end.

Section Report.

(** [round(x, 2)] on a float. *)
Variable round2 : Qc → Qc.

Definition generate_overview_metrics (stop_df : list stop_row)
    (routes : list (list nat)) (vehicle_capacities : list Z)
    (dist_matrix_km : list (list Qc)) : option overview :=
  let total_students := Py.sum (num_students <$> not_depot stop_df) in
  let total_buses := Z.of_nat (length routes) in
  let total_stops := Z.of_nat (length (not_depot stop_df)) in
  t ← tally_routes stop_df vehicle_capacities dist_matrix_km 0 routes ([], [], 0%Qc);
  let avg_students_per_stop :=
    if 0 <? total_stops
    then (Qc_of_Z total_students / Qc_of_Z total_stops)%Qc else 0%Qc in
  let avg_distance :=
    if 0 <? total_buses then (t.2 / Qc_of_Z total_buses)%Qc else 0%Qc in
  Some (mk_overview total_students total_buses t.1.1 t.1.2 total_stops
          (round2 avg_students_per_stop) (round2 t.2) (round2 avg_distance)).

End Report.

End Info.

(** ** routing.py: [build_distance_matrix], with its lengths in binary64

    The path lengths networkx returns are sums of binary64 edge lengths,
    rounded at every addition in the order of the path, and
    [astype(int)] truncates them.  Where an entry is compared with its
    transpose the rounding decides, so here the matrix is embedded over
    the kernel's binary64 floats, and Dijkstra, a library call, is a
    parameter. *)

Module Routing64.
Import PrimFloat FloatOps SpecFloat.

(** The road graph, with the ['length'] attribute of an edge as the float
    it is. *)
Record graph := mk_graph {
  directed : bool;
  nodes : list Z;
  edges : list (Z * Z * float)
}.

(** [distances[node]] on the dict of path lengths, kept in insertion
    order; [None] when [node not in distances]. *)
Fixpoint item (distances : list (Z * float)) (node : Z) : option float :=
  match distances with
  | [] => None
  | (key, d) :: rest => if decide (key = node) then Some d else item rest node
  end.

(** An entry under [np.nan_to_num(_, nan=1e6, posinf=1e6, neginf=1e6)]. *)
Definition nan_to_num_entry (x : float) : float :=
  if is_nan x || is_infinity x then 1000000%float else x.

(** An entry under [astype(int)], the conversion of a double to a 64-bit
    integer: the fraction is cut off; what does not fit gives the least
    integer. *)
Definition astype_int_entry (x : float) : Z :=
  match Prim2SF x with
  | S754_zero _ => 0
  | S754_finite negative m e =>
      let magnitude := if 0 <=? e then Z.pos m * 2 ^ e else Z.pos m / 2 ^ (- e) in
      let v := if negative then - magnitude else magnitude in
      if (- 2 ^ 63 <=? v) && (v <? 2 ^ 63) then v else - 2 ^ 63
  | S754_infinity _ | S754_nan => - 2 ^ 63
  end.

Definition nan_to_num (dist_matrix : list (list float)) : list (list float) :=
  (λ row : list float, nan_to_num_entry <$> row) <$> dist_matrix.

Definition astype_int (dist_matrix : list (list float)) : list (list Z) :=
  (λ row : list float, astype_int_entry <$> row) <$> dist_matrix.

(** [np.zeros((n, n))] *)
Definition np_zeros (n : nat) : list (list float) :=
  replicate n (replicate n 0%float).

(** [np.fill_diagonal(dist_matrix, 0)] *)
Definition fill_diagonal (dist_matrix : list (list float)) : list (list float) :=
  imap (λ i row, <[i := 0%float]> row) dist_matrix.

(** The inner loop over the targets, on row [i] of the matrix: an entry
    is written only [if target_node in distances]. *)
Definition fill_row (distances : list (Z * float)) (stop_nodes : list Z)
    (row : list float) : list float :=
  Py.for_enumerate
    (λ j target_node row,
       match item distances target_node with
       | Some d => <[j := d]> row
       | None => row
       end)
    0 stop_nodes row.

Section Matrix.

(** [nx.single_source_dijkstra_path_length(G, source, weight='length')]:
    the dict it returns, [None] when it raises. *)
Variable single_source_dijkstra_path_length :
  graph → Z → option (list (Z * float)).

(** The outer loop over the sources; [except Exception: continue] leaves
    the row as it is. *)
Definition fill_rows (G : graph) (stop_nodes : list Z)
    (dist_matrix : list (list float)) : list (list float) :=
  Py.for_enumerate
    (λ i source_node dist_matrix,
       match single_source_dijkstra_path_length G source_node with
       | Some distances => alter (fill_row distances stop_nodes) i dist_matrix
       | None => dist_matrix
       end)
    0 stop_nodes dist_matrix.

Definition build_distance_matrix (G : graph) (stop_nodes : list Z)
  : list (list Z) :=
  let n := length stop_nodes in
  let dist_matrix := fill_diagonal (np_zeros n) in
  let dist_matrix := fill_rows G stop_nodes dist_matrix in
  let dist_matrix := nan_to_num dist_matrix in
  astype_int dist_matrix.

End Matrix.

End Routing64.

(** * Properties *)

(** ** Integer ceiling *)

Module PyFacts.

(** The ceiling the design document writes [ceil(a / b)]. *)
Definition ceil (a b : Z) : Z := - ((- a) / b).

Lemma ceil_div_Some a b : b ≠ 0 → Py.ceil_div a b = Some (ceil a b).
Proof.
  intros Hb. unfold Py.ceil_div, ceil.
  destruct (Z.eqb_spec b 0); [contradiction | reflexivity].
Qed.

Lemma ceil_bounds a b : 0 < b → b * (ceil a b - 1) < a ≤ b * ceil a b.
Proof.
  intros Hb. unfold ceil.
  pose proof (Z_div_mod_eq_full (- a) b) as Hdm.
  pose proof (Z.mod_pos_bound (- a) b Hb) as Hm.
  nia.
Qed.

Lemma ceil_ge_2 a b : 0 < b → b < a → 2 ≤ ceil a b.
Proof. intros Hb Hab. pose proof (ceil_bounds a b Hb). nia. Qed.

Lemma range_length n : length (Py.range n) = Z.to_nat n.
Proof. unfold Py.range. rewrite length_fmap, length_seq. reflexivity. Qed.

Lemma range_lookup n (i : nat) :
  (i < Z.to_nat n)%nat → Py.range n !! i = Some (Z.of_nat i).
Proof.
  intros Hi. unfold Py.range.
  rewrite list_lookup_fmap, lookup_seq_lt by assumption. reflexivity.
Qed.

Lemma range_succ n : 0 ≤ n → Py.range (n + 1) = Py.range n ++ [n].
Proof.
  intros Hn. unfold Py.range.
  replace (Z.to_nat (n + 1)) with (S (Z.to_nat n)) by lia.
  rewrite seq_S, fmap_app. simpl. rewrite Z2Nat.id by assumption. reflexivity.
Qed.

Lemma range2_empty a b : b ≤ a → Py.range2 a b = [].
Proof.
  intros Hab. unfold Py.range2.
  replace (Z.to_nat (b - a)) with 0%nat by lia. reflexivity.
Qed.

Lemma sum_app l k : Py.sum (l ++ k) = Py.sum l + Py.sum k.
Proof. unfold Py.sum. induction l as [|x l IH]; simpl; lia. Qed.

Lemma sum_const (A : Type) (l : list A) c :
  Py.sum ((λ _, c) <$> l) = c * Z.of_nat (length l).
Proof.
  unfold Py.sum. induction l as [|x l IH]; csimpl; [lia |].
  rewrite IH. lia.
Qed.

End PyFacts.

(** ** The capacity normaliser *)

Module SplitFacts.
Import Routing PyFacts.

(** What the design document promises of the stops that replace [row]. *)
Definition siblings_of (bus_capacity : Z) (row : stop_row) (piece : list stop_row)
  : Prop :=
  let demand := num_students row in
  let n := ceil demand bus_capacity in
  let per := ceil demand n in
  length piece = Z.to_nat n
  ∧ (∀ (i : nat) r, piece !! i = Some r →
       latitude r = latitude row ∧ longitude r = longitude row
       ∧ num_students r =
           if decide (Z.of_nat i = n - 1) then demand - per * (n - 1) else per)
  ∧ Py.sum (num_students <$> piece) = demand.

Definition replaces (bus_capacity : Z) (row : stop_row) (piece : list stop_row)
  : Prop :=
  if decide (num_students row ≤ bus_capacity)
  then piece = [row]
  else siblings_of bus_capacity row piece.

Lemma sub_stop_demands row demand n per :
  1 ≤ n →
  Py.sum (num_students <$> (sub_stop row demand n per <$> Py.range n))
  = demand.
Proof.
  intros Hn.
  replace n with ((n - 1) + 1) at 2 by lia.
  rewrite range_succ, !fmap_app, sum_app by lia.
  assert (Hfront : num_students <$> (sub_stop row demand n per <$> Py.range (n - 1))
                   = (λ _, per) <$> Py.range (n - 1)).
  { rewrite <- list_fmap_compose. apply list_fmap_ext.
    intros k i Hi. apply lookup_lt_Some in Hi as Hlt.
    rewrite range_length in Hlt. rewrite range_lookup in Hi by assumption.
    injection Hi as <-. simpl.
    destruct (Z.eqb_spec (Z.of_nat k) (n - 1)); [lia | reflexivity]. }
  rewrite Hfront, sum_const, range_length. csimpl.
  rewrite Z.eqb_refl. unfold Py.sum. simpl.
  rewrite Z2Nat.id by lia. lia.
Qed.

Lemma split_row_spec bus_capacity row :
  0 < bus_capacity →
  ∃ piece, split_row bus_capacity row = Some piece
           ∧ replaces bus_capacity row piece
           ∧ Forall (λ r, num_students r ≤ bus_capacity) piece.
Proof.
  intros Hcap. unfold split_row, replaces.
  destruct (Z.leb_spec (num_students row) bus_capacity) as [Hle|Hgt].
  - exists [row]. rewrite decide_True by assumption.
    split; [reflexivity | split; [reflexivity |]].
    constructor; [assumption | constructor].
  - destruct (decide (num_students row ≤ bus_capacity)) as [|_]; [lia |].
    set (demand := num_students row) in *.
    pose proof (ceil_ge_2 demand bus_capacity Hcap Hgt) as Hn.
    pose proof (ceil_bounds demand bus_capacity Hcap) as Hnb.
    set (n := ceil demand bus_capacity) in *.
    assert (Hn0 : 0 < n) by lia.
    pose proof (ceil_bounds demand n Hn0) as Hpb.
    rewrite ceil_div_Some by lia. simpl.
    rewrite ceil_div_Some by lia. simpl.
    fold n. set (per := ceil demand n) in *.
    eexists. split; [reflexivity |]. split.
    + unfold siblings_of. fold demand n per. split; [| split].
      * rewrite length_fmap, range_length. reflexivity.
      * intros i r Hi. rewrite list_lookup_fmap in Hi.
        destruct (Py.range n !! i) as [z|] eqn:Hz; [| discriminate].
        assert (Hlt : (i < Z.to_nat n)%nat).
        { apply lookup_lt_Some in Hz. rewrite range_length in Hz. exact Hz. }
        rewrite range_lookup in Hz by assumption.
        injection Hz as <-. injection Hi as <-. simpl.
        repeat split.
        destruct (Z.eqb_spec (Z.of_nat i) (n - 1)) as [He|Hne].
        -- rewrite decide_True by assumption. reflexivity.
        -- rewrite decide_False by assumption. reflexivity.
      * apply sub_stop_demands. lia.
    + apply Forall_forall. intros r Hr.
      apply list_elem_of_fmap in Hr as (i & -> & _). simpl.
      destruct (Z.eqb_spec i (n - 1)); nia.
Qed.

Lemma split_rows_run stop_df bus_capacity :
  0 < bus_capacity → is_Some (mapM (split_row bus_capacity) stop_df).
Proof.
  intros Hcap. induction stop_df as [|row stop_df (ps & Hps)].
  - exists []. reflexivity.
  - destruct (split_row_spec bus_capacity row Hcap) as (piece & Hp & _).
    exists (piece :: ps). simpl. rewrite Hp. simpl. rewrite Hps. reflexivity.
Qed.

Lemma split_row_large bus_capacity row :
  0 < bus_capacity → bus_capacity < num_students row →
  let demand := num_students row in
  let n := ceil demand bus_capacity in
  2 ≤ n
  ∧ split_row bus_capacity row
    = Some (sub_stop row demand n (ceil demand n) <$> Py.range n).
Proof.
  intros Hcap Hgt demand n.
  pose proof (ceil_ge_2 demand bus_capacity Hcap Hgt) as Hn. fold n in Hn.
  split; [exact Hn |]. unfold split_row. fold demand.
  destruct (Z.leb_spec demand bus_capacity); [lia |].
  rewrite ceil_div_Some by lia. simpl. fold n.
  rewrite ceil_div_Some by lia. reflexivity.
Qed.

Lemma filter_all {A} (P : A → Prop) `{!∀ x, Decision (P x)} (l : list A) :
  Forall P l → filter P l = l.
Proof.
  induction 1 as [|x l Hx _ IH]; [reflexivity |].
  rewrite filter_cons_True, IH by assumption. reflexivity.
Qed.

Lemma filter_none {A} (P : A → Prop) `{!∀ x, Decision (P x)} (l : list A) :
  Forall (λ x, ¬ P x) l → filter P l = [].
Proof.
  induction 1 as [|x l Hx _ IH]; [reflexivity |].
  rewrite filter_cons_False, IH by assumption. reflexivity.
Qed.

Lemma filter_concat_length {A} (P : A → Prop) `{!∀ x, Decision (P x)}
    (pieces : list (list A)) (piece : list A) :
  piece ∈ pieces →
  (length (filter P piece) ≤ length (filter P (concat pieces)))%nat.
Proof.
  induction pieces as [|p pieces IH]; intros Hin.
  - apply elem_of_nil in Hin. contradiction.
  - simpl. rewrite filter_app, length_app.
    apply elem_of_cons in Hin as [->|Hin]; [lia |].
    specialize (IH Hin). lia.
Qed.

(** A stop of 100 riders, as the design document's scenario has it. *)
Definition stop_of_100 : stop_row :=
  mk_stop_row (IdInt 7) (IdInt 7) (Q2Qc (81 # 2)) (Q2Qc (-149 # 2)) 100 []
              4242 (Q2Qc (81 # 2)) (Q2Qc (-149 # 2)).

(** A stop of two riders and the depot row before it. *)
Definition school_row : stop_row :=
  mk_stop_row school school (Q2Qc (81 # 2)) (Q2Qc (-149 # 2)) 0 []
              1 (Q2Qc (81 # 2)) (Q2Qc (-149 # 2)).

Definition stop_of_two : stop_row :=
  mk_stop_row (IdInt 0) (IdInt 0) (Q2Qc (203 # 5)) (Q2Qc (-373 # 5)) 2
              ["s1"; "s2"] 17 (Q2Qc (203 # 5)) (Q2Qc (-373 # 5)).

(** C4, as stated, fails: the three parts of a stop of 100 riders at
    capacity 40 do not carry 40, 40 and 20 riders. *)
Lemma split_100_by_40_not_40_40_20 :
  ¬ ∃ out, split_large_stops [stop_of_100] 40 = Some out
           ∧ num_students <$> out = [40; 40; 20].
Proof.
  intros (out & Hrun & Hdem). vm_compute in Hrun.
  injection Hrun as <-. discriminate Hdem.
Qed.

(** C4, amended: a stop of demand 100 is replaced, at capacity 40, by
    exactly 3 sibling stops, and their demands are 34, 34 and 32 (the even
    share ceil(100 / 3) twice, then the remainder). *)
Theorem split_100_by_40 (row : stop_row) :
  num_students row = 100 →
  ∃ out, split_large_stops [row] 40 = Some out
         ∧ length out = 3%nat
         ∧ num_students <$> out = [34; 34; 32].
Proof.
  intros Hd. unfold split_large_stops. simpl.
  unfold split_row. rewrite Hd. simpl.
  eexists. split; [reflexivity |]. split; reflexivity.
Qed.

Lemma split_100_by_40_witness :
  ∃ out, split_large_stops [stop_of_100] 40 = Some out
         ∧ length out = 3%nat
         ∧ num_students <$> out = [34; 34; 32].
Proof. apply (split_100_by_40 stop_of_100). reflexivity. Defined.

(** C5: the code repeats the riders of a split stop in every part.  Each
    part is [row.copy()] with only [stop_id] and [num_students] replaced, so
    a rider of a stop whose demand exceeds the capacity is, after
    normalisation, in the student list of at least two stops, not of
    exactly one. *)
Theorem split_large_stops_repeats_students
    (stop_df : list stop_row) (bus_capacity : Z) (row : stop_row) (s : string) :
  0 < bus_capacity →
  row ∈ stop_df →
  bus_capacity < num_students row →
  s ∈ student_ids row →
  ∃ out, split_large_stops stop_df bus_capacity = Some out
         ∧ (2 ≤ length (filter (λ r, s ∈ student_ids r) out))%nat.
Proof.
  intros Hcap Hrow Hgt Hs.
  destruct (split_rows_run stop_df bus_capacity Hcap) as (ps & Hm).
  unfold split_large_stops. rewrite Hm.
  exists (concat ps). split; [reflexivity |].
  destruct (split_row_large bus_capacity row Hcap Hgt) as (Hn & Hpiece).
  set (n := ceil (num_students row) bus_capacity) in *.
  set (piece := sub_stop row (num_students row) n (ceil (num_students row) n)
                <$> Py.range n) in *.
  assert (Hin : piece ∈ ps).
  { apply mapM_Some in Hm.
    apply list_elem_of_lookup in Hrow as (i & Hi).
    destruct (Forall2_lookup_l _ _ _ _ _ Hm Hi) as (p & Hp & Hsplit).
    rewrite Hpiece in Hsplit. injection Hsplit as <-.
    eapply list_elem_of_lookup_2. exact Hp. }
  pose proof (filter_concat_length (λ r, s ∈ student_ids r) ps piece Hin) as Hle.
  assert (Hall : filter (λ r, s ∈ student_ids r) piece = piece).
  { apply filter_all, Forall_forall. intros r Hr.
    apply list_elem_of_fmap in Hr as (i & -> & _). exact Hs. }
  rewrite Hall in Hle. unfold piece in Hle at 1.
  rewrite length_fmap, range_length in Hle. lia.
Qed.

Lemma split_large_stops_repeats_students_witness :
  ∃ out, split_large_stops [school_row; stop_of_two] 1 = Some out
         ∧ (2 ≤ length (filter (λ r, "s1" ∈ student_ids r) out))%nat.
Proof.
  apply (split_large_stops_repeats_students
           [school_row; stop_of_two] 1 stop_of_two "s1").
  - lia.
  - apply elem_of_cons. right. apply elem_of_cons. left. reflexivity.
  - simpl. lia.
  - apply elem_of_cons. left. reflexivity.
Defined.



End SplitFacts.

(** ** The fleet search *)

Module FleetFacts.
Import Routing PyFacts.

Section WithSolver.

Variable SolveWithParameters : routing_model → option (list (list nat)).
Variable dist_matrix : list (list Qc).
Variable demands : list Z.
Variable depot_index : nat.

(** C1: when the theoretical minimum exceeds the maximum fleet the code
    prints its warning ("Proceeding with max_buses buses") and then makes no
    attempt at all: [range(max(theoretical_min, min_buses), max_buses + 1)]
    is empty, so the function returns the failure result [([], {})],
    whatever the solver could do, instead of a best-effort plan. *)
Theorem fleet_too_small_fails
    (vehicle_capacities : list Z) (capacity max_buses : Z) (min_buses : option Z) :
  vehicle_capacities !! 0%nat = Some capacity →
  capacity ≠ 0 →
  max_buses < ceil (Py.sum demands) capacity →
  solve_vrp_with_fleet_limit SolveWithParameters dist_matrix demands
    depot_index vehicle_capacities max_buses min_buses
  = Some ([], None,
          [WarnFleetTooSmall (ceil (Py.sum demands) capacity) max_buses;
           OptimizationFailed]).
Proof.
  intros Hcap Hne Hlt. unfold solve_vrp_with_fleet_limit.
  rewrite Hcap. simpl. rewrite ceil_div_Some by assumption. simpl.
  destruct (Z.ltb_spec max_buses (ceil (Py.sum demands) capacity)); [| lia].
  rewrite range2_empty by lia. reflexivity.
Qed.

(** C2: a feasible attempt that needs the whole fleet is thrown away.  The
    running best starts at [max_buses] and an attempt is kept only when it
    uses strictly fewer buses, so when the only candidate size is
    [max_buses] and the solver's solution loads every one of its vehicles,
    the function returns the failure result although a candidate size
    yielded a feasible solution. *)
Theorem full_fleet_solution_dropped
    (vehicle_capacities : list Z) (capacity max_buses : Z) (min_buses : option Z)
    (vehicle_routes routes : list (list nat)) :
  vehicle_capacities !! 0%nat = Some capacity →
  capacity ≠ 0 →
  Z.max (ceil (Py.sum demands) capacity)
        (default (Z.max 1 (max_buses / 2)) min_buses) = max_buses →
  SolveWithParameters
    (mk_routing_model (length dist_matrix) max_buses depot_index
       (distance_callback dist_matrix) (demand_callback demands)
       (replicate (Z.to_nat max_buses) capacity)) = Some vehicle_routes →
  used_routes demands depot_index vehicle_routes = Some routes →
  Z.of_nat (length routes) = max_buses →
  solve_vrp_with_fleet_limit SolveWithParameters dist_matrix demands
    depot_index vehicle_capacities max_buses min_buses
  = Some ([], None,
          [Attempting max_buses; FoundSolution max_buses; OptimizationFailed]).
Proof.
  intros Hcap Hne Hstart Hsol Hused Hlen.
  unfold solve_vrp_with_fleet_limit.
  rewrite Hcap. simpl. rewrite ceil_div_Some by assumption. simpl.
  rewrite Hstart.
  destruct (Z.ltb_spec max_buses (ceil (Py.sum demands) capacity)); [lia |].
  unfold Py.range2. replace (Z.to_nat (max_buses + 1 - max_buses)) with 1%nat by lia.
  simpl. rewrite Z.add_0_r, Hsol. simpl. rewrite Hused. simpl.
  rewrite Hlen, Z.ltb_irrefl. reflexivity.
Qed.

(** What the search keeps: nothing, or the loaded routes of one attempt,
    fewer than the fleet allowed. *)
Definition kept (max_buses : Z) (st : search_state) : Prop :=
  best_num_buses st ≤ max_buses
  ∧ (best_routes st = []
     ∨ (Z.of_nat (length (best_routes st)) = best_num_buses st
        ∧ best_num_buses st < max_buses
        ∧ ∃ model vehicle_routes,
            SolveWithParameters model = Some vehicle_routes
            ∧ used_routes demands depot_index vehicle_routes
              = Some (best_routes st))).

Lemma kept_print max_buses e st : kept max_buses st → kept max_buses (print e st).
Proof. intros H. exact H. Qed.

Lemma fleet_search_kept capacity theoretical_min_buses max_buses candidates st st' :
  kept max_buses st →
  fleet_search SolveWithParameters dist_matrix demands depot_index
    capacity theoretical_min_buses candidates st = Some st' →
  kept max_buses st'.
Proof.
  revert st. induction candidates as [|num_vehicles rest IH]; intros st Hst Hrun.
  - injection Hrun as <-. exact Hst.
  - simpl in Hrun.
    destruct (SolveWithParameters _) as [vehicle_routes|] eqn:Hsol.
    + destruct (used_routes demands depot_index vehicle_routes)
        as [routes|] eqn:Hused; [| discriminate].
      simpl in Hrun.
      destruct (Z.ltb_spec (Z.of_nat (length routes)) (best_num_buses st))
        as [Hlt|Hge].
      * assert (Hnew : ∀ log, kept max_buses
                         (mk_search_state routes (Z.of_nat (length routes)) log)).
        { intros log. destruct Hst as (Hle & _). split; simpl; [lia |].
          right. split; [reflexivity |]. split; [lia |]. eauto. }
        destruct (Z.leb_spec (Z.of_nat (length routes)) (theoretical_min_buses + 2)).
        -- injection Hrun as <-. apply kept_print, Hnew.
        -- eapply IH; [apply Hnew | exact Hrun].
      * eapply IH; [| exact Hrun]. do 2 apply kept_print. exact Hst.
    + eapply IH; [| exact Hrun]. do 2 apply kept_print. exact Hst.
Qed.

(** X3: whenever the router returns a plan, its routes are the loaded routes of
    one solver attempt, the reported fleet size is their number, and it is
    below the requested maximum (an attempt that loads the whole fleet is
    never the one returned). *)
Theorem returned_plan_below_maximum
    (vehicle_capacities : list Z) (max_buses : Z) (min_buses : option Z)
    (routes : list (list nat)) (m : metrics) (log : list event) :
  solve_vrp_with_fleet_limit SolveWithParameters dist_matrix demands
    depot_index vehicle_capacities max_buses min_buses
  = Some (routes, Some m, log) →
  routes ≠ []
  ∧ buses_used m = Z.of_nat (length routes)
  ∧ buses_used m < max_buses
  ∧ ∃ model vehicle_routes,
      SolveWithParameters model = Some vehicle_routes
      ∧ used_routes demands depot_index vehicle_routes = Some routes.
Proof.
  unfold solve_vrp_with_fleet_limit. intros Hrun.
  destruct (vehicle_capacities !! 0%nat) as [capacity|]; [| discriminate].
  simpl in Hrun.
  destruct (Py.ceil_div (Py.sum demands) capacity) as [tmin|]; [| discriminate].
  simpl in Hrun.
  destruct (fleet_search _ _ _ _ _ _ _ _) as [st|] eqn:Hsearch; [| discriminate].
  simpl in Hrun.
  apply fleet_search_kept with (max_buses := max_buses) in Hsearch.
  2:{ split; simpl; [lia | auto]. }
  destruct Hsearch as (_ & [Hnil|(Hlen & Hlt & Hattempt)]).
  { rewrite Hnil in Hrun. discriminate. }
  destruct (best_routes st) as [|route rest] eqn:Hbest; [discriminate |].
  destruct (mapM (route_load demands depot_index) (route :: rest)); [| discriminate].
  simpl in Hrun. case_guard; [| discriminate]. simpl in Hrun.
  injection Hrun as <- <- _. simpl.
  split; [discriminate |]. split; [symmetry; exact Hlen |].
  split; [exact Hlt | exact Hattempt].
Qed.

End WithSolver.

(** A solver that serves two stops with one bus each, when given two. *)
Definition one_bus_per_stop (m : routing_model) : option (list (list nat)) :=
  if rm_num_vehicles m =? 2 then Some [[0; 1; 0]; [0; 2; 0]]%nat else None.

(** [n] stops one kilometre from each other. *)
Definition one_km_apart (n : nat) : list (list Qc) :=
  (λ i, (λ j, if decide (i = j) then 0%Qc else 1%Qc) <$> seq 0 n) <$> seq 0 n.

Lemma fleet_too_small_fails_witness :
  solve_vrp_with_fleet_limit one_bus_per_stop (one_km_apart 4) [0; 40; 40; 40]
    0 [40] 1 None
  = Some ([], None, [WarnFleetTooSmall 3 1; OptimizationFailed]).
Proof.
  apply (fleet_too_small_fails one_bus_per_stop (one_km_apart 4)
           [0; 40; 40; 40] 0%nat [40] 40 1 None).
  - reflexivity.
  - lia.
  - reflexivity.
Defined.

Lemma returned_plan_below_maximum_witness :
  [[0; 1; 0]; [0; 2; 0]]%nat ≠ []
  ∧ 2 = Z.of_nat (length [[0; 1; 0]; [0; 2; 0]]%nat)
  ∧ 2 < 3
  ∧ ∃ model vehicle_routes,
      one_bus_per_stop model = Some vehicle_routes
      ∧ used_routes [0; 40; 40] 0 vehicle_routes
        = Some [[0; 1; 0]; [0; 2; 0]]%nat.
Proof.
  refine (returned_plan_below_maximum one_bus_per_stop (one_km_apart 3)
            [0; 40; 40] 0%nat
            [40] 3 None [[0; 1; 0]; [0; 2; 0]]%nat
            (mk_metrics 3 2 2 _ 80 [40; 40] _ [] [] "optimal")
            [Attempting 2; FoundSolution 2; NearOptimal] _).
  vm_compute. reflexivity.
Defined.

Lemma full_fleet_solution_dropped_witness :
  solve_vrp_with_fleet_limit one_bus_per_stop (one_km_apart 3) [0; 40; 40]
    0 [40] 2 None
  = Some ([], None, [Attempting 2; FoundSolution 2; OptimizationFailed]).
Proof.
  apply (full_fleet_solution_dropped one_bus_per_stop (one_km_apart 3)
           [0; 40; 40] 0%nat [40] 40 2 None [[0; 1; 0]; [0; 2; 0]]%nat [[0; 1; 0]; [0; 2; 0]]%nat);
    reflexivity || lia.
Defined.

End FleetFacts.

(** ** Arc costs in kilometres *)

Module ArcCostFacts.
Import Routing Optimizer.

Lemma km_value (d : Z) : (Qc_of_Z d / Qc_of_Z 1000)%Qc == d # 1000.
Proof.
  unfold Qcdiv, Qcmult, Qcinv, Qc_of_Z. simpl.
  rewrite !Qred_correct. unfold Qeq. simpl. lia.
Qed.

Lemma int_of_km (d : Z) :
  Py.int_of_float (Qc_of_Z d / Qc_of_Z 1000)%Qc = Z.quot d 1000.
Proof.
  unfold Py.int_of_float.
  pose proof (km_value d) as Hv.
  destruct (decide (0 ≤ Qc_of_Z d / Qc_of_Z 1000)%Qc) as [Hpos|Hneg].
  - rewrite Hv. unfold Qcle in Hpos. rewrite Hv in Hpos.
    unfold Qle in Hpos. simpl in Hpos.
    rewrite Z.quot_div_nonneg by lia. reflexivity.
  - rewrite Hv. unfold Qcle in Hneg. rewrite Hv in Hneg.
    unfold Qle in Hneg. simpl in Hneg.
    unfold Qceiling. simpl.
    rewrite <- (Z.opp_involutive d) at 2.
    rewrite Z.quot_opp_l by lia. rewrite Z.quot_div_nonneg by lia. reflexivity.
Qed.



End ArcCostFacts.

(** ** The distance matrix *)

Module MatrixFacts.
Import Routing.

Local Open Scope Qc_scope.

(** A walk of [n] arcs from [s] to [t] of total length [d]. *)
Inductive walk (G : graph) (s : Z) : nat → Z → Qc → Prop :=
  | walk_nil : walk G s 0 s 0
  | walk_snoc n u v w d :
      walk G s n u d → (u, v, w) ∈ arcs G → walk G s (S n) v (d + w).

Lemma omin_cases a b m :
  omin a b = Some m → a = Some m ∨ b = Some m.
Proof.
  destruct a as [x|], b as [y|]; simpl; intros H; try discriminate; auto.
  destruct (decide (x ≤ y)); injection H as <-; auto.
Qed.

Lemma omin_le_l a b x :
  a = Some x → ∃ m, omin a b = Some m ∧ m ≤ x.
Proof.
  intros ->. destruct b as [y|]; simpl.
  - destruct (decide (x ≤ y)) as [Hxy|Hxy]; eexists; split; try reflexivity.
    apply Qclt_le_weak, Qclt_nge, Hxy.
  - eexists; split; reflexivity.
Qed.

Lemma omin_le_r a b y :
  b = Some y → ∃ m, omin a b = Some m ∧ m ≤ y.
Proof.
  intros ->. destruct a as [x|]; simpl.
  - destruct (decide (x ≤ y)) as [Hxy|Hxy]; eexists; split; try reflexivity.
    exact Hxy.
  - eexists; split; reflexivity.
Qed.

Section Relax.

Variable t : Z.
Variable known : Z → option Qc.

Lemma relax_cases l init m :
  relax t known l init = Some m →
  init = Some m
  ∨ ∃ e d, e ∈ l ∧ e.1.2 = t ∧ known e.1.1 = Some d ∧ m = d + e.2.
Proof.
  induction l as [|e l IH]; simpl; intros H; [auto |].
  destruct (decide (e.1.2 = t)) as [He|He].
  - apply omin_cases in H as [H|H].
    + destruct (IH H) as [?|(e' & d & Hin & ? & ? & ?)]; [auto | right].
      exists e', d. repeat split; try assumption. apply elem_of_cons; auto.
    + right. destruct (known e.1.1) as [d|] eqn:Hd; [| discriminate].
      injection H as <-. exists e, d.
      repeat split; try assumption. apply elem_of_cons; auto.
  - destruct (IH H) as [?|(e' & d & Hin & ? & ? & ?)]; [auto | right].
    exists e', d. repeat split; try assumption. apply elem_of_cons; auto.
Qed.

Lemma relax_le_init l init x :
  init = Some x → ∃ m, relax t known l init = Some m ∧ m ≤ x.
Proof.
  intros Hinit. induction l as [|e l (m & Hm & Hle)]; simpl.
  - exists x. split; [assumption | reflexivity].
  - destruct (decide (e.1.2 = t)); [| eauto].
    destruct (omin_le_l _ ((λ d, d + e.2) <$> known e.1.1) _ Hm)
      as (m' & Hm' & Hle').
    exists m'. split; [assumption | etrans; eassumption].
Qed.

Lemma relax_le_arc l init e d :
  e ∈ l → e.1.2 = t → known e.1.1 = Some d →
  ∃ m, relax t known l init = Some m ∧ m ≤ d + e.2.
Proof.
  intros Hin He Hd. induction l as [|e' l IH]; simpl.
  - apply elem_of_nil in Hin. contradiction.
  - apply elem_of_cons in Hin as [<-|Hin].
    + rewrite decide_True by assumption.
      apply omin_le_r. rewrite Hd. reflexivity.
    + destruct (IH Hin) as (m & Hm & Hle).
      destruct (decide (e'.1.2 = t)); [| eauto].
      destruct (omin_le_l _ ((λ d, d + e'.2) <$> known e'.1.1) _ Hm)
        as (m' & Hm' & Hle').
      exists m'. split; [assumption | etrans; eassumption].
Qed.

End Relax.

(** [walk_dist] is attained by a walk ... *)
Lemma walk_dist_walk G s k t m :
  walk_dist G k s t = Some m → ∃ n, (n ≤ k)%nat ∧ walk G s n t m.
Proof.
  revert t m. induction k as [|k IH]; simpl; intros t m H.
  - destruct (decide (s = t)) as [<-|]; [| discriminate].
    injection H as <-. exists 0%nat. split; [lia | constructor].
  - apply relax_cases in H as [H|(e & d & Hin & He & Hd & ->)].
    + destruct (IH _ _ H) as (n & Hn & Hw). exists n. split; [lia | exact Hw].
    + destruct (IH _ _ Hd) as (n & Hn & Hw). exists (S n). split; [lia |].
      apply walk_snoc with (u := e.1.1); [exact Hw |].
      destruct e as [[u v] w]. simpl in *. subst v. exact Hin.
Qed.

(** ... and is no longer than any walk within the bound. *)
Lemma walk_dist_le G k n s t d :
  walk G s n t d → (n ≤ k)%nat → ∃ m, walk_dist G k s t = Some m ∧ m ≤ d.
Proof.
  revert n t d. induction k as [|k IH]; intros n t d Hw Hn.
  - assert (n = 0%nat) as -> by lia. inversion Hw; subst. simpl.
    rewrite decide_True by reflexivity. exists 0. split; reflexivity.
  - simpl. destruct (decide (n ≤ k)%nat) as [Hle|Hgt].
    + destruct (IH _ _ _ Hw Hle) as (m & Hm & Hmd).
      destruct (relax_le_init t (walk_dist G k s) (arcs G) _ _ Hm)
        as (m' & Hm' & Hle').
      exists m'. split; [assumption | etrans; eassumption].
    + assert (n = S k) as -> by lia.
      inversion Hw as [|n' u v w d' Hw' Harc]; subst.
      destruct (IH _ _ _ Hw' (le_n _)) as (m & Hm & Hmd).
      destruct (relax_le_arc t (walk_dist G k s) (arcs G)
                  (walk_dist G k s t) (u, t, w) m Harc eq_refl Hm)
        as (m' & Hm' & Hle').
      exists m'. split; [assumption |]. simpl in Hle'.
      etrans; [exact Hle' |]. apply Qcplus_le_mono_r. exact Hmd.
Qed.

Lemma arcs_nonneg G e : nonneg_lengths G → e ∈ arcs G → 0 ≤ e.2.
Proof.
  unfold nonneg_lengths, arcs. rewrite Forall_forall. intros Hnn Hin.
  destruct (directed G); [auto |].
  apply elem_of_app in Hin as [Hin|Hin]; [auto |].
  apply list_elem_of_fmap in Hin as (e' & -> & Hin). simpl. auto.
Qed.

Lemma walk_nonneg G n s t d : nonneg_lengths G → walk G s n t d → 0 ≤ d.
Proof.
  intros Hnn. induction 1 as [|n u v w d _ IH Harc]; [reflexivity |].
  apply Qcplus_nonneg_nonneg; [exact IH |].
  exact (arcs_nonneg G (u, v, w) Hnn Harc).
Qed.

Lemma walk_dist_refl G k s : nonneg_lengths G → walk_dist G k s s = Some 0.
Proof.
  intros Hnn.
  destruct (walk_dist_le G k 0 s s 0 (walk_nil G s)) as (m & Hm & Hle); [lia |].
  destruct (walk_dist_walk G s k s m Hm) as (n & _ & Hw).
  pose proof (walk_nonneg G n s s m Hnn Hw) as Hge.
  rewrite Hm. f_equal. apply (anti_symm Qcle); assumption.
Qed.

(** *** The bound on the number of arcs loses nothing

    A walk with the nodes it leaves, in order.  On non-negative lengths a
    cycle can be cut out of a walk without making it longer, so a shortest
    walk leaves every node at most once and has at most
    [length (graph_nodes G)] arcs: the dict of the modelled oracle holds the
    shortest path lengths over walks of any number of arcs. *)
Inductive trail (G : graph) (s : Z) : list Z → Z → Qc → Prop :=
  | trail_nil : trail G s [] s 0
  | trail_snoc vs u v w d :
      trail G s vs u d → (u, v, w) ∈ arcs G → trail G s (vs ++ [u]) v (d + w).

Lemma walk_trail G s n t d :
  walk G s n t d → ∃ vs, length vs = n ∧ trail G s vs t d.
Proof.
  induction 1 as [|n u v w d _ (vs & Hlen & Htr) Harc].
  - exists []. split; [reflexivity | constructor].
  - exists (vs ++ [u]). split; [rewrite length_app; simpl; lia |].
    econstructor; eassumption.
Qed.

Lemma trail_walk G s vs t d : trail G s vs t d → walk G s (length vs) t d.
Proof.
  induction 1 as [|vs u v w d _ IH Harc]; [constructor |].
  rewrite length_app. simpl. rewrite Nat.add_1_r.
  econstructor; eassumption.
Qed.

Lemma arc_nodes G u v w :
  (u, v, w) ∈ arcs G → u ∈ graph_nodes G ∧ v ∈ graph_nodes G.
Proof.
  intros Harc. unfold arcs in Harc.
  assert (Hedge : (u, v, w) ∈ edges G ∨ (v, u, w) ∈ edges G).
  { destruct (directed G); [auto |].
    apply elem_of_app in Harc as [?|Hin]; [auto | right].
    apply list_elem_of_fmap in Hin as ([[a b] c] & He & Hin).
    unfold flip_edge in He. simpl in He. injection He as -> -> ->. exact Hin. }
  unfold graph_nodes. rewrite !elem_of_app, !list_elem_of_In, !in_flat_map.
  destruct Hedge as [Hin|Hin]; apply list_elem_of_In in Hin;
    split; right; eexists; (split; [exact Hin |]); simpl; auto.
Qed.

Lemma trail_nodes G s vs t d x :
  trail G s vs t d → x ∈ vs → x ∈ graph_nodes G.
Proof.
  induction 1 as [|vs u v w d _ IH Harc]; intros Hx.
  - apply elem_of_nil in Hx. contradiction.
  - apply elem_of_app in Hx as [Hx|Hx]; [auto |].
    apply list_elem_of_singleton in Hx as ->.
    exact (proj1 (arc_nodes G u v w Harc)).
Qed.

Lemma trail_app G s x t l1 l2 d1 d2 :
  trail G s l1 x d1 → trail G x l2 t d2 → trail G s (l1 ++ l2) t (d1 + d2).
Proof.
  intros H1. induction 1 as [|vs u v w d _ IH Harc].
  - rewrite app_nil_r, Qcplus_0_r. exact H1.
  - rewrite app_assoc, Qcplus_assoc. econstructor; eassumption.
Qed.

Lemma trail_split G s vs t d :
  trail G s vs t d →
  ∀ l1 x l2, vs = l1 ++ x :: l2 →
    ∃ d1 d2, trail G s l1 x d1 ∧ trail G x (x :: l2) t d2 ∧ d = d1 + d2.
Proof.
  induction 1 as [|vs u v w d Htr IH Harc]; intros l1 x l2 Heq.
  - destruct l1; discriminate.
  - destruct l2 as [|y l2 _] using rev_ind.
    + apply app_inj_tail in Heq as (-> & ->).
      exists d, w. split; [exact Htr |]. split; [| reflexivity].
      rewrite <- (Qcplus_0_l w).
      apply (trail_snoc G x [] x v w 0); [constructor | exact Harc].
    + rewrite app_comm_cons, app_assoc in Heq.
      apply app_inj_tail in Heq as (-> & ->).
      destruct (IH l1 x l2 eq_refl) as (d1 & d2 & H1 & H2 & ->).
      exists d1, (d2 + w). split; [exact H1 |]. split.
      * rewrite app_comm_cons. econstructor; eassumption.
      * rewrite Qcplus_assoc. reflexivity.
Qed.

Lemma repeated_element (l : list Z) :
  ¬ NoDup l → ∃ x l1 l2 l3, l = l1 ++ x :: l2 ++ x :: l3.
Proof.
  induction l as [|a l IH]; intros Hdup.
  - exfalso. apply Hdup. constructor.
  - destruct (decide (a ∈ l)) as [Hin|Hout].
    + apply list_elem_of_split in Hin as (l2 & l3 & ->).
      exists a, [], l2, l3. reflexivity.
    + destruct IH as (x & l1 & l2 & l3 & ->).
      { intros Hnd. apply Hdup. constructor; assumption. }
      exists x, (a :: l1), l2, l3. reflexivity.
Qed.

Lemma trail_cut G s vs t d :
  nonneg_lengths G → trail G s vs t d →
  ∃ vs' d', trail G s vs' t d' ∧ d' ≤ d ∧ NoDup vs'.
Proof.
  intros Hnn. remember (length vs) as n eqn:Hn. revert vs t d Hn.
  induction n as [n IH] using lt_wf_ind. intros vs t d Hn Htr.
  destruct (decide (NoDup vs)) as [Hnd|Hdup].
  - exists vs, d. split; [exact Htr |]. split; [reflexivity | exact Hnd].
  - destruct (repeated_element vs Hdup) as (x & l1 & l2 & l3 & Hvs).
    destruct (trail_split G s vs t d Htr l1 x (l2 ++ x :: l3) Hvs)
      as (d1 & d2 & H1 & H2 & ->).
    destruct (trail_split G x _ t d2 H2 (x :: l2) x l3 eq_refl)
      as (d21 & d22 & H21 & H22 & ->).
    pose proof (trail_app G s x t _ _ _ _ H1 H22) as Hshort.
    assert (Hless : (length (l1 ++ x :: l3) < n)%nat).
    { subst n vs. rewrite !length_app. simpl. rewrite length_app. simpl. lia. }
    destruct (IH _ Hless _ t _ eq_refl Hshort) as (vs' & d' & Htr' & Hle & Hnd).
    exists vs', d'. split; [exact Htr' |]. split; [| exact Hnd].
    etrans; [exact Hle |]. apply Qcplus_le_mono_l.
    rewrite <- (Qcplus_0_l d22) at 1. apply Qcplus_le_mono_r.
    eapply walk_nonneg; [exact Hnn | apply trail_walk; exact H21].
Qed.

Lemma walk_dist_least G s n t d :
  nonneg_lengths G → walk G s n t d →
  ∃ m, walk_dist G (length (graph_nodes G)) s t = Some m ∧ m ≤ d.
Proof.
  intros Hnn Hw. destruct (walk_trail G s n t d Hw) as (vs & _ & Htr).
  destruct (trail_cut G s vs t d Hnn Htr) as (vs' & d' & Htr' & Hle & Hnd).
  destruct (walk_dist_le G (length (graph_nodes G)) (length vs') s t d')
    as (m & Hm & Hle').
  - apply trail_walk. exact Htr'.
  - apply submseteq_length, NoDup_submseteq; [exact Hnd |].
    intros x Hx. eapply trail_nodes; eassumption.
  - exists m. split; [exact Hm | etrans; eassumption].
Qed.

(** The modelled oracle meets the contract of the library function: an
    entry of the dict is the least length of a walk from the source, and a
    node has no entry exactly when no walk reaches it. *)
Lemma dijkstra_contract G source distances :
  nonneg_lengths G →
  single_source_dijkstra_path_length G source = Some distances →
  ∀ t,
    (∀ m, distances t = Some m ↔
          (∃ n, walk G source n t m) ∧ ∀ n d, walk G source n t d → m ≤ d)
    ∧ (distances t = None ↔ ∀ n d, ¬ walk G source n t d).
Proof.
  intros Hnn Hrun t. unfold single_source_dijkstra_path_length in Hrun.
  destruct (has_node G source); [| discriminate]. injection Hrun as <-.
  split; [intros m; split |split].
  - intros Hm. split.
    + destruct (walk_dist_walk G source _ t m Hm) as (n & _ & Hw). eauto.
    + intros n d Hw. destruct (walk_dist_least G source n t d Hnn Hw)
        as (m' & Hm' & Hle). congruence.
  - intros ((n & Hw) & Hmin).
    destruct (walk_dist_least G source n t m Hnn Hw) as (m' & Hm' & Hle).
    destruct (walk_dist_walk G source _ t m' Hm') as (n' & _ & Hw').
    rewrite Hm'. f_equal. apply (anti_symm Qcle); [exact Hle | eauto].
  - intros Hnone n d Hw.
    destruct (walk_dist_least G source n t d Hnn Hw) as (m & Hm & _). congruence.
  - intros Hno. destruct (walk_dist G _ source t) as [m|] eqn:Hm; [| reflexivity].
    destruct (walk_dist_walk G source _ t m Hm) as (n & _ & Hw).
    destruct (Hno n m Hw).
Qed.

(** Entry [(i, j)] of the matrix, for the source and target nodes there. *)
Definition entry (G : graph) (s t : Z) : Z :=
  Py.int_of_float
    (nan_to_num_entry
       match single_source_dijkstra_path_length G s with
       | Some distances =>
           match distances t with
           | Some d => Finite d
           | None => Finite 0
           end
       | None => Finite 0
       end).

Lemma for_enumerate_lookup {B C} (body : nat → B → list C → list C)
    (f : B → C → C) (i : nat) (xs : list B) (acc : list C) (p : nat) :
  (∀ i x acc p,
     body i x acc !! p = if decide (i = p) then f x <$> acc !! p else acc !! p) →
  Py.for_enumerate body i xs acc !! p
  = match guard (i ≤ p)%nat;; xs !! (p - i)%nat with
    | Some x => f x <$> acc !! p
    | None => acc !! p
    end.
Proof.
  intros Hbody. revert i acc. induction xs as [|x xs IH]; intros i acc; simpl.
  - case_guard; reflexivity.
  - rewrite IH. destruct (decide (i = p)) as [->|Hne].
    + rewrite option_guard_False by lia. rewrite option_guard_True by lia.
      rewrite Nat.sub_diag. simpl. rewrite Hbody, decide_True by reflexivity.
      reflexivity.
    + destruct (decide (i ≤ p)%nat) as [Hle|Hgt].
      * rewrite !option_guard_True by lia.
        replace (p - i)%nat with (S (p - S i)) by lia. simpl.
        rewrite Hbody, decide_False by assumption. reflexivity.
      * rewrite !option_guard_False by lia.
        rewrite Hbody, decide_False by assumption. reflexivity.
Qed.

Lemma fill_diagonal_zeros n : fill_diagonal (np_zeros n) = np_zeros n.
Proof.
  unfold fill_diagonal, np_zeros. apply list_eq. intros i.
  rewrite list_lookup_imap.
  destruct (replicate n (replicate n (Finite 0)) !! i) as [row|] eqn:Hrow;
    [| reflexivity].
  apply lookup_replicate in Hrow as (-> & _). simpl.
  rewrite insert_replicate. reflexivity.
Qed.

(** What the inner loop leaves at position [j] of a row. *)
Definition written (distances : Z → option Qc) (target_node : Z) (v : npfloat)
  : npfloat :=
  match distances target_node with
  | Some d => Finite d
  | None => v
  end.

Lemma fill_row_lookup distances stop_nodes row (j : nat) :
  fill_row distances stop_nodes row !! j
  = match stop_nodes !! j with
    | Some target_node => written distances target_node <$> row !! j
    | None => row !! j
    end.
Proof.
  unfold fill_row.
  rewrite (for_enumerate_lookup _ (written distances)).
  - rewrite option_guard_True by lia. rewrite Nat.sub_0_r. reflexivity.
  - clear. intros i x acc p. unfold written.
    destruct (distances x) as [d|].
    + rewrite list_lookup_insert.
      destruct (decide (i = p)) as [->|Hne].
      * destruct (acc !! p) as [v|] eqn:Hv.
        -- apply lookup_lt_Some in Hv. rewrite decide_True by auto. reflexivity.
        -- apply lookup_ge_None in Hv. rewrite decide_False by lia. reflexivity.
      * rewrite decide_False by tauto. reflexivity.
    + destruct (decide (i = p)); [| reflexivity].
      destruct (acc !! p); reflexivity.
Qed.

Lemma fill_rows_lookup G stop_nodes dist_matrix (i : nat) :
  fill_rows G stop_nodes dist_matrix !! i
  = match stop_nodes !! i with
    | Some source_node =>
        match single_source_dijkstra_path_length G source_node with
        | Some distances => fill_row distances stop_nodes <$> dist_matrix !! i
        | None => dist_matrix !! i
        end
    | None => dist_matrix !! i
    end.
Proof.
  unfold fill_rows.
  rewrite (for_enumerate_lookup _
             (λ source_node row,
                match single_source_dijkstra_path_length G source_node with
                | Some distances => fill_row distances stop_nodes row
                | None => row
                end)).
  - rewrite option_guard_True by lia. rewrite Nat.sub_0_r.
    destruct (stop_nodes !! i) as [s|]; [| reflexivity].
    destruct (single_source_dijkstra_path_length G s); [reflexivity |].
    destruct (dist_matrix !! i); reflexivity.
  - clear. intros i x acc p.
    destruct (single_source_dijkstra_path_length G x) as [distances|].
    + rewrite list_lookup_alter. destruct (decide (i = p)) as [->|]; reflexivity.
    + destruct (decide (i = p)); [| reflexivity].
      destruct (acc !! p); reflexivity.
Qed.

Lemma matrix_lookup G stop_nodes (i j : nat) :
  build_distance_matrix G stop_nodes !! i ≫= (.!! j)
  = s ← stop_nodes !! i; t ← stop_nodes !! j; Some (entry G s t).
Proof.
  unfold build_distance_matrix, astype_int, nan_to_num.
  rewrite fill_diagonal_zeros.
  rewrite !list_lookup_fmap, fill_rows_lookup. unfold np_zeros.
  destruct (stop_nodes !! i) as [s|] eqn:Hs; cbn [mbind option_bind].
  2:{ apply lookup_ge_None in Hs.
      rewrite (proj1 (lookup_replicate_None _ _ _)) by exact Hs. reflexivity. }
  apply lookup_lt_Some in Hs as Hi.
  rewrite lookup_replicate_2 by exact Hi. unfold entry.
  destruct (stop_nodes !! j) as [t|] eqn:Ht; cbn [mbind option_bind].
  - apply lookup_lt_Some in Ht as Hj.
    destruct (single_source_dijkstra_path_length G s) as [distances|];
      cbn [fmap option_fmap option_map mbind option_bind];
      rewrite !list_lookup_fmap.
    + rewrite fill_row_lookup, Ht.
      rewrite lookup_replicate_2 by exact Hj.
      unfold written. cbn [fmap option_fmap option_map].
      destruct (distances t); reflexivity.
    + rewrite lookup_replicate_2 by exact Hj. reflexivity.
  - pose proof (proj1 (lookup_ge_None _ _) Ht) as Hj.
    destruct (single_source_dijkstra_path_length G s) as [distances|];
      cbn [fmap option_fmap option_map mbind option_bind];
      rewrite !list_lookup_fmap.
    + rewrite fill_row_lookup, Ht.
      rewrite (proj1 (lookup_replicate_None _ _ _)) by exact Hj. reflexivity.
    + rewrite (proj1 (lookup_replicate_None _ _ _)) by exact Hj. reflexivity.
Qed.

Lemma zero_entry : Py.int_of_float (nan_to_num_entry (Finite 0)) = 0%Z.
Proof. vm_compute. reflexivity. Qed.

Lemma entry_unreachable G s t :
  (∀ distances, single_source_dijkstra_path_length G s = Some distances →
                distances t = None) →
  entry G s t = 0%Z.
Proof.
  intros Hno. unfold entry.
  destruct (single_source_dijkstra_path_length G s) as [distances|];
    [rewrite (Hno distances eq_refl) |]; exact zero_entry.
Qed.

Lemma entry_diag G s : nonneg_lengths G → entry G s s = 0%Z.
Proof.
  intros Hnn. unfold entry, single_source_dijkstra_path_length.
  destruct (has_node G s); [| exact zero_entry].
  rewrite walk_dist_refl by assumption. exact zero_entry.
Qed.

(** A road network of three junctions: 1 and 2 joined by a street of 500
    metres, 3 cut off from both. *)
Definition cut_off_graph : graph :=
  mk_graph false [1; 2; 3]%Z [(1, 2, Qc_of_Z 500)]%Z.

(** C3: an unreachable pair does not hold the sentinel.  The matrix starts
    as [np.zeros], an entry is written only when the target is in the
    source's distance dict, and [nan_to_num] rewrites only nan and
    infinite entries, of which there are none: whenever the target has no
    entry in the dict (no path from the source), the matrix holds 0 there,
    not 1,000,000. *)
Theorem unreachable_pair_holds_zero
    (G : graph) (stop_nodes : list Z) (i j : nat) (s t : Z) :
  stop_nodes !! i = Some s →
  stop_nodes !! j = Some t →
  (∀ distances, single_source_dijkstra_path_length G s = Some distances →
                distances t = None) →
  build_distance_matrix G stop_nodes !! i ≫= (.!! j) = Some 0%Z.
Proof.
  intros Hi Hj Hno. rewrite matrix_lookup, Hi, Hj. simpl.
  rewrite entry_unreachable by assumption. reflexivity.
Qed.

Lemma unreachable_pair_holds_zero_witness :
  build_distance_matrix cut_off_graph [1; 2; 3]%Z !! 0%nat ≫= (.!! 2%nat)
  = Some 0%Z.
Proof.
  apply (unreachable_pair_holds_zero cut_off_graph [1; 2; 3]%Z 0 2 1%Z 3%Z).
  - reflexivity.
  - reflexivity.
  - intros distances Hd. unfold single_source_dijkstra_path_length in Hd.
    assert (Hnode : has_node cut_off_graph 1 = true) by (vm_compute; reflexivity).
    rewrite Hnode in Hd. injection Hd as <-. vm_compute. reflexivity.
Defined.

End MatrixFacts.

(** ** The distance matrix in binary64: diagonal and transpose *)

Module Matrix64Facts.
Import Routing64 PrimFloat FloatOps SpecFloat.

Lemma zeros_diagonal n : fill_diagonal (np_zeros n) = np_zeros n.
Proof.
  unfold fill_diagonal, np_zeros. apply list_eq. intros i.
  rewrite list_lookup_imap.
  destruct (replicate n (replicate n 0%float) !! i) as [row|] eqn:Hrow;
    [| reflexivity].
  apply lookup_replicate in Hrow as (-> & _). simpl.
  rewrite insert_replicate. reflexivity.
Qed.

(** What the inner loop leaves at position [j] of a row. *)
Definition overwritten (distances : list (Z * float)) (target_node : Z) (v : float)
  : float :=
  default v (item distances target_node).

Lemma row_lookup distances stop_nodes row (j : nat) :
  fill_row distances stop_nodes row !! j
  = match stop_nodes !! j with
    | Some target_node => overwritten distances target_node <$> row !! j
    | None => row !! j
    end.
Proof.
  unfold fill_row.
  rewrite (MatrixFacts.for_enumerate_lookup _ (overwritten distances)).
  - rewrite option_guard_True by lia. rewrite Nat.sub_0_r. reflexivity.
  - clear. intros i x acc p. unfold overwritten.
    destruct (item distances x) as [d|]; cbn [default].
    + rewrite list_lookup_insert.
      destruct (decide (i = p)) as [->|Hne].
      * destruct (acc !! p) as [v|] eqn:Hv.
        -- apply lookup_lt_Some in Hv. rewrite decide_True by auto. reflexivity.
        -- apply lookup_ge_None in Hv. rewrite decide_False by lia. reflexivity.
      * rewrite decide_False by tauto. reflexivity.
    + destruct (decide (i = p)); [| reflexivity].
      destruct (acc !! p); reflexivity.
Qed.

Section Matrix.

Variable dijkstra : graph → Z → option (list (Z * float)).

Lemma rows_lookup G stop_nodes dist_matrix (i : nat) :
  fill_rows dijkstra G stop_nodes dist_matrix !! i
  = match stop_nodes !! i with
    | Some source_node =>
        match dijkstra G source_node with
        | Some distances => fill_row distances stop_nodes <$> dist_matrix !! i
        | None => dist_matrix !! i
        end
    | None => dist_matrix !! i
    end.
Proof.
  unfold fill_rows.
  rewrite (MatrixFacts.for_enumerate_lookup _
             (λ source_node row,
                match dijkstra G source_node with
                | Some distances => fill_row distances stop_nodes row
                | None => row
                end)).
  - rewrite option_guard_True by lia. rewrite Nat.sub_0_r.
    destruct (stop_nodes !! i) as [s|]; [| reflexivity].
    destruct (dijkstra G s); [reflexivity |].
    destruct (dist_matrix !! i); reflexivity.
  - clear. intros i x acc p.
    destruct (dijkstra G x) as [distances|].
    + rewrite list_lookup_alter. destruct (decide (i = p)) as [->|]; reflexivity.
    + destruct (decide (i = p)); [| reflexivity].
      destruct (acc !! p); reflexivity.
Qed.

(** The length Dijkstra reports from [s] to [t], if any. *)
Definition reported (G : graph) (s t : Z) : option float :=
  distances ← dijkstra G s; item distances t.

(** The entry of the matrix for a stop at [s] and a stop at [t]. *)
Definition entry (G : graph) (s t : Z) : Z :=
  astype_int_entry (nan_to_num_entry (default 0%float (reported G s t))).

Lemma matrix_entry G stop_nodes (i j : nat) :
  build_distance_matrix dijkstra G stop_nodes !! i ≫= (.!! j)
  = s ← stop_nodes !! i; t ← stop_nodes !! j; Some (entry G s t).
Proof.
  unfold build_distance_matrix, astype_int, nan_to_num.
  rewrite zeros_diagonal.
  rewrite !list_lookup_fmap, rows_lookup. unfold np_zeros.
  destruct (stop_nodes !! i) as [s|] eqn:Hs; cbn [mbind option_bind].
  2:{ apply lookup_ge_None in Hs.
      rewrite (proj1 (lookup_replicate_None _ _ _)) by exact Hs. reflexivity. }
  apply lookup_lt_Some in Hs as Hi.
  rewrite lookup_replicate_2 by exact Hi. unfold entry, reported.
  destruct (stop_nodes !! j) as [t|] eqn:Ht; cbn [mbind option_bind].
  - apply lookup_lt_Some in Ht as Hj.
    destruct (dijkstra G s) as [distances|];
      cbn [fmap option_fmap option_map mbind option_bind];
      rewrite !list_lookup_fmap.
    + rewrite row_lookup, Ht.
      rewrite lookup_replicate_2 by exact Hj.
      unfold overwritten. cbn [fmap option_fmap option_map].
      reflexivity.
    + rewrite lookup_replicate_2 by exact Hj. reflexivity.
  - pose proof (proj1 (lookup_ge_None _ _) Ht) as Hj.
    destruct (dijkstra G s) as [distances|];
      cbn [fmap option_fmap option_map mbind option_bind];
      rewrite !list_lookup_fmap.
    + rewrite row_lookup, Ht.
      rewrite (proj1 (lookup_replicate_None _ _ _)) by exact Hj. reflexivity.
    + rewrite (proj1 (lookup_replicate_None _ _ _)) by exact Hj. reflexivity.
Qed.

Lemma zero_entry64 : astype_int_entry (nan_to_num_entry 0%float) = 0.
Proof. vm_compute. reflexivity. Qed.


(** X15 (routing.py, [build_distance_matrix]): between two stops the
    matrix holds the length Dijkstra reports from the node of the one to
    the node of the other, a binary64 sum in the order of the path, with
    nan and the infinities replaced by 1e6 and the fraction cut off. *)
Theorem distance_matrix_holds_reported_length
    (G : graph) (stop_nodes : list Z) (i j : nat) (s t : Z)
    (distances : list (Z * float)) (d : float) :
  stop_nodes !! i = Some s →
  stop_nodes !! j = Some t →
  dijkstra G s = Some distances →
  item distances t = Some d →
  build_distance_matrix dijkstra G stop_nodes !! i ≫= (.!! j)
  = Some (astype_int_entry (nan_to_num_entry d)).
Proof.
  intros Hi Hj Hrun Hd. rewrite matrix_entry, Hi, Hj.
  cbn [mbind option_bind]. unfold entry, reported.
  rewrite Hrun. cbn [mbind option_bind]. rewrite Hd. reflexivity.
Qed.

End Matrix.

(** *** A run on a road whose length rounds two ways

    Dijkstra as networkx runs it from one source: the fringe is a heap of
    (distance, counter, node), here a list kept in that order; a node is
    settled when it is popped the first time; the distance to a
    neighbour is the settled distance plus the length of the edge, in
    binary64. *)

Definition graph_nodes (G : graph) : list Z :=
  nodes G ++ flat_map (λ e, [e.1.1; e.1.2]) (edges G).

(** The adjacency of a node, one entry for an edge: an undirected edge
    is listed at both its ends.  Parallel edges of a multigraph are
    entries of their own; the shortest decides either way. *)
Definition successors (G : graph) (v : Z) : list (Z * float) :=
  flat_map (λ e : Z * Z * float,
              (if decide (e.1.1 = v) then [(e.1.2, e.2)] else [])
              ++ (if negb (directed G) && bool_decide (e.1.2 = v ∧ e.1.1 ≠ v)
                  then [(e.1.1, e.2)] else []))
           (edges G).

(** [heappush]: behind every entry that is not farther. *)
Fixpoint push (d : float) (u : Z) (fringe : list (float * Z)) : list (float * Z) :=
  match fringe with
  | [] => [(d, u)]
  | (d', u') :: rest =>
      if ltb d d' then (d, u) :: fringe else (d', u') :: push d u rest
  end.

(** [seen[u] = d] *)
Fixpoint set_item (seen : list (Z * float)) (u : Z) (d : float) : list (Z * float) :=
  match seen with
  | [] => [(u, d)]
  | (key, d') :: rest =>
      if decide (key = u) then (key, d) :: rest else (key, d') :: set_item rest u d
  end.

(** The loop over the neighbours of the node just settled at [dv];
    [None] is the [ValueError] on contradictory paths. *)
Fixpoint relax (dv : float) (neighbours : list (Z * float))
    (dist seen : list (Z * float)) (fringe : list (float * Z))
  : option (list (Z * float) * list (float * Z)) :=
  match neighbours with
  | [] => Some (seen, fringe)
  | (u, cost) :: rest =>
      let vu_dist := (dv + cost)%float in
      match item dist u with
      | Some u_dist =>
          if ltb vu_dist u_dist then None else relax dv rest dist seen fringe
      | None =>
          if match item seen u with
             | Some seen_u => ltb vu_dist seen_u
             | None => true
             end
          then relax dv rest dist (set_item seen u vu_dist) (push vu_dist u fringe)
          else relax dv rest dist seen fringe
      end
  end.

(** [while fringe], one pop per unit of fuel. *)
Fixpoint settle (fuel : nat) (G : graph) (fringe : list (float * Z))
    (dist seen : list (Z * float)) : option (list (Z * float)) :=
  match fringe with
  | [] => Some dist
  | (d, v) :: fringe =>
      match fuel with
      | O => None
      | S fuel =>
          match item dist v with
          | Some _ => settle fuel G fringe dist seen
          | None =>
              let dist := dist ++ [(v, d)] in
              '(seen, fringe) ← relax d (successors G v) dist seen fringe;
              settle fuel G fringe dist seen
          end
      end
  end.

(** Every push but the first belongs to an adjacency entry, so there are
    no more pops than this. *)
Definition pops (G : graph) : nat :=
  S (length (flat_map (successors G) (graph_nodes G))).

Definition dijkstra_path_length (G : graph) (source : Z)
  : option (list (Z * float)) :=
  if bool_decide (source ∈ graph_nodes G)
  then settle (pops G) G [(0%float, source)] [] [(source, 0%float)]
  else None.

Lemma item_app distances rest key d :
  item distances key = Some d → item (distances ++ rest) key = Some d.
Proof.
  induction distances as [|[k d'] distances IH]; [discriminate |].
  cbn [item app]. destruct (decide (k = key)); [auto | exact IH].
Qed.

(** A settled distance is final. *)
Lemma settle_keeps fuel G fringe dist seen distances key d :
  item dist key = Some d →
  settle fuel G fringe dist seen = Some distances →
  item distances key = Some d.
Proof.
  revert fuel dist seen. 
  assert (Hgen : ∀ fuel fringe dist seen,
             item dist key = Some d →
             settle fuel G fringe dist seen = Some distances →
             item distances key = Some d).
  { clear. induction fuel as [|fuel IH]; intros fringe dist seen Hkey Hrun.
    - destruct fringe as [|[d0 v] fringe]; [| discriminate].
      injection Hrun as <-. exact Hkey.
    - destruct fringe as [|[d0 v] fringe].
      + injection Hrun as <-. exact Hkey.
      + cbn [settle] in Hrun. destruct (item dist v).
        * exact (IH _ _ _ Hkey Hrun).
        * destruct (relax _ _ _ _ _) as [[seen' fringe']|]; [| discriminate].
          cbn [mbind option_bind] in Hrun.
          exact (IH _ _ _ (item_app _ _ _ _ Hkey) Hrun). }
  intros fuel dist seen. apply Hgen.
Qed.

(** The source is settled first, at distance 0. *)
Lemma dijkstra_source G source distances :
  dijkstra_path_length G source = Some distances →
  item distances source = Some 0%float.
Proof.
  unfold dijkstra_path_length, pops. case_bool_decide; [| discriminate].
  cbn [settle item]. intros Hrun.
  destruct (relax _ _ _ _ _) as [[seen fringe]|]; [| discriminate].
  cbn [mbind option_bind] in Hrun.
  apply (settle_keeps _ _ _ _ _ _ source 0%float) in Hrun; [exact Hrun |].
  cbn [app item]. rewrite decide_True by reflexivity. reflexivity.
Qed.

#[local] Set Warnings "-inexact-float".

(** Four junctions in a row, 251.554 m, 319.157 m and 288.289 m apart,
    every street two-way. *)
Definition rounding_road : graph :=
  mk_graph false []
    [(1, 2, 251.554%float); (2, 3, 319.157%float); (3, 4, 288.289%float)].

(** Two junctions 500.7 m apart. *)
Definition short_road : graph :=
  mk_graph false [] [(1, 2, 500.7%float)].

#[local] Set Warnings "+inexact-float".



#[local] Set Warnings "-inexact-float".

Lemma distance_matrix_holds_reported_length_witness :
  build_distance_matrix dijkstra_path_length rounding_road [1; 4]
    !! 1%nat ≫= (.!! 0%nat)
  = Some (astype_int_entry
            (nan_to_num_entry (288.289 + 319.157 + 251.554)%float)).
Proof.
  eapply (distance_matrix_holds_reported_length dijkstra_path_length
            rounding_road [1; 4] 1 0 4 1).
  - reflexivity.
  - reflexivity.
  - vm_compute. reflexivity.
  - vm_compute. reflexivity.
Defined.

#[local] Set Warnings "+inexact-float".

End Matrix64Facts.

(** ** The cluster repair loop *)

Module RepairFacts.
Import Clustering.

Local Open Scope Qc_scope.

Lemma max_float_le (b x : Qc) (l : list Qc) :
  x ≤ b → Forall (λ y, y ≤ b) l → Py.max_float x l ≤ b.
Proof.
  intros Hx Hl. revert x Hx. unfold Py.max_float.
  induction Hl as [|y l Hy _ IH]; intros x Hx; simpl; [exact Hx |].
  destruct (decide (x < y)); apply IH; assumption.
Qed.

Lemma max_float_ge_init (x : Qc) (l : list Qc) : x ≤ Py.max_float x l.
Proof.
  revert x. unfold Py.max_float. induction l as [|y l IH]; intros x; simpl;
    [reflexivity |].
  destruct (decide (x < y)) as [Hlt|_]; [| apply IH].
  etrans; [apply Qclt_le_weak, Hlt | apply IH].
Qed.

Lemma max_float_ge (x y : Qc) (l : list Qc) :
  y ∈ x :: l → y ≤ Py.max_float x l.
Proof.
  revert x. induction l as [|z l IH]; intros x Hin.
  - apply list_elem_of_singleton in Hin as ->. reflexivity.
  - unfold Py.max_float. simpl. fold (Py.max_float (if decide (x < z) then z else x) l).
    apply elem_of_cons in Hin as [->|Hin].
    + etrans; [| apply max_float_ge_init].
      destruct (decide (x < z)) as [Hlt|_]; [apply Qclt_le_weak, Hlt | reflexivity].
    + apply elem_of_cons in Hin as [->|Hin].
      * etrans; [| apply max_float_ge_init].
        destruct (decide (x < z)) as [_|Hge]; [reflexivity |].
        apply Qcle_ngt, Hge.
      * apply IH. apply elem_of_cons. right. exact Hin.
Qed.

Lemma singleton_of_NoDup {A} (l : list A) (a : A) :
  NoDup l → a ∈ l → (∀ x, x ∈ l → x = a) → l = [a].
Proof.
  intros Hnd Hin Hall. destruct l as [|x l]; [apply elem_of_nil in Hin; contradiction |].
  assert (x = a) as -> by (apply Hall, elem_of_cons; auto).
  destruct l as [|y l]; [reflexivity |].
  assert (y = a) as ->.
  { apply Hall. apply elem_of_cons. right. apply elem_of_cons. left. reflexivity. }
  apply NoDup_cons in Hnd as (Hnot & _). exfalso. apply Hnot, elem_of_cons. auto.
Qed.

Lemma group_keys_NoDup df : NoDup (group_keys df).
Proof.
  unfold group_keys. rewrite merge_sort_Permutation. apply NoDup_remove_dups.
Qed.

Lemma elem_of_group_keys df id :
  id ∈ group_keys df ↔ ∃ r, r ∈ df ∧ assigned_stop_id r = id.
Proof.
  unfold group_keys.
  rewrite merge_sort_Permutation, elem_of_remove_dups, list_elem_of_fmap.
  split; intros (r & ? & ?); exists r; auto.
Qed.

Section Repair.

Variable haversine_km : Qc * Qc → Qc * Qc → Qc.
Variable KMeans_labels : Z → list (Qc * Qc) → list Z.

(** The distance of a rider to the centroid of the rider's own cluster. *)
Definition own_distance (df : list student_row) (r : student_row) : Qc :=
  haversine_km (coords r) (centroid (group_of df (assigned_stop_id r))).

(** The table with every [distance_to_stop_km] set to that distance. *)
Definition recomputed (df : list student_row) : list student_row :=
  (λ r, set_distance (own_distance df r) r) <$> df.

Lemma own_center df r :
  r ∈ df →
  ∃ reindexed,
    cluster_map df !! assigned_stop_id r = Some reindexed
    ∧ stop_centers df !! reindexed
      = Some (centroid (group_of df (assigned_stop_id r))).
Proof.
  intros Hr.
  assert (Hkey : assigned_stop_id r ∈ group_keys df).
  { apply elem_of_group_keys. exists r. auto. }
  apply list_elem_of_lookup in Hkey as (i & Hi).
  exists i. split.
  - unfold cluster_map. apply elem_of_list_to_map_1.
    + rewrite fmap_imap.
      replace (imap (λ n, fst ∘ (λ stop_id : Z, (stop_id, n))) (group_keys df))
        with (group_keys df); [apply group_keys_NoDup |].
      clear. generalize (group_keys df) as l. intros l.
      rewrite <- (list_fmap_id l) at 1. rewrite <- imap_const.
      apply imap_ext. reflexivity.
    + apply (elem_of_lookup_imap_2 (λ new_idx stop_id, (stop_id, new_idx))).
      exact Hi.
  - unfold stop_centers. rewrite list_lookup_fmap, Hi. reflexivity.
Qed.

Lemma with_distances_recomputed df :
  with_distances haversine_km df = Some (recomputed df).
Proof.
  unfold with_distances, recomputed. apply mapM_Some_2.
  apply Forall2_fmap_r, Forall2_same_length_lookup_2; [reflexivity |].
  intros i r r' Hr Hr'. rewrite Hr in Hr'. injection Hr' as <-.
  destruct (own_center df r) as (idx & Hmap & Hcenter).
  { eapply list_elem_of_lookup_2. exact Hr. }
  rewrite Hmap. simpl. rewrite Hcenter. reflexivity.
Qed.

Lemma recomputed_stops df :
  assigned_stop_id <$> recomputed df = assigned_stop_id <$> df.
Proof. unfold recomputed. rewrite <- list_fmap_compose. reflexivity. Qed.

Lemma recomputed_distances df :
  distance_to_stop_km <$> recomputed df = own_distance df <$> df.
Proof. unfold recomputed. rewrite <- list_fmap_compose. reflexivity. Qed.

Lemma group_keys_recomputed df : group_keys (recomputed df) = group_keys df.
Proof. unfold group_keys. rewrite recomputed_stops. reflexivity. Qed.

Lemma elem_of_recomputed df r' :
  r' ∈ recomputed df ↔ ∃ r, r' = set_distance (own_distance df r) r ∧ r ∈ df.
Proof. unfold recomputed. apply list_elem_of_fmap. Qed.

Lemma not_too_far_of_valid df max_distance_km stop_id :
  (∀ r, r ∈ df → own_distance df r ≤ max_distance_km) →
  ¬ too_far max_distance_km (group_max (recomputed df) stop_id).
Proof.
  intros Hvalid. unfold group_max.
  assert (Hall : Forall (λ d, d ≤ max_distance_km)
                   (distance_to_stop_km <$> group_of (recomputed df) stop_id)).
  { apply Forall_fmap, Forall_forall. intros r' Hr'.
    apply list_elem_of_filter in Hr' as (_ & Hr').
    apply elem_of_recomputed in Hr' as (r & -> & Hr). simpl. auto. }
  destruct (distance_to_stop_km <$> group_of (recomputed df) stop_id) as [|d ds];
    simpl; [auto |].
  apply Forall_cons in Hall as (Hd & Hds).
  rewrite bool_decide_eq_false_2; [auto |].
  apply Qcle_ngt, max_float_le; assumption.
Qed.

Lemma no_problematic_of_valid df max_distance_km :
  (∀ r, r ∈ df → own_distance df r ≤ max_distance_km) →
  problematic_clusters max_distance_km (recomputed df) = [].
Proof.
  intros Hvalid. unfold problematic_clusters.
  apply SplitFacts.filter_none, Forall_forall. intros stop_id _.
  apply not_too_far_of_valid. exact Hvalid.
Qed.

Lemma ceiling_gt (n : Z) (m max_distance_km : Qc) :
  0 < max_distance_km →
  Qc_of_Z n * max_distance_km < m →
  (n < Qceiling (m / max_distance_km)%Qc)%Z.
Proof.
  intros Hpos Hlt.
  assert (Hne : max_distance_km ≠ 0).
  { intros ->. exact (Qclt_not_eq _ _ Hpos eq_refl). }
  assert (Hq : Qc_of_Z n < m / max_distance_km).
  { apply (Qcmult_lt_mono_pos_r _ _ max_distance_km Hpos).
    rewrite (Qcmult_comm (m / max_distance_km)), Qcmult_div_r by assumption.
    exact Hlt. }
  rewrite Zlt_Qlt. eapply Qlt_le_trans; [exact Hq | apply Qle_ceiling].
Qed.

(** C8: on a non-empty table in which every rider is within the bound of
    the centroid of the rider's cluster, one pass of the loop returns: no
    cluster is split (k-means is never consulted, whatever it would answer)
    and every row comes back with its stop assignment, only the distance
    column being recomputed. *)
Theorem enforce_max_distance_valid_noop
    (fuel : nat) (df : list student_row) (max_distance_km : Qc) :
  df ≠ [] →
  (∀ r, r ∈ df →
     haversine_km (coords r) (centroid (group_of df (assigned_stop_id r)))
     ≤ max_distance_km) →
  ∃ df',
    enforce_max_distance haversine_km KMeans_labels (S fuel) df max_distance_km
    = Returned df'
    ∧ assigned_stop_id <$> df' = assigned_stop_id <$> df
    ∧ Forall2 (λ r r',
                 r' = set_distance
                        (haversine_km (coords r)
                           (centroid (group_of df (assigned_stop_id r)))) r)
              df df'.
Proof.
  intros Hne Hvalid. exists (recomputed df). split; [| split].
  - unfold enforce_max_distance. simpl.
    destruct df as [|r0 df0]; [contradiction |].
    rewrite with_distances_recomputed.
    rewrite no_problematic_of_valid by exact Hvalid. reflexivity.
  - apply recomputed_stops.
  - unfold recomputed. apply Forall2_fmap_r, Forall_Forall2_diag, Forall_forall.
    intros r _. reflexivity.
Qed.

Lemma group_of_recomputed df stop_id :
  group_of (recomputed df) stop_id
  = (λ r, set_distance (own_distance df r) r) <$> group_of df stop_id.
Proof.
  unfold group_of, recomputed. generalize (own_distance df) as f. intros f.
  induction df as [|r df IH]; [reflexivity |].
  rewrite fmap_cons, !filter_cons. simpl. rewrite IH.
  destruct (decide (assigned_stop_id r = stop_id)); reflexivity.
Qed.

Lemma centroid_recomputed df stop_id :
  centroid (group_of (recomputed df) stop_id) = centroid (group_of df stop_id).
Proof.
  rewrite group_of_recomputed. unfold centroid.
  rewrite <- !list_fmap_compose. reflexivity.
Qed.

Lemma valid_of_no_problematic df max_distance_km :
  problematic_clusters max_distance_km (recomputed df) = [] →
  ∀ r, r ∈ df → own_distance df r ≤ max_distance_km.
Proof.
  intros Hnone r Hr. unfold problematic_clusters in Hnone.
  assert (Hkey : assigned_stop_id r ∈ group_keys (recomputed df)).
  { rewrite group_keys_recomputed. apply elem_of_group_keys. exists r. auto. }
  assert (Hok : ¬ too_far max_distance_km
                    (group_max (recomputed df) (assigned_stop_id r))).
  { intros Hfar. exact (filter_nil_not_elem_of _ _ _ Hnone Hfar Hkey). }
  unfold group_max in Hok. rewrite group_of_recomputed in Hok.
  rewrite <- list_fmap_compose in Hok.
  assert (Hin : own_distance df r
                ∈ (distance_to_stop_km ∘ (λ r0, set_distance (own_distance df r0) r0))
                  <$> group_of df (assigned_stop_id r)).
  { apply list_elem_of_fmap. exists r. split; [reflexivity |].
    apply list_elem_of_filter. auto. }
  destruct ((distance_to_stop_km ∘ (λ r0, set_distance (own_distance df r0) r0))
            <$> group_of df (assigned_stop_id r)) as [|d ds];
    [apply elem_of_nil in Hin; contradiction |].
  simpl in Hok. etrans; [apply (max_float_ge d _ ds Hin) |].
  apply Qcle_ngt. intros Hlt. apply Hok, bool_decide_pack, Hlt.
Qed.

(** The table the loop returns records, for every rider, the distance to
    the centroid of the rider's cluster in that table. *)
Definition settled (max_distance_km : Qc) (df : list student_row) : Prop :=
  df ≠ []
  ∧ ∀ r, r ∈ df →
      distance_to_stop_km r = own_distance df r
      ∧ distance_to_stop_km r ≤ max_distance_km.

Lemma recomputed_settled df max_distance_km :
  df ≠ [] →
  (∀ r, r ∈ df → own_distance df r ≤ max_distance_km) →
  settled max_distance_km (recomputed df).
Proof.
  intros Hne Hvalid. split.
  - unfold recomputed. intros He. apply fmap_nil_inv in He. contradiction.
  - intros r' Hr'. apply elem_of_recomputed in Hr' as (r & -> & Hr). simpl.
    split; [| auto].
    unfold own_distance. simpl. rewrite centroid_recomputed. reflexivity.
Qed.

Lemma settled_recomputed df max_distance_km :
  settled max_distance_km df → recomputed df = df.
Proof.
  intros (_ & Hall). unfold recomputed.
  rewrite <- (list_fmap_id df) at 2. apply list_fmap_ext.
  intros i r Hr. destruct (Hall r) as (Hd & _).
  { eapply list_elem_of_lookup_2. exact Hr. }
  rewrite <- Hd. destruct r. reflexivity.
Qed.

Lemma enforce_loop_settled fuel df max_distance_km df' :
  enforce_loop haversine_km KMeans_labels fuel max_distance_km df = Returned df' →
  settled max_distance_km df'.
Proof.
  revert df. induction fuel as [|fuel IH]; intros df Hrun; [discriminate |].
  simpl in Hrun. destruct df as [|r0 df0] eqn:Hdf; [discriminate |].
  rewrite <- Hdf in *. rewrite with_distances_recomputed in Hrun.
  cbv beta iota in Hrun.
  destruct (problematic_clusters max_distance_km (recomputed df)) as [|c cs] eqn:Hp.
  - injection Hrun as <-. apply recomputed_settled.
    + rewrite Hdf. discriminate.
    + apply valid_of_no_problematic. exact Hp.
  - match type of Hrun with
    | match ?run with Some _ => _ | None => _ end = _ =>
        destruct run as [st|]; [| discriminate]
    end.
    exact (IH _ Hrun).
Qed.

Lemma one_cluster_keys df stop_id :
  df ≠ [] → (∀ r, r ∈ df → assigned_stop_id r = stop_id) →
  group_keys df = [stop_id].
Proof.
  intros Hne Hall. apply singleton_of_NoDup.
  - apply group_keys_NoDup.
  - apply elem_of_group_keys. destruct df as [|r df]; [contradiction |].
    exists r. split; [apply elem_of_cons; auto | apply Hall, elem_of_cons; auto].
  - intros x Hx. apply elem_of_group_keys in Hx as (r & Hr & <-). auto.
Qed.

Lemma one_cluster_group df stop_id :
  (∀ r, r ∈ df → assigned_stop_id r = stop_id) → group_of df stop_id = df.
Proof.
  intros Hall. apply SplitFacts.filter_all, Forall_forall. exact Hall.
Qed.

(** X1: whenever the repair loop returns, every rider of the returned table is
    within the bound of the centroid of the rider's cluster, and this is
    the distance the table records. *)
Theorem enforce_max_distance_sound
    (fuel : nat) (df df' : list student_row) (max_distance_km : Qc) :
  enforce_max_distance haversine_km KMeans_labels fuel df max_distance_km
  = Returned df' →
  ∀ r, r ∈ df' →
    distance_to_stop_km r
    = haversine_km (coords r) (centroid (group_of df' (assigned_stop_id r)))
    ∧ distance_to_stop_km r ≤ max_distance_km.
Proof.
  intros Hrun r Hr.
  destruct (enforce_loop_settled _ _ _ _ Hrun) as (_ & Hall).
  exact (Hall r Hr).
Qed.

(** X2: the repair loop is idempotent: run on a table it returned, it returns
    that table unchanged after one pass. *)
Theorem enforce_max_distance_idempotent
    (fuel fuel' : nat) (df df' : list student_row) (max_distance_km : Qc) :
  enforce_max_distance haversine_km KMeans_labels fuel df max_distance_km
  = Returned df' →
  enforce_max_distance haversine_km KMeans_labels (S fuel') df' max_distance_km
  = Returned df'.
Proof.
  intros Hrun. pose proof (enforce_loop_settled _ _ _ _ Hrun) as Hset.
  pose proof (settled_recomputed _ _ Hset) as Hfix.
  destruct Hset as (Hne & Hall).
  unfold enforce_max_distance. simpl.
  destruct df' as [|r0 df0] eqn:Hdf; [contradiction |]. rewrite <- Hdf in *.
  rewrite with_distances_recomputed, no_problematic_of_valid, Hfix;
    [reflexivity |].
  intros r Hr. destruct (Hall r Hr) as (Hd & Hle). rewrite <- Hd. exact Hle.
Qed.

Lemma split_cluster_raises max_distance_km df next_id stop_id m :
  group_max df stop_id = Some m →
  max_distance_km ≠ 0 →
  (Z.of_nat (length (group_of df stop_id))
   < Z.max 2 (Qceiling (m / max_distance_km)%Qc))%Z →
  split_cluster KMeans_labels max_distance_km (df, next_id) stop_id = None.
Proof.
  intros Hm Hne Hlt. unfold split_cluster. cbn [fst snd]. rewrite Hm.
  cbn [mbind option_bind]. rewrite option_guard_True by exact Hne.
  unfold KMeans_fit_predict. rewrite length_fmap.
  destruct (Z.ltb_spec (Z.of_nat (length (group_of df stop_id)))
              (Z.max 2 (Qceiling (m / max_distance_km)%Qc))) as [_|Hge];
    [reflexivity | lia].
Qed.

(** C7: the loop does not end without error on every input.  When a cluster
    is split the number of sub-clusters asked of k-means is
    [max(2, ceil(max_member_distance / max_distance_km))], with no regard
    to how many riders the cluster has, and k-means rejects a request for
    more clusters than samples.  So on a table whose riders all sit in one
    cluster, one of them farther from the centroid than
    (number of riders) × (bound), the call raises. *)
Theorem enforce_max_distance_raises
    (fuel : nat) (df : list student_row) (max_distance_km : Qc)
    (stop_id : Z) (r : student_row) :
  0 < max_distance_km →
  (∀ r', r' ∈ df → assigned_stop_id r' = stop_id) →
  r ∈ df →
  Qc_of_Z (Z.of_nat (length df)) * max_distance_km
  < haversine_km (coords r) (centroid df) →
  enforce_max_distance haversine_km KMeans_labels (S fuel) df max_distance_km
  = Raised.
Proof.
  intros Hpos Hone Hr Hfar.
  assert (Hne : df ≠ []) by (intros ->; apply elem_of_nil in Hr; exact Hr).
  assert (Hone' : ∀ r', r' ∈ recomputed df → assigned_stop_id r' = stop_id).
  { intros r' Hr'. apply elem_of_recomputed in Hr' as (r0 & -> & Hr0).
    simpl. auto. }
  assert (Hne' : recomputed df ≠ []).
  { unfold recomputed. intros He. apply fmap_nil_inv in He. contradiction. }
  assert (Hown : own_distance df r = haversine_km (coords r) (centroid df)).
  { unfold own_distance. rewrite (Hone r Hr), one_cluster_group by exact Hone.
    reflexivity. }
  assert (Hmax : ∃ m, group_max (recomputed df) stop_id = Some m
                      ∧ Qc_of_Z (Z.of_nat (length df)) * max_distance_km < m).
  { unfold group_max. rewrite one_cluster_group by exact Hone'.
    rewrite recomputed_distances.
    assert (Hin : own_distance df r ∈ own_distance df <$> df).
    { apply list_elem_of_fmap. exists r. auto. }
    destruct (own_distance df <$> df) as [|d ds];
      [apply elem_of_nil in Hin; contradiction |].
    eexists. split; [reflexivity |].
    eapply Qclt_le_trans; [| apply max_float_ge, Hin]. rewrite Hown. exact Hfar. }
  destruct Hmax as (m & Hm & Hlt).
  assert (Hlen : (1 ≤ Z.of_nat (length df))%Z).
  { destruct df; [contradiction | simpl; lia]. }
  assert (Hbound : max_distance_km < m).
  { eapply Qcle_lt_trans; [| exact Hlt].
    rewrite <- (Qcmult_1_l max_distance_km) at 1.
    apply Qcmult_le_mono_nonneg_r; [apply Qclt_le_weak, Hpos |].
    unfold Qcle.
    change (inject_Z 1 <= inject_Z (Z.of_nat (length df)))%Q.
    rewrite <- Zle_Qle. exact Hlen. }
  unfold enforce_max_distance. simpl.
  destruct df as [|r0 df0] eqn:Hdf; [contradiction |]. rewrite <- Hdf in *.
  rewrite with_distances_recomputed.
  unfold problematic_clusters.
  rewrite group_keys_recomputed, (one_cluster_keys df stop_id Hne Hone).
  rewrite filter_cons_True, filter_nil
    by (rewrite Hm; simpl; apply bool_decide_pack, Hbound).
  destruct (max_stop_id (recomputed df)) as [max_id|]; [| reflexivity].
  cbn [mbind option_bind split_clusters].
  rewrite (split_cluster_raises _ _ _ _ m); [reflexivity | exact Hm | |].
  - intros ->. exact (Qclt_not_eq _ _ Hpos eq_refl).
  - rewrite one_cluster_group by exact Hone'.
    unfold recomputed. rewrite length_fmap.
    pose proof (ceiling_gt _ _ _ Hpos Hlt). lia.
Qed.

End Repair.

(** *** Termination of the repair loop

    The argument of the design document, made precise: a pass that does
    not return splits at least one cluster, every split puts the riders of
    the cluster into at least two fresh clusters, and there can be no more
    clusters than riders.  It rests on two properties of the library
    calls, stated as hypotheses, and it bounds the number of passes by the
    number of riders; a pass may still raise (see
    [enforce_max_distance_raises]). *)

(** The stop ids in use. *)
Definition ids (df : list student_row) : gset Z :=
  list_to_set (assigned_stop_id <$> df).

Lemma elem_of_ids df x : x ∈ ids df ↔ ∃ r, r ∈ df ∧ assigned_stop_id r = x.
Proof.
  unfold ids. rewrite elem_of_list_to_set, list_elem_of_fmap.
  split; intros (r & ? & ?); exists r; auto.
Qed.

Lemma ids_size_le df : (size (ids df) ≤ length df)%nat.
Proof.
  unfold ids. induction df as [|r df IH]; [reflexivity |].
  rewrite fmap_cons, list_to_set_cons. simpl.
  pose proof (size_union_alt (C := gset Z) {[assigned_stop_id r]}
                (list_to_set (assigned_stop_id <$> df))) as Hu.
  rewrite size_singleton in Hu.
  pose proof (subseteq_size
                (list_to_set (assigned_stop_id <$> df) ∖ {[assigned_stop_id r]})
                (list_to_set (assigned_stop_id <$> df) : gset Z)) as Hs.
  assert (Hsub : list_to_set (assigned_stop_id <$> df) ∖ {[assigned_stop_id r]}
                 ⊆ (list_to_set (assigned_stop_id <$> df) : gset Z)).
  { intros x Hx. apply elem_of_difference in Hx as (Hx & _). exact Hx. }
  specialize (Hs Hsub). lia.
Qed.

Lemma size_grows (X X' : gset Z) (c a b : Z) :
  a ≠ b → a ∉ X → b ∉ X →
  (∀ x, x ∈ X → x ≠ c → x ∈ X') → a ∈ X' → b ∈ X' →
  (size X + 1 ≤ size X')%nat.
Proof.
  intros Hab Ha Hb Hold Ha' Hb'.
  assert (Hsub : (X ∖ {[c]}) ∪ ({[a]} ∪ {[b]}) ⊆ X').
  { intros x Hx. apply elem_of_union in Hx as [Hx|Hx].
    - apply elem_of_difference in Hx as (Hx & Hc).
      apply Hold; [exact Hx |]. intros ->. apply Hc, elem_of_singleton. reflexivity.
    - apply elem_of_union in Hx as [Hx|Hx]; apply elem_of_singleton in Hx as ->;
        assumption. }
  apply subseteq_size in Hsub.
  assert (Hdisj : X ∖ {[c]} ## ({[a]} ∪ {[b]} : gset Z)).
  { apply elem_of_disjoint. intros x Hx Hx'.
    apply elem_of_difference in Hx as (Hx & _).
    apply elem_of_union in Hx' as [Hx'|Hx']; apply elem_of_singleton in Hx' as ->;
      contradiction. }
  assert (Hdisj' : {[a]} ## ({[b]} : gset Z)).
  { apply elem_of_disjoint. intros x Hx Hx'.
    apply elem_of_singleton in Hx as ->. apply elem_of_singleton in Hx'.
    contradiction. }
  rewrite size_union in Hsub by exact Hdisj.
  rewrite (size_union {[a]} {[b]}) in Hsub by exact Hdisj'.
  rewrite !size_singleton in Hsub.
  pose proof (size_difference_alt X {[c]}) as Hd.
  pose proof (subseteq_size (X ∩ {[c]}) ({[c]} : gset Z)) as Hc.
  assert (Hcap : X ∩ {[c]} ⊆ ({[c]} : gset Z)).
  { intros x Hx. apply elem_of_intersection in Hx as (_ & Hx). exact Hx. }
  specialize (Hc Hcap). rewrite size_singleton in Hc. lia.
Qed.

Lemma relabel_length stop_id base labels df df' :
  relabel stop_id base labels df = Some df' → length df' = length df.
Proof.
  revert labels df'. induction df as [|r df IH]; intros labels df' Hrun; simpl in Hrun.
  - injection Hrun as <-. reflexivity.
  - destruct (decide (assigned_stop_id r = stop_id)).
    + destruct labels as [|l ls]; [discriminate |].
      destruct (relabel stop_id base ls df) as [df0|] eqn:Hrest; [| discriminate].
      injection Hrun as <-. simpl. f_equal. eauto.
    + destruct (relabel stop_id base labels df) as [df0|] eqn:Hrest; [| discriminate].
      injection Hrun as <-. simpl. f_equal. eauto.
Qed.

(** What [relabel] does to the rows. *)
Lemma relabel_rows stop_id base labels df df' :
  relabel stop_id base labels df = Some df' →
  (∀ r, r ∈ df → assigned_stop_id r ≠ stop_id → r ∈ df')
  ∧ (∀ r', r' ∈ df' →
       (r' ∈ df ∧ assigned_stop_id r' ≠ stop_id)
       ∨ ∃ r l, r ∈ df ∧ assigned_stop_id r = stop_id ∧ l ∈ labels
                ∧ r' = set_stop (base + l) r)
  ∧ (length labels = length (group_of df stop_id) →
     ∀ l, l ∈ labels → ∃ r', r' ∈ df' ∧ assigned_stop_id r' = (base + l)%Z).
Proof.
  revert labels df'. induction df as [|r df IH]; intros labels df' Hrun; simpl in Hrun.
  - injection Hrun as <-. split; [| split].
    + intros r Hr. apply elem_of_nil in Hr. contradiction.
    + intros r Hr. apply elem_of_nil in Hr. contradiction.
    + intros Hlen l Hl. destruct labels; [| discriminate].
      apply elem_of_nil in Hl. contradiction.
  - unfold group_of. rewrite filter_cons.
    destruct (decide (assigned_stop_id r = stop_id)) as [Hc|Hc].
    + destruct labels as [|l ls]; [discriminate |].
      destruct (relabel stop_id base ls df) as [df0|] eqn:Hrest; [| discriminate].
      injection Hrun as <-.
      destruct (IH ls df0 Hrest) as (Hkeep & Hfrom & Hfresh).
      split; [| split].
      * intros r0 Hr0 Hne. apply elem_of_cons in Hr0 as [->|Hr0]; [contradiction |].
        apply elem_of_cons. right. auto.
      * intros r' Hr'. apply elem_of_cons in Hr' as [->|Hr'].
        -- right. exists r, l. repeat split; try assumption; apply elem_of_cons; auto.
        -- destruct (Hfrom r' Hr') as [(Hin & Hne)|(r0 & l0 & Hin & ? & Hl0 & ->)].
           ++ left. split; [apply elem_of_cons; auto | exact Hne].
           ++ right. exists r0, l0. repeat split; try assumption;
                apply elem_of_cons; auto.
      * intros Hlen l0 Hl0. simpl in Hlen. injection Hlen as Hlen.
        apply elem_of_cons in Hl0 as [->|Hl0].
        -- exists (set_stop (base + l) r). split; [apply elem_of_cons; auto |].
           reflexivity.
        -- destruct (Hfresh Hlen l0 Hl0) as (r' & Hr' & Hid).
           exists r'. split; [apply elem_of_cons; auto | exact Hid].
    + destruct (relabel stop_id base labels df) as [df0|] eqn:Hrest; [| discriminate].
      injection Hrun as <-.
      destruct (IH labels df0 Hrest) as (Hkeep & Hfrom & Hfresh).
      split; [| split].
      * intros r0 Hr0 Hne. apply elem_of_cons in Hr0 as [->|Hr0];
          apply elem_of_cons; auto.
      * intros r' Hr'. apply elem_of_cons in Hr' as [->|Hr'].
        -- left. split; [apply elem_of_cons; auto | exact Hc].
        -- destruct (Hfrom r' Hr') as [(Hin & Hne)|(r0 & l0 & Hin & ? & Hl0 & ->)].
           ++ left. split; [apply elem_of_cons; auto | exact Hne].
           ++ right. exists r0, l0. repeat split; try assumption;
                apply elem_of_cons; auto.
      * intros Hlen l0 Hl0. destruct (Hfresh Hlen l0 Hl0) as (r' & Hr' & Hid).
        exists r'. split; [apply elem_of_cons; auto | exact Hid].
Qed.

(** A cluster that is neither the one split nor the target of a new label
    keeps its rows, in order. *)
Lemma relabel_other_group stop_id base labels df df' other :
  relabel stop_id base labels df = Some df' →
  other ≠ stop_id →
  (∀ l, l ∈ labels → (base + l)%Z ≠ other) →
  group_of df' other = group_of df other.
Proof.
  intros Hrun Hne Hfresh. revert labels df' Hrun Hfresh.
  induction df as [|r df IH]; intros labels df' Hrun Hfresh; simpl in Hrun.
  - injection Hrun as <-. reflexivity.
  - unfold group_of in *.
    destruct (decide (assigned_stop_id r = stop_id)) as [Hc|Hc].
    + destruct labels as [|l ls]; [discriminate |].
      destruct (relabel stop_id base ls df) as [df0|] eqn:Hrest; [| discriminate].
      injection Hrun as <-.
      rewrite filter_cons_False.
      2:{ simpl. apply Hfresh, elem_of_cons. auto. }
      rewrite filter_cons_False by congruence.
      apply (IH ls); [exact Hrest |].
      intros l0 Hl0. apply Hfresh, elem_of_cons. auto.
    + destruct (relabel stop_id base labels df) as [df0|] eqn:Hrest; [| discriminate].
      injection Hrun as <-. rewrite !filter_cons.
      rewrite (IH labels df0 Hrest Hfresh). reflexivity.
Qed.

Lemma max_float_in (x : Qc) (l : list Qc) : Py.max_float x l ∈ x :: l.
Proof.
  revert x. unfold Py.max_float. induction l as [|y l IH]; intros x; simpl.
  - apply elem_of_cons. auto.
  - destruct (decide (x < y)).
    + apply elem_of_cons. right. apply IH.
    + specialize (IH x). apply elem_of_cons in IH as [->|IH].
      * apply elem_of_cons. auto.
      * apply elem_of_cons. right. apply elem_of_cons. auto.
Qed.

Lemma foldl_max_ge_init (x : Z) (l : list Z) : (x ≤ foldl Z.max x l)%Z.
Proof.
  revert x. induction l as [|y l IH]; intros x; simpl; [reflexivity |].
  specialize (IH (Z.max x y)). lia.
Qed.

Lemma foldl_max_ge (x z : Z) (l : list Z) :
  z ∈ x :: l → (z ≤ foldl Z.max x l)%Z.
Proof.
  revert x. induction l as [|y l IH]; intros x Hin; simpl.
  - apply list_elem_of_singleton in Hin as ->. reflexivity.
  - pose proof (foldl_max_ge_init (Z.max x y) l) as Hinit.
    apply elem_of_cons in Hin as [->|Hin]; [lia |].
    apply elem_of_cons in Hin as [->|Hin]; [lia |].
    apply IH. apply elem_of_cons. auto.
Qed.

Lemma max_stop_id_bound df m r :
  max_stop_id df = Some m → r ∈ df → (assigned_stop_id r ≤ m)%Z.
Proof.
  unfold max_stop_id. intros Hm Hr.
  assert (Hin : assigned_stop_id r ∈ assigned_stop_id <$> df).
  { apply list_elem_of_fmap. eauto. }
  destruct (assigned_stop_id <$> df) as [|x l]; [discriminate |].
  injection Hm as <-. apply foldl_max_ge. exact Hin.
Qed.

(** Two riders of the group live at different places. *)
Definition two_places (group : list student_row) : Prop :=
  ∃ p q, p ∈ coords <$> group ∧ q ∈ coords <$> group ∧ p ≠ q.

Section Termination.

Variable haversine_km : Qc * Qc → Qc * Qc → Qc.
Variable KMeans_labels : Z → list (Qc * Qc) → list Z.
Variable max_distance_km : Qc.

(** k-means, when it accepts its input, labels every sample with a
    cluster index below [n_clusters], and uses at least two labels when
    the samples are not all at one place. *)
Hypothesis KMeans_contract :
  ∀ (n_clusters : Z) (X : list (Qc * Qc)),
    (2 ≤ n_clusters)%Z → (n_clusters ≤ Z.of_nat (length X))%Z →
    length (KMeans_labels n_clusters X) = length X
    ∧ Forall (λ l, (0 ≤ l < n_clusters)%Z) (KMeans_labels n_clusters X)
    ∧ ((∃ p q, p ∈ X ∧ q ∈ X ∧ p ≠ q) →
       ∃ a b, a ∈ KMeans_labels n_clusters X
              ∧ b ∈ KMeans_labels n_clusters X ∧ a ≠ b).

(** Riders who all live at one place are within the bound of their
    centroid. *)
Hypothesis coincident_within :
  ∀ (group : list student_row) (r : student_row),
    r ∈ group →
    (∀ r', r' ∈ group → coords r' = coords r) →
    haversine_km (coords r) (centroid group) ≤ max_distance_km.

Lemma problematic_two_places df stop_id :
  stop_id ∈ problematic_clusters max_distance_km (recomputed haversine_km df) →
  two_places (group_of (recomputed haversine_km df) stop_id).
Proof.
  intros Hp. unfold problematic_clusters in Hp.
  apply list_elem_of_filter in Hp as (Hfar & _).
  unfold group_max in Hfar.
  assert (Hcoords : coords <$> group_of (recomputed haversine_km df) stop_id
                    = coords <$> group_of df stop_id).
  { rewrite group_of_recomputed, <- list_fmap_compose. reflexivity. }
  unfold two_places. rewrite Hcoords.
  rewrite group_of_recomputed, <- list_fmap_compose in Hfar.
  pose proof (max_float_in) as Hin.
  destruct ((distance_to_stop_km
             ∘ (λ r, set_distance (own_distance haversine_km df r) r))
            <$> group_of df stop_id) as [|d ds] eqn:Hds; [contradiction |].
  simpl in Hfar. apply bool_decide_unpack in Hfar.
  specialize (Hin d ds). rewrite <- Hds in Hin.
  apply list_elem_of_fmap in Hin as (r0 & Hm & Hr0). simpl in Hm.
  rewrite Hm in Hfar.
  apply list_elem_of_filter in Hr0 as Hr0'. destruct Hr0' as (Hid & _).
  unfold own_distance in Hfar. rewrite Hid in Hfar.
  destruct (decide (Forall (λ r', coords r' = coords r0) (group_of df stop_id)))
    as [Hall|Hnot].
  - exfalso. apply (Qclt_not_le _ _ Hfar).
    apply coincident_within; [exact Hr0 |].
    apply Forall_forall. exact Hall.
  - assert (Hex : Exists (not ∘ (λ r', coords r' = coords r0))
                    (group_of df stop_id)).
    { apply not_Forall_Exists; first [exact Hnot | intros; apply _]. }
    apply Exists_exists in Hex as (r1 & Hr1 & Hne).
    exists (coords r1), (coords r0).
    split; [apply list_elem_of_fmap; eauto |].
    split; [apply list_elem_of_fmap; eauto | exact Hne].
Qed.

Lemma split_cluster_progress df base stop_id df' base' :
  (∀ r, r ∈ df → (assigned_stop_id r < base)%Z) →
  two_places (group_of df stop_id) →
  split_cluster KMeans_labels max_distance_km (df, base) stop_id
  = Some (df', base') →
  length df' = length df
  ∧ (∀ r, r ∈ df' → (assigned_stop_id r < base')%Z)
  ∧ (base ≤ base')%Z
  ∧ (size (ids df) + 1 ≤ size (ids df'))%nat
  ∧ (∀ other, other ≠ stop_id → (other < base)%Z →
       group_of df' other = group_of df other).
Proof.
  intros Hbound Htwo Hrun. unfold split_cluster in Hrun. cbn [fst snd] in Hrun.
  destruct (group_max df stop_id) as [m|]; [| discriminate].
  cbn [mbind option_bind] in Hrun.
  case_guard; [| discriminate]. cbn [mbind option_bind] in Hrun.
  set (k := Z.max 2 (Qceiling (m / max_distance_km)%Qc)) in *.
  unfold KMeans_fit_predict in Hrun.
  destruct (Z.ltb_spec (Z.of_nat (length (coords <$> group_of df stop_id))) k)
    as [|Hk]; [discriminate |].
  cbn [mbind option_bind] in Hrun.
  set (labels := KMeans_labels k (coords <$> group_of df stop_id)) in *.
  destruct (relabel stop_id base labels df) as [new_df|] eqn:Hrel; [| discriminate].
  cbn [mbind option_bind] in Hrun. injection Hrun as <- <-.
  destruct (KMeans_contract k (coords <$> group_of df stop_id))
    as (Hlen & Hrange & Hdistinct); [lia | exact Hk |].
  fold labels in Hlen, Hrange, Hdistinct.
  destruct (Hdistinct Htwo) as (a & b & Ha & Hb & Hab).
  rewrite Forall_forall in Hrange.
  destruct (relabel_rows _ _ _ _ _ Hrel) as (Hkeep & Hfrom & Hfresh).
  rewrite length_fmap in Hlen. specialize (Hfresh Hlen).
  assert (Hbound' : ∀ r, r ∈ new_df → (assigned_stop_id r < base + k)%Z).
  { intros r Hr. destruct (Hfrom r Hr) as [(Hin & _)|(r0 & l & _ & _ & Hl & ->)].
    - specialize (Hbound r Hin). lia.
    - simpl. specialize (Hrange l Hl). lia. }
  split; [eapply relabel_length; exact Hrel |].
  split; [exact Hbound' |]. split; [lia |]. split.
  - apply (size_grows (ids df) (ids new_df) stop_id (base + a) (base + b)).
    + lia.
    + intros Hin. apply elem_of_ids in Hin as (r & Hr & Hid).
      specialize (Hbound r Hr). specialize (Hrange a Ha). lia.
    + intros Hin. apply elem_of_ids in Hin as (r & Hr & Hid).
      specialize (Hbound r Hr). specialize (Hrange b Hb). lia.
    + intros x Hx Hne. apply elem_of_ids in Hx as (r & Hr & <-).
      apply elem_of_ids. exists r. split; [apply Hkeep; assumption | reflexivity].
    + apply elem_of_ids. destruct (Hfresh a Ha) as (r' & ? & ?). eauto.
    + apply elem_of_ids. destruct (Hfresh b Hb) as (r' & ? & ?). eauto.
  - intros other Hne Hlt. eapply relabel_other_group; [exact Hrel | exact Hne |].
    intros l Hl. specialize (Hrange l Hl). lia.
Qed.

Lemma split_clusters_progress problematic df base df' base' :
  NoDup problematic →
  (∀ c, c ∈ problematic → (c < base)%Z) →
  (∀ r, r ∈ df → (assigned_stop_id r < base)%Z) →
  (∀ c, c ∈ problematic → two_places (group_of df c)) →
  split_clusters KMeans_labels max_distance_km problematic (df, base)
  = Some (df', base') →
  length df' = length df
  ∧ (size (ids df) + length problematic ≤ size (ids df'))%nat.
Proof.
  revert df base. induction problematic as [|c rest IH];
    intros df base Hnd Hlt Hbound Htwo Hrun; simpl in Hrun.
  - injection Hrun as <- <-. split; [reflexivity | simpl; lia].
  - destruct (split_cluster KMeans_labels max_distance_km (df, base) c)
      as [[df1 base1]|] eqn:Hsplit; [| discriminate].
    cbn [mbind option_bind] in Hrun.
    apply NoDup_cons in Hnd as (Hc & Hnd).
    destruct (split_cluster_progress df base c df1 base1 Hbound)
      as (Hlen1 & Hbound1 & Hbase1 & Hsize1 & Hgroups1);
      [apply Htwo, elem_of_cons; auto | exact Hsplit |].
    destruct (IH df1 base1 Hnd) as (Hlen2 & Hsize2); [| exact Hbound1 | | exact Hrun |].
    + intros c' Hc'. specialize (Hlt c' ltac:(apply elem_of_cons; auto)). lia.
    + intros c' Hc'. rewrite Hgroups1.
      * apply Htwo, elem_of_cons. auto.
      * intros ->. contradiction.
      * apply Hlt, elem_of_cons. auto.
    + split; [congruence | simpl; lia].
Qed.

Lemma enforce_loop_ends fuel df :
  (length df < fuel + size (ids df))%nat →
  enforce_loop haversine_km KMeans_labels fuel max_distance_km df ≠ OutOfFuel.
Proof.
  revert df. induction fuel as [|fuel IH]; intros df Hfuel.
  - pose proof (ids_size_le df). lia.
  - cbn [enforce_loop]. destruct df as [|r0 df0] eqn:Hdf; [discriminate |].
    rewrite <- Hdf in *. rewrite with_distances_recomputed.
    cbv beta iota.
    destruct (problematic_clusters max_distance_km (recomputed haversine_km df))
      as [|c cs] eqn:Hp; [discriminate |].
    destruct (max_stop_id (recomputed haversine_km df)) as [max_id|] eqn:Hmax;
      [| cbn; discriminate].
    cbn [mbind option_bind].
    destruct (split_clusters KMeans_labels max_distance_km (c :: cs)
                (recomputed haversine_km df, (max_id + 1)%Z))
      as [[df2 base2]|] eqn:Hsplit; [| cbn; discriminate].
    cbn [fst].
    destruct (split_clusters_progress (c :: cs) (recomputed haversine_km df)
                (max_id + 1)%Z df2 base2) as (Hlen & Hsize).
    + rewrite <- Hp. unfold problematic_clusters.
      apply NoDup_filter, group_keys_NoDup.
    + intros c' Hc'. rewrite <- Hp in Hc'. unfold problematic_clusters in Hc'.
      apply list_elem_of_filter in Hc' as (_ & Hkey).
      apply elem_of_group_keys in Hkey as (r & Hr & <-).
      pose proof (max_stop_id_bound _ _ _ Hmax Hr). lia.
    + intros r Hr. pose proof (max_stop_id_bound _ _ _ Hmax Hr). lia.
    + intros c' Hc'. rewrite <- Hp in Hc'. apply problematic_two_places, Hc'.
    + exact Hsplit.
    + apply IH.
      assert (Hids : ids (recomputed haversine_km df) = ids df).
      { unfold ids. rewrite recomputed_stops. reflexivity. }
      rewrite Hids in Hsize. unfold recomputed in Hlen.
      rewrite length_fmap in Hlen. simpl in Hsize. lia.
Qed.

(** X4: termination of the repair loop, as far as the code has it: under the
    two assumptions on the library calls, the loop runs at most as many
    passes as there are riders; it then has returned or raised. *)
Theorem enforce_max_distance_ends (fuel : nat) (df : list student_row) :
  (length df < fuel)%nat →
  enforce_max_distance haversine_km KMeans_labels fuel df max_distance_km
  ≠ OutOfFuel.
Proof.
  intros Hfuel. unfold enforce_max_distance. apply enforce_loop_ends. lia.
Qed.

End Termination.

(** Stand-ins for the two library functions, for concrete runs: riders on
    one meridian, 111 km to the degree of latitude, and a two-way split at
    half a degree. *)
Definition meridian_km (a b : Qc * Qc) : Qc :=
  let d := a.1 - b.1 in (if decide (0 ≤ d) then d else - d) * Qc_of_Z 111.

Definition split_at_half_degree (n_clusters : Z) (X : list (Qc * Qc)) : list Z :=
  (λ p, if decide (p.1 < Q2Qc (1 # 2)) then 0%Z else 1%Z) <$> X.

Definition rider (name : string) (lat : Q) (stop : Z) : student_row :=
  mk_student_row name (Q2Qc lat) 0 stop 0.

(** Two riders a hundredth of a degree apart, and two a tenth apart. *)
Definition near_pair : list student_row :=
  [rider "a" 0 0; rider "b" (1 # 100) 0].

Definition far_pair : list student_row :=
  [rider "a" 0 0; rider "b" (1 # 10) 0].

(** A k-means stand-in that separates the samples at the place of the
    first one from all others. *)
Definition first_versus_rest (n_clusters : Z) (X : list (Qc * Qc)) : list Z :=
  match X with
  | [] => []
  | p :: _ => (λ q, if decide (q = p) then 0%Z else 1%Z) <$> X
  end.

Lemma first_versus_rest_contract (n_clusters : Z) (X : list (Qc * Qc)) :
  (2 ≤ n_clusters)%Z → (n_clusters ≤ Z.of_nat (length X))%Z →
  length (first_versus_rest n_clusters X) = length X
  ∧ Forall (λ l, (0 ≤ l < n_clusters)%Z) (first_versus_rest n_clusters X)
  ∧ ((∃ p q, p ∈ X ∧ q ∈ X ∧ p ≠ q) →
     ∃ a b, a ∈ first_versus_rest n_clusters X
            ∧ b ∈ first_versus_rest n_clusters X ∧ a ≠ b).
Proof.
  intros Hk _. unfold first_versus_rest. destruct X as [|p0 X'].
  { split; [reflexivity |]. split; [constructor |].
    intros (p & _ & Hp & _). apply elem_of_nil in Hp. contradiction. }
  set (X := p0 :: X'). set (label := λ q : Qc * Qc, if decide (q = p0) then 0%Z else 1%Z).
  split; [apply length_fmap |]. split.
  - apply Forall_fmap, Forall_forall. intros q _. unfold label. simpl.
    destruct (decide (q = p0)); lia.
  - intros (p & q & Hp & Hq & Hne).
    assert (Hother : ∃ z, z ∈ X ∧ z ≠ p0).
    { destruct (decide (p = p0)) as [->|]; [exists q | exists p]; auto. }
    destruct Hother as (z & Hz & Hzne).
    exists 0%Z, 1%Z. split; [| split; [| discriminate]].
    + apply list_elem_of_fmap. exists p0. unfold label.
      rewrite decide_True by reflexivity.
      split; [reflexivity | apply elem_of_cons; auto].
    + apply list_elem_of_fmap. exists z. unfold label.
      rewrite decide_False by exact Hzne. auto.
Qed.

Lemma mean_const (x : Qc) (l : list Qc) :
  l ≠ [] → Forall (λ y, y = x) l → mean l = x.
Proof.
  intros Hne Hall. unfold mean.
  assert (Hsum : foldr Qcplus 0 l = x * Qc_of_Z (Z.of_nat (length l))).
  { clear Hne. induction Hall as [|y l -> _ IH]; cbn [foldr length].
    - change (Z.of_nat 0) with 0%Z. rewrite Z2Qc_inj_0, Qcmult_0_r. reflexivity.
    - rewrite IH, Nat2Z.inj_succ, <- Z.add_1_l, Z2Qc_inj_add, Z2Qc_inj_1.
      rewrite Qcmult_plus_distr_r, Qcmult_1_r. reflexivity. }
  rewrite Hsum. apply Qcdiv_mult_l.
  rewrite <- Z2Qc_inj_0. intros Heq. apply Z2Qc_inj in Heq.
  destruct l; [contradiction | discriminate].
Qed.

Lemma meridian_km_coincident (group : list student_row) (r : student_row) :
  r ∈ group →
  (∀ r', r' ∈ group → coords r' = coords r) →
  meridian_km (coords r) (centroid group) ≤ 1.
Proof.
  intros Hr Hall.
  assert (Hne : Latitude <$> group ≠ []).
  { intros He. apply fmap_nil_inv in He. subst.
    apply elem_of_nil in Hr. contradiction. }
  assert (Hlat : mean (Latitude <$> group) = Latitude r).
  { apply mean_const; [exact Hne |].
    apply Forall_fmap, Forall_forall. intros r' Hr'.
    specialize (Hall r' Hr'). unfold coords in Hall. simpl. congruence. }
  unfold meridian_km, centroid, coords. simpl. rewrite Hlat.
  unfold Qcminus. rewrite Qcplus_opp_r.
  rewrite decide_True by reflexivity. rewrite Qcmult_0_l. discriminate.
Qed.

(** Four riders of one cluster, two and two a fiftieth of a degree apart. *)
Definition two_streets : list student_row :=
  [rider "a" 0 0; rider "b" 0 0; rider "c" (1 # 50) 0; rider "d" (1 # 50) 0].

Lemma enforce_max_distance_ends_witness :
  enforce_max_distance meridian_km first_versus_rest 5 two_streets 1 ≠ OutOfFuel.
Proof.
  apply (enforce_max_distance_ends meridian_km first_versus_rest 1
           first_versus_rest_contract meridian_km_coincident 5 two_streets).
  simpl. lia.
Defined.

Lemma enforce_max_distance_valid_noop_witness :
  ∃ df',
    enforce_max_distance meridian_km split_at_half_degree 1 near_pair 1
    = Returned df'
    ∧ assigned_stop_id <$> df' = assigned_stop_id <$> near_pair
    ∧ Forall2 (λ r r',
                 r' = set_distance
                        (meridian_km (coords r)
                           (centroid (group_of near_pair (assigned_stop_id r)))) r)
              near_pair df'.
Proof.
  apply (enforce_max_distance_valid_noop meridian_km split_at_half_degree
           0 near_pair 1).
  - discriminate.
  - intros r Hr. repeat (apply elem_of_cons in Hr as [->|Hr]);
      [| | apply elem_of_nil in Hr; contradiction]; vm_compute; discriminate.
Defined.

Definition settled_rider : student_row :=
  set_distance (own_distance meridian_km near_pair (rider "a" 0 0)) (rider "a" 0 0).

Lemma enforce_max_distance_sound_witness :
  distance_to_stop_km settled_rider
  = meridian_km (coords settled_rider)
      (centroid (group_of (recomputed meridian_km near_pair)
                   (assigned_stop_id settled_rider)))
  ∧ distance_to_stop_km settled_rider ≤ 1.
Proof.
  apply (enforce_max_distance_sound meridian_km split_at_half_degree
           1 near_pair (recomputed meridian_km near_pair) 1).
  - vm_compute. reflexivity.
  - apply elem_of_cons. left. reflexivity.
Defined.

Lemma enforce_max_distance_idempotent_witness :
  enforce_max_distance meridian_km split_at_half_degree 1
    (recomputed meridian_km near_pair) 1
  = Returned (recomputed meridian_km near_pair).
Proof.
  apply (enforce_max_distance_idempotent meridian_km split_at_half_degree
           1 0 near_pair (recomputed meridian_km near_pair) 1).
  vm_compute. reflexivity.
Defined.

Lemma enforce_max_distance_raises_witness :
  enforce_max_distance meridian_km split_at_half_degree 1 far_pair 1 = Raised.
Proof.
  apply (enforce_max_distance_raises meridian_km split_at_half_degree
           0 far_pair 1 0%Z (rider "a" 0 0)).
  - reflexivity.
  - intros r Hr. repeat (apply elem_of_cons in Hr as [->|Hr]);
      [| | apply elem_of_nil in Hr; contradiction]; reflexivity.
  - apply elem_of_cons. left. reflexivity.
  - vm_compute. reflexivity.
Defined.

End RepairFacts.

(** * Properties of the rest of the pipeline *)

(** ** The stop table *)

Module StopFacts.
Import Clustering Stops RepairFacts.

Lemma elem_of_unique l x : x ∈ unique l ↔ x ∈ l.
Proof.
  induction l as [|y l IH]; simpl; [reflexivity |].
  rewrite !elem_of_cons, list_elem_of_filter, IH.
  destruct (decide (x = y)); tauto.
Qed.

Lemma NoDup_unique l : NoDup (unique l).
Proof.
  induction l as [|y l IH]; simpl; [constructor |].
  constructor; [| apply NoDup_filter, IH].
  intros Hin. apply list_elem_of_filter in Hin as (Hne & _). contradiction.
Qed.

(** Riders counted cluster by cluster are all the riders. *)
Lemma groups_cover (df : list student_row) (ids : list Z) :
  NoDup ids →
  Py.sum ((λ id, Z.of_nat (length (group_of df id))) <$> ids)
  = Z.of_nat (length (filter (λ r, assigned_stop_id r ∈ ids) df)).
Proof.
  induction 1 as [|id ids Hnotin _ IH]; csimpl.
  - rewrite SplitFacts.filter_none; [reflexivity |].
    apply Forall_forall. intros r _ Hin. apply elem_of_nil in Hin. exact Hin.
  - unfold Py.sum in *. simpl. rewrite IH. clear IH. unfold group_of.
    induction df as [|r df IHdf]; [reflexivity |].
    rewrite !filter_cons.
    destruct (decide (assigned_stop_id r = id)) as [He|Hne],
             (decide (assigned_stop_id r ∈ ids)) as [Hin|Hout],
             (decide (assigned_stop_id r ∈ id :: ids)) as [Hin'|Hout'];
      simpl length; try lia; exfalso.
    all: try (apply Hout', elem_of_cons; auto; fail).
    + apply Hnotin. rewrite <- He. exact Hin.
    + apply elem_of_cons in Hin' as [?|?]; contradiction.
Qed.

Lemma cluster_stops_total (df : list student_row) :
  Py.sum (c_num_students
            <$> (stop_of_cluster df <$> unique (assigned_stop_id <$> df)))
  = Z.of_nat (length df).
Proof.
  rewrite <- list_fmap_compose.
  rewrite (groups_cover df _ (NoDup_unique _)).
  rewrite SplitFacts.filter_all; [reflexivity |].
  apply Forall_forall. intros r Hr. apply elem_of_unique, list_elem_of_fmap. eauto.
Qed.

(** X5 (clustering.py, [create_stop_df]): the stop table accounts for every rider once: the demands of the
    stops add up to the number of riders, every stop's demand is the length
    of its student list, and the depot row carries no rider. *)
Theorem create_stop_df_counts (df : list student_row) (school_coords : option (Qc * Qc)) :
  Py.sum (c_num_students <$> create_stop_df df school_coords)
  = Z.of_nat (length df)
  ∧ Forall (λ row, c_num_students row = Z.of_nat (length (c_student_ids row)))
           (create_stop_df df school_coords).
Proof.
  pose proof (cluster_stops_total df) as Hsum.
  assert (Hlen : Forall (λ row, c_num_students row
                                = Z.of_nat (length (c_student_ids row)))
                   (stop_of_cluster df <$> unique (assigned_stop_id <$> df))).
  { apply Forall_fmap, Forall_forall. intros id _. simpl.
    rewrite length_fmap. reflexivity. }
  unfold create_stop_df. destruct school_coords as [sc|].
  - split; [| constructor; [reflexivity | exact Hlen]].
    rewrite fmap_cons. unfold Py.sum in *. simpl. exact Hsum.
  - split; assumption.
Qed.

Local Open Scope Qc_scope.

Lemma NoDup_fmap_inj {A B} (f : A → B) (l : list A) (x y : A) :
  NoDup (f <$> l) → x ∈ l → y ∈ l → f x = f y → x = y.
Proof.
  induction l as [|a l IH]; intros Hnd Hx Hy Hf.
  - apply elem_of_nil in Hx. contradiction.
  - rewrite fmap_cons in Hnd. apply NoDup_cons in Hnd as (Hnotin & Hnd).
    apply elem_of_cons in Hx as [->|Hx], Hy as [->|Hy]; auto.
    + exfalso. apply Hnotin. rewrite Hf. apply list_elem_of_fmap. eauto.
    + exfalso. apply Hnotin. rewrite <- Hf. apply list_elem_of_fmap. eauto.
Qed.

Lemma filter_fmap_only {A B} (P : B → Prop) `{!∀ y, Decision (P y)}
    (f : A → B) (l : list A) (a : A) :
  NoDup l → a ∈ l → (∀ x, x ∈ l → (P (f x) ↔ x = a)) →
  filter P (f <$> l) = [f a].
Proof.
  induction l as [|x l IH]; intros Hnd Ha Hiff.
  - apply elem_of_nil in Ha. contradiction.
  - apply NoDup_cons in Hnd as (Hnotin & Hnd). rewrite fmap_cons.
    destruct (decide (P (f x))) as [HP|HnP].
    + assert (x = a) as -> by (apply Hiff; [apply elem_of_cons; auto | exact HP]).
      rewrite filter_cons_True by exact HP.
      f_equal. apply SplitFacts.filter_none, Forall_fmap, Forall_forall.
      intros y Hy HPy. apply Hiff in HPy; [| apply elem_of_cons; auto].
      subst. contradiction.
    + assert (Hne : x ≠ a).
      { intros ->. apply HnP, Hiff; [apply elem_of_cons; auto | reflexivity]. }
      apply elem_of_cons in Ha as [->|Ha]; [contradiction |].
      rewrite filter_cons_False by exact HnP.
      apply IH; [exact Hnd | exact Ha |].
      intros y Hy. apply Hiff, elem_of_cons. auto.
Qed.

(** The one stop that lists a rider is the stop of the rider's cluster. *)
Lemma listed_iff_own_cluster (df : list student_row) (r : student_row) (stop_id : Z) :
  NoDup (StudentID <$> df) → r ∈ df →
  StudentID r ∈ c_student_ids (stop_of_cluster df stop_id)
  ↔ stop_id = assigned_stop_id r.
Proof.
  intros Hnd Hr. simpl. rewrite list_elem_of_fmap. split.
  - intros (r' & Hid & Hr'). apply list_elem_of_filter in Hr' as (Hstop & Hr').
    assert (r = r') as <- by (eapply NoDup_fmap_inj; eauto).
    symmetry. exact Hstop.
  - intros ->. exists r. split; [reflexivity |].
    apply list_elem_of_filter. auto.
Qed.

(** X6 (clustering.py, [create_stop_df]): when student ids are unique, every rider is listed by exactly one
    row of the stop table, the stop of the rider's cluster. *)
Theorem rider_in_one_stop
    (df : list student_row) (school_coords : option (Qc * Qc)) (r : student_row) :
  NoDup (StudentID <$> df) →
  r ∈ df →
  filter (λ row, StudentID r ∈ c_student_ids row) (create_stop_df df school_coords)
  = [stop_of_cluster df (assigned_stop_id r)].
Proof.
  intros Hnd Hr.
  assert (Hstops : filter (λ row, StudentID r ∈ c_student_ids row)
                     (stop_of_cluster df <$> unique (assigned_stop_id <$> df))
                   = [stop_of_cluster df (assigned_stop_id r)]).
  { apply filter_fmap_only.
    - apply NoDup_unique.
    - apply elem_of_unique, list_elem_of_fmap. eauto.
    - intros id _. apply listed_iff_own_cluster; assumption. }
  unfold create_stop_df. destruct school_coords as [sc|]; [| exact Hstops].
  rewrite filter_cons_False; [exact Hstops |].
  simpl. intros Hin. apply elem_of_nil in Hin. exact Hin.
Qed.

Definition three_riders : list student_row :=
  [rider "a" 0 4; rider "b" (1 # 100) 7; rider "c" (1 # 50) 4].

Lemma rider_in_one_stop_witness :
  filter (λ row, StudentID (rider "c" (1 # 50) 4) ∈ c_student_ids row)
         (create_stop_df three_riders (Some (Q2Qc (1 # 2), 0)))
  = [stop_of_cluster three_riders 4].
Proof.
  apply (rider_in_one_stop three_riders (Some (Q2Qc (1 # 2), 0))
           (rider "c" (1 # 50) 4)).
  - apply (bool_decide_unpack _). vm_compute. exact I.
  - do 2 (apply elem_of_cons; right). apply elem_of_cons. left. reflexivity.
Defined.

(** The repair loop and the riders *)

(** Two rows for the same rider at the same home. *)
Definition same_rider (r r' : student_row) : Prop :=
  StudentID r' = StudentID r ∧ coords r' = coords r.

Lemma same_rider_refl_all df : Forall2 same_rider df df.
Proof. apply Forall_Forall2_diag, Forall_forall. intros r _. split; reflexivity. Qed.

Lemma same_rider_trans_all df1 df2 df3 :
  Forall2 same_rider df1 df2 → Forall2 same_rider df2 df3 →
  Forall2 same_rider df1 df3.
Proof.
  intros H12. revert df3. induction H12 as [|r1 r2 l1 l2 (Hi & Hc) _ IH];
    intros df3 H23; inversion H23 as [|? r3 ? l3 (Hi' & Hc') Hrest]; subst;
    constructor; [split; congruence | auto].
Qed.

Lemma relabel_same_riders stop_id base labels df df' :
  relabel stop_id base labels df = Some df' → Forall2 same_rider df df'.
Proof.
  revert labels df'. induction df as [|r df IH]; intros labels df' Hrun; simpl in Hrun.
  - injection Hrun as <-. constructor.
  - destruct (decide (assigned_stop_id r = stop_id)).
    + destruct labels as [|l ls]; [discriminate |].
      destruct (relabel stop_id base ls df) as [df0|] eqn:Hrest; [| discriminate].
      injection Hrun as <-. constructor; [split; reflexivity | eauto].
    + destruct (relabel stop_id base labels df) as [df0|] eqn:Hrest; [| discriminate].
      injection Hrun as <-. constructor; [split; reflexivity | eauto].
Qed.

Section Repair.

Variable haversine_km : Qc * Qc → Qc * Qc → Qc.
Variable KMeans_labels : Z → list (Qc * Qc) → list Z.

Lemma recomputed_same_riders df :
  Forall2 same_rider df (recomputed haversine_km df).
Proof.
  unfold recomputed. apply Forall2_fmap_r, Forall_Forall2_diag, Forall_forall.
  intros r _. split; reflexivity.
Qed.

Lemma split_clusters_same_riders max_distance_km problematic st st' :
  split_clusters KMeans_labels max_distance_km problematic st = Some st' →
  Forall2 same_rider st.1 st'.1.
Proof.
  revert st. induction problematic as [|c rest IH]; intros st Hrun; simpl in Hrun.
  - injection Hrun as <-. apply same_rider_refl_all.
  - destruct (split_cluster KMeans_labels max_distance_km st c) as [st1|] eqn:Hsplit;
      [| discriminate].
    cbn [mbind option_bind] in Hrun.
    eapply same_rider_trans_all; [| exact (IH _ Hrun)].
    unfold split_cluster in Hsplit.
    destruct (group_max st.1 c) as [m|]; [| discriminate].
    cbn [mbind option_bind] in Hsplit.
    case_guard; [| discriminate]. cbn [mbind option_bind] in Hsplit.
    destruct (KMeans_fit_predict _ _ _) as [labels|]; [| discriminate].
    cbn [mbind option_bind] in Hsplit.
    destruct (relabel c st.2 labels st.1) as [new_df|] eqn:Hrel; [| discriminate].
    cbn [mbind option_bind] in Hsplit. injection Hsplit as <-.
    eapply relabel_same_riders. exact Hrel.
Qed.

Lemma enforce_loop_same_riders fuel max_distance_km df df' :
  enforce_loop haversine_km KMeans_labels fuel max_distance_km df = Returned df' →
  Forall2 same_rider df df'.
Proof.
  revert df. induction fuel as [|fuel IH]; intros df Hrun; [discriminate |].
  cbn [enforce_loop] in Hrun. destruct df as [|r0 df0] eqn:Hdf; [discriminate |].
  rewrite <- Hdf in *. rewrite with_distances_recomputed in Hrun.
  cbv beta iota in Hrun.
  destruct (problematic_clusters max_distance_km (recomputed haversine_km df))
    as [|c cs] eqn:Hp.
  - injection Hrun as <-. apply recomputed_same_riders.
  - destruct (max_stop_id (recomputed haversine_km df)) as [max_id|];
      [| discriminate].
    cbn [mbind option_bind] in Hrun.
    destruct (split_clusters KMeans_labels max_distance_km (c :: cs) _)
      as [st|] eqn:Hsplit; [| discriminate].
    eapply same_rider_trans_all; [apply recomputed_same_riders |].
    eapply same_rider_trans_all; [| exact (IH _ Hrun)].
    exact (split_clusters_same_riders _ _ _ _ Hsplit).
Qed.

Lemma same_rider_ids df df' :
  Forall2 same_rider df df' → StudentID <$> df' = StudentID <$> df.
Proof.
  induction 1 as [|r r' l l' (Hid & _) _ IH]; [reflexivity |].
  rewrite !fmap_cons. congruence.
Qed.

(** X7 (clustering.py, [enforce_max_distance]): the repair loop only
    reassigns.  The table it returns has the
    same riders, in the same order, at the same homes; no rider is lost,
    duplicated or moved. *)
Theorem enforce_max_distance_keeps_riders
    (fuel : nat) (df df' : list student_row) (max_distance_km : Qc) :
  enforce_max_distance haversine_km KMeans_labels fuel df max_distance_km
  = Returned df' →
  StudentID <$> df' = StudentID <$> df
  ∧ coords <$> df' = coords <$> df.
Proof.
  intros Hrun. apply enforce_loop_same_riders in Hrun.
  induction Hrun as [|r r' l l' (Hid & Hc) _ (IHid & IHc)]; [split; reflexivity |].
  rewrite !fmap_cons. split; congruence.
Qed.

(** X8 (clustering.py, [enforce_max_distance] then [create_stop_df]):
    the stop table built from a table the repair loop returned keeps
    every rider within walking distance: when student ids are unique, a
    rider is within the bound of the coordinate of any stop that lists
    the rider. *)
Theorem stops_within_walking_distance
    (fuel : nat) (df df' : list student_row) (max_distance_km : Qc)
    (school_coords : option (Qc * Qc)) (r : student_row) (row : cluster_row) :
  enforce_max_distance haversine_km KMeans_labels fuel df max_distance_km
  = Returned df' →
  NoDup (StudentID <$> df) →
  r ∈ df' →
  row ∈ create_stop_df df' school_coords →
  StudentID r ∈ c_student_ids row →
  haversine_km (coords r) (c_latitude row, c_longitude row) ≤ max_distance_km.
Proof.
  intros Hrun Hnd Hr Hrow Hlisted.
  assert (Hnd' : NoDup (StudentID <$> df')).
  { rewrite (same_rider_ids df df' (enforce_loop_same_riders _ _ _ _ Hrun)).
    exact Hnd. }
  assert (Hthe : row = stop_of_cluster df' (assigned_stop_id r)).
  { assert (Hstop : row ∈ stop_of_cluster df' <$> unique (assigned_stop_id <$> df')).
    { unfold create_stop_df in Hrow. destruct school_coords as [sc|];
        [| exact Hrow].
      apply elem_of_cons in Hrow as [->|Hrow]; [| exact Hrow].
      simpl in Hlisted. apply elem_of_nil in Hlisted. contradiction. }
    apply list_elem_of_fmap in Hstop as (id & -> & _).
    apply (listed_iff_own_cluster df' r id Hnd' Hr) in Hlisted. subst id.
    reflexivity. }
  subst row.
  destruct (enforce_loop_settled _ _ _ _ _ _ Hrun) as (_ & Hall).
  destruct (Hall r Hr) as (Hd & Hle). rewrite Hd in Hle. exact Hle.
Qed.

End Repair.

(** The table a run returned ([[]] when it did not return). *)
Definition returned_table (o : outcome) : list student_row :=
  match o with
  | Returned df => df
  | Raised | OutOfFuel => []
  end.

Lemma returned_table_eq (o : outcome) :
  (if o is Returned _ then true else false) = true →
  o = Returned (returned_table o).
Proof. destruct o; intros H; [reflexivity | discriminate | discriminate]. Qed.

Lemma enforce_max_distance_keeps_riders_witness :
  StudentID <$> returned_table
                  (enforce_max_distance meridian_km first_versus_rest 5 two_streets 1)
  = StudentID <$> two_streets
  ∧ coords <$> returned_table
                 (enforce_max_distance meridian_km first_versus_rest 5 two_streets 1)
    = coords <$> two_streets.
Proof.
  apply (enforce_max_distance_keeps_riders meridian_km first_versus_rest
           5 two_streets _ 1).
  apply returned_table_eq. vm_compute. reflexivity.
Defined.

Lemma stops_within_walking_distance_witness :
  meridian_km (coords settled_rider)
    (c_latitude (stop_of_cluster (recomputed meridian_km near_pair) 0),
     c_longitude (stop_of_cluster (recomputed meridian_km near_pair) 0))
  ≤ 1.
Proof.
  apply (stops_within_walking_distance meridian_km split_at_half_degree
           1 near_pair (recomputed meridian_km near_pair) 1 None
           settled_rider (stop_of_cluster (recomputed meridian_km near_pair) 0)).
  - vm_compute. reflexivity.
  - apply (bool_decide_unpack _). vm_compute. exact I.
  - apply elem_of_cons. left. reflexivity.
  - apply list_elem_of_fmap. exists 0%Z. split; [reflexivity |].
    apply elem_of_unique. apply elem_of_cons. left. reflexivity.
  - apply list_elem_of_fmap. exists settled_rider. split; [reflexivity |].
    apply list_elem_of_filter. split; [reflexivity |].
    apply elem_of_cons. left. reflexivity.
Defined.

End StopFacts.

(** ** Splitting: what the whole table keeps *)

Module SplitTableFacts.
Import Routing PyFacts SplitFacts.

Lemma split_row_within bus_capacity row :
  num_students row ≤ bus_capacity → split_row bus_capacity row = Some [row].
Proof.
  intros Hle. unfold split_row.
  destruct (Z.leb_spec (num_students row) bus_capacity); [reflexivity | lia].
Qed.

Lemma split_within stop_df bus_capacity :
  Forall (λ r, num_students r ≤ bus_capacity) stop_df →
  split_large_stops stop_df bus_capacity = Some stop_df.
Proof.
  intros Hall. unfold split_large_stops.
  induction Hall as [|row rest Hrow _ IH]; [reflexivity |].
  cbn [mapM]. rewrite (split_row_within _ _ Hrow). cbn [mbind option_bind].
  destruct (mapM (split_row bus_capacity) rest) as [ps|]; [| discriminate].
  cbn in IH |- *. injection IH as IH. rewrite IH. reflexivity.
Qed.

Lemma split_row_demand bus_capacity row piece :
  0 ≤ bus_capacity →
  split_row bus_capacity row = Some piece →
  Py.sum (num_students <$> piece) = num_students row
  ∧ Forall (λ r, num_students r ≤ bus_capacity) piece.
Proof.
  intros Hcap Hrun.
  destruct (decide (bus_capacity = 0)) as [->|Hne].
  - unfold split_row in Hrun.
    destruct (Z.leb_spec (num_students row) 0) as [Hle|_]; [| discriminate].
    injection Hrun as <-. split; [unfold Py.sum; simpl; lia |].
    constructor; [exact Hle | constructor].
  - assert (Hpos : 0 < bus_capacity) by lia.
    destruct (split_row_spec bus_capacity row Hpos) as (piece' & Hp & Hrep & Hle).
    rewrite Hrun in Hp. injection Hp as <-. split; [| exact Hle].
    unfold replaces in Hrep.
    destruct (decide (num_students row ≤ bus_capacity)).
    + subst piece. unfold Py.sum. simpl. lia.
    + apply Hrep.
Qed.

Lemma split_pieces stop_df bus_capacity pieces :
  0 ≤ bus_capacity →
  mapM (split_row bus_capacity) stop_df = Some pieces →
  Py.sum (num_students <$> concat pieces) = Py.sum (num_students <$> stop_df)
  ∧ Forall (λ r, num_students r ≤ bus_capacity) (concat pieces).
Proof.
  intros Hcap Hrun. apply mapM_Some_1 in Hrun.
  induction Hrun as [|row piece rest pieces Hrow _ IH]; [split; [reflexivity | constructor] |].
  destruct (split_row_demand _ _ _ Hcap Hrow) as [Hsum Hle].
  destruct IH as [IHsum IHle]. split.
  - cbn [concat]. rewrite fmap_app, sum_app, Hsum, IHsum, fmap_cons.
    unfold Py.sum. simpl. lia.
  - cbn [concat]. apply Forall_app. split; assumption.
Qed.

(** X9 (routing.py, [split_large_stops]): with a capacity that is not
    negative the split table carries exactly the demand of the input
    table: the [num_students] column has the same sum before and after,
    whatever stops were split. *)
Theorem split_large_stops_keeps_demand stop_df bus_capacity out :
  0 ≤ bus_capacity →
  split_large_stops stop_df bus_capacity = Some out →
  Py.sum (num_students <$> out) = Py.sum (num_students <$> stop_df).
Proof.
  intros Hcap Hrun. unfold split_large_stops in Hrun.
  destruct (mapM (split_row bus_capacity) stop_df) as [pieces|] eqn:Hp;
    [| discriminate].
  injection Hrun as <-.
  apply (split_pieces stop_df bus_capacity pieces Hcap Hp).
Qed.

(** X10 (routing.py, [split_large_stops]): splitting is idempotent for
    a capacity that is not negative: the table it returns has no stop
    above the capacity, and a second call returns that table unchanged
    (no row is renamed or split again). *)
Theorem split_large_stops_idempotent stop_df bus_capacity out :
  0 ≤ bus_capacity →
  split_large_stops stop_df bus_capacity = Some out →
  split_large_stops out bus_capacity = Some out.
Proof.
  intros Hcap Hrun. apply split_within.
  unfold split_large_stops in Hrun.
  destruct (mapM (split_row bus_capacity) stop_df) as [pieces|] eqn:Hp;
    [| discriminate].
  injection Hrun as <-.
  apply (split_pieces stop_df bus_capacity pieces Hcap Hp).
Qed.

Lemma split_row_zero_capacity row :
  0 < num_students row → split_row 0 row = None.
Proof.
  intros Hpos. unfold split_row.
  destruct (Z.leb_spec (num_students row) 0); [lia |].
  unfold Py.ceil_div. simpl. reflexivity.
Qed.

Lemma split_row_negative_capacity bus_capacity row :
  bus_capacity < 0 → num_students row = 0 →
  split_row bus_capacity row = None.
Proof.
  intros Hneg Hzero. unfold split_row. rewrite Hzero.
  destruct (Z.leb_spec 0 bus_capacity); [lia |].
  unfold Py.ceil_div.
  destruct (Z.eqb_spec bus_capacity 0) as [|_]; [lia |].
  cbn [mbind option_bind]. rewrite Z.div_0_l by lia. reflexivity.
Qed.

Lemma split_raises stop_df bus_capacity row :
  row ∈ stop_df → split_row bus_capacity row = None →
  split_large_stops stop_df bus_capacity = None.
Proof.
  intros Hin Hrow. unfold split_large_stops.
  rewrite (mapM_None_2 (split_row bus_capacity) stop_df); [reflexivity |].
  apply Exists_exists. exists row. split; assumption.
Qed.

(** X11 (routing.py, [split_large_stops]): a capacity of zero or below
    is not rejected but runs into a division by zero: with capacity 0
    at any stop that has students ([ceil(demand / 0)]), with a negative
    capacity at any stop without students, such as the school row
    ([ceil(0 / capacity)] is 0 sub-stops, then [ceil(0 / 0)]).  A table
    holding both kinds of row is therefore never split for a capacity
    [≤ 0]. *)
Theorem split_large_stops_needs_positive_capacity
    stop_df bus_capacity depot stop :
  bus_capacity ≤ 0 →
  depot ∈ stop_df → num_students depot = 0 →
  stop ∈ stop_df → 0 < num_students stop →
  split_large_stops stop_df bus_capacity = None.
Proof.
  intros Hcap Hdepot Hzero Hstop Hpos.
  destruct (decide (bus_capacity = 0)) as [->|Hne].
  - apply (split_raises _ _ stop Hstop). apply split_row_zero_capacity, Hpos.
  - apply (split_raises _ _ depot Hdepot).
    apply split_row_negative_capacity; [lia | exact Hzero].
Qed.

(** A character of a string. *)
Fixpoint occurs (c : Ascii.ascii) (s : string) : bool :=
  match s with
  | EmptyString => false
  | String a s' => Ascii.eqb a c || occurs c s'
  end.

Lemma occurs_app c s1 s2 : occurs c (s1 +:+ s2) = occurs c s1 || occurs c s2.
Proof.
  induction s1 as [|a s1 IH]; [reflexivity |].
  change (String a s1 +:+ s2) with (String a (s1 +:+ s2)).
  cbn [occurs]. rewrite IH, orb_assoc. reflexivity.
Qed.

(** The id of a sub-stop holds an underscore: it is never ['school']. *)
Lemma sub_stop_not_school row demand n per i :
  stop_id (sub_stop row demand n per i) ≠ school.
Proof.
  cbn [sub_stop stop_id]. unfold school. intros Heq. injection Heq as Heq.
  apply (f_equal (occurs (Ascii.ascii_of_nat 95))) in Heq.
  rewrite !occurs_app in Heq.
  change (occurs (Ascii.ascii_of_nat 95) "_part") with true in Heq.
  change (occurs (Ascii.ascii_of_nat 95) "school") with false in Heq.
  rewrite orb_true_l, orb_true_r in Heq. discriminate.
Qed.

Lemma split_row_ids bus_capacity row piece :
  split_row bus_capacity row = Some piece →
  stop_id row ≠ school →
  Forall (λ r, stop_id r ≠ school) piece.
Proof.
  unfold split_row. intros Hrun Hrow.
  destruct (_ <=? _).
  - injection Hrun as <-. constructor; [exact Hrow | constructor].
  - destruct (Py.ceil_div _ bus_capacity) as [n|]; [| discriminate].
    cbn [mbind option_bind] in Hrun.
    destruct (Py.ceil_div _ n) as [per|]; [| discriminate].
    cbn [mbind option_bind] in Hrun. injection Hrun as <-.
    apply Forall_fmap, Forall_forall. intros i _. apply sub_stop_not_school.
Qed.

Lemma split_ids stop_df bus_capacity out :
  split_large_stops stop_df bus_capacity = Some out →
  Forall (λ r, stop_id r ≠ school) stop_df →
  Forall (λ r, stop_id r ≠ school) out.
Proof.
  unfold split_large_stops. intros Hrun Hall.
  destruct (mapM _ _) as [pieces|] eqn:Hp; [| discriminate].
  injection Hrun as <-. apply mapM_Some_1 in Hp.
  induction Hp as [|row piece rest pieces Hrow _ IH]; [constructor |].
  apply Forall_cons in Hall as [Hr Hall]. cbn [concat].
  apply Forall_app. split; [exact (split_row_ids _ _ _ Hrow Hr) | exact (IH Hall)].
Qed.

Lemma split_large_stops_keeps_demand_witness :
  Py.sum (num_students <$> [stop_of_100 ; school_row ; stop_of_two]) = 102
  ∧ ∃ out, split_large_stops [stop_of_100 ; school_row ; stop_of_two] 40 = Some out
           ∧ Py.sum (num_students <$> out) = 102.
Proof.
  split; [reflexivity |].
  destruct (split_large_stops [stop_of_100 ; school_row ; stop_of_two] 40)
    as [out|] eqn:Hrun; [| vm_compute in Hrun; discriminate].
  exists out. split; [reflexivity |].
  rewrite (split_large_stops_keeps_demand
             [stop_of_100 ; school_row ; stop_of_two] 40 out);
    [reflexivity | lia | exact Hrun].
Defined.

Lemma split_large_stops_idempotent_witness :
  ∃ out, split_large_stops [stop_of_100 ; school_row ; stop_of_two] 40 = Some out
         ∧ length out = 5%nat
         ∧ split_large_stops out 40 = Some out.
Proof.
  destruct (split_large_stops [stop_of_100 ; school_row ; stop_of_two] 40)
    as [out|] eqn:Hrun; [| vm_compute in Hrun; discriminate].
  exists out. split; [reflexivity |]. split.
  - vm_compute in Hrun. injection Hrun as <-. reflexivity.
  - apply (split_large_stops_idempotent [stop_of_100 ; school_row ; stop_of_two]);
      [lia | exact Hrun].
Defined.

Lemma split_large_stops_needs_positive_capacity_witness :
  split_large_stops [school_row ; stop_of_two] 0 = None
  ∧ split_large_stops [school_row ; stop_of_two] (-3) = None.
Proof.
  split.
  - apply (split_large_stops_needs_positive_capacity _ 0 school_row stop_of_two);
      [lia | | reflexivity | | vm_compute; reflexivity].
    + apply list_elem_of_here.
    + apply list_elem_of_further, list_elem_of_here.
  - apply (split_large_stops_needs_positive_capacity _ (-3) school_row stop_of_two);
      [lia | | reflexivity | | vm_compute; reflexivity].
    + apply list_elem_of_here.
    + apply list_elem_of_further, list_elem_of_here.
Defined.

End SplitTableFacts.

(** ** The router: what a returned plan guarantees *)

Module PlanFacts.
Import Routing PyFacts.

Lemma sum_cons x l : Py.sum (x :: l) = x + Py.sum l.
Proof. reflexivity. Qed.

Lemma sum_Permutation l k : l ≡ₚ k → Py.sum l = Py.sum k.
Proof.
  induction 1 as [|x l k _ IH|x y l|l k j _ IH1 _ IH2];
    rewrite ?sum_cons; lia.
Qed.

Lemma sum_nonneg l : Forall (λ x, 0 ≤ x) l → 0 ≤ Py.sum l.
Proof. induction 1 as [|x l Hx _ IH]; rewrite ?sum_cons; [reflexivity | lia]. Qed.

Lemma sum_le_const l c :
  Forall (λ x, x ≤ c) l → Py.sum l ≤ c * Z.of_nat (length l).
Proof.
  induction 1 as [|x l Hx _ IH]; [simpl; lia |].
  rewrite sum_cons. cbn [length]. lia.
Qed.

Lemma mapM_lookup_default (demands : list Z) (l : list nat) ds :
  mapM (λ i, demands !! i) l = Some ds →
  ds = (λ i, default 0 (demands !! i)) <$> l.
Proof.
  intros Hrun. apply mapM_Some_1 in Hrun.
  induction Hrun as [|i d l ds Hd _ IH]; [reflexivity |].
  csimpl. rewrite Hd, IH. reflexivity.
Qed.

Lemma indices_where_none (P : Z → bool) loads :
  Forall (λ load, P load = false) loads → indices_where P loads = [].
Proof.
  intros Hall. unfold indices_where.
  change (λ (i : nat) (load : Z), (i, load))
    with (λ (i : nat) (load : Z), ((0 + i)%nat, load)).
  generalize 0%nat as k.
  induction Hall as [|x l Hx _ IH]; intros k; [reflexivity |].
  cbn [imap]. cbn [omap list_omap snd fst]. rewrite Hx.
  rewrite <- (IH (S k)). f_equal. apply imap_ext. intros i y _. simpl.
  f_equal. lia.
Qed.

Section WithSolver.

Variable SolveWithParameters : routing_model → option (list (list nat)).
Variable dist_matrix : list (list Qc).
Variable demands : list Z.
Variable depot_index : nat.

(** The model the search registers when it tries [num_vehicles] buses. *)
Definition attempt (capacity num_vehicles : Z) : routing_model :=
  mk_routing_model (length dist_matrix) num_vehicles depot_index
    (distance_callback dist_matrix) (demand_callback demands)
    (replicate (Z.to_nat num_vehicles) capacity).

(** What the search holds: nothing, or the loaded routes of the attempt
    with some fleet size between [lo] and [hi]. *)
Definition from_attempt (capacity lo hi max_buses : Z) (st : search_state) : Prop :=
  best_routes st = []
  ∨ ∃ num_vehicles vehicle_routes,
      lo ≤ num_vehicles ≤ hi
      ∧ SolveWithParameters (attempt capacity num_vehicles) = Some vehicle_routes
      ∧ used_routes demands depot_index vehicle_routes = Some (best_routes st)
      ∧ best_num_buses st = Z.of_nat (length (best_routes st))
      ∧ best_num_buses st < max_buses.

Lemma fleet_search_from_attempt capacity tmin lo hi max_buses candidates st st' :
  Forall (λ n, lo ≤ n ≤ hi) candidates →
  best_num_buses st ≤ max_buses →
  from_attempt capacity lo hi max_buses st →
  fleet_search SolveWithParameters dist_matrix demands depot_index
    capacity tmin candidates st = Some st' →
  from_attempt capacity lo hi max_buses st'.
Proof.
  intros Hcand. revert st.
  induction Hcand as [|n rest Hn _ IH]; intros st Hmax Hst Hrun.
  - injection Hrun as <-. exact Hst.
  - cbn [fleet_search] in Hrun. fold (attempt capacity n) in Hrun.
    destruct (SolveWithParameters (attempt capacity n)) as [vr|] eqn:Hsol.
    + destruct (used_routes demands depot_index vr) as [routes|] eqn:Hused;
        [| discriminate].
      cbn [mbind option_bind] in Hrun. cbn [print best_num_buses] in Hrun.
      destruct (Z.ltb_spec (Z.of_nat (length routes)) (best_num_buses st)) as [Hlt|Hge].
      * destruct (Z.leb_spec (Z.of_nat (length routes)) (tmin + 2)).
        -- injection Hrun as <-. right. exists n, vr. cbn.
           repeat split; try assumption; lia.
        -- eapply IH; [| | exact Hrun]; [cbn; lia |].
           right. exists n, vr. cbn. repeat split; try assumption; lia.
      * eapply IH; [| | exact Hrun]; [exact Hmax | exact Hst].
    + eapply IH; [| | exact Hrun]; [exact Hmax | exact Hst].
Qed.

(** The routes [used_routes] keeps are routes of the solver with a
    positive load. *)
Lemma used_routes_loaded vehicle_routes routes :
  used_routes demands depot_index vehicle_routes = Some routes →
  Forall (λ r, r ∈ vehicle_routes
               ∧ ∃ load, route_load demands depot_index r = Some load ∧ 0 < load)
         routes.
Proof.
  revert routes. induction vehicle_routes as [|r rest IH]; intros routes Hrun.
  - injection Hrun as <-. constructor.
  - cbn [used_routes] in Hrun.
    destruct (route_load demands depot_index r) as [load|] eqn:Hload; [| discriminate].
    destruct (used_routes demands depot_index rest) as [routes'|]; [| discriminate].
    cbn [mbind option_bind] in Hrun.
    assert (Hrest : Forall (λ r0, r0 ∈ r :: rest
                ∧ ∃ load, route_load demands depot_index r0 = Some load ∧ 0 < load)
              routes').
    { eapply Forall_impl; [apply IH; reflexivity |].
      intros r0 [Hin Hl]. split; [right; exact Hin | exact Hl]. }
    destruct (Z.ltb_spec 0 load); injection Hrun as <-; [| exact Hrest].
    constructor; [| exact Hrest].
    split; [left | exists load; split; assumption].
Qed.

Lemma loads_of_loaded (Q : list nat → Prop) routes :
  Forall (λ r, Q r ∧ ∃ load, route_load demands depot_index r = Some load ∧ 0 < load)
         routes →
  ∃ loads, mapM (route_load demands depot_index) routes = Some loads
           ∧ Forall (λ load, 0 < load) loads.
Proof.
  induction 1 as [|r routes (_ & load & Hload & Hpos) _ (loads & Hloads & Hall)].
  - exists []. split; [reflexivity | constructor].
  - exists (load :: loads). split.
    + cbn [mapM]. rewrite Hload. cbn [mbind option_bind]. rewrite Hloads. reflexivity.
    + constructor; assumption.
Qed.

(** How a returned plan is made up. *)
Lemma returned_plan vehicle_capacities max_buses min_buses routes m log :
  solve_vrp_with_fleet_limit SolveWithParameters dist_matrix demands
    depot_index vehicle_capacities max_buses min_buses
  = Some (routes, Some m, log) →
  ∃ capacity st,
    vehicle_capacities !! 0%nat = Some capacity
    ∧ capacity ≠ 0
    ∧ from_attempt capacity
        (Z.max (ceil (Py.sum demands) capacity)
               (default (Z.max 1 (max_buses / 2)) min_buses))
        max_buses max_buses st
    ∧ routes = best_routes st
    ∧ routes ≠ []
    ∧ mapM (route_load demands depot_index) routes = Some (bus_loads m)
    ∧ buses_used m = best_num_buses st
    ∧ buses_requested m = max_buses
    ∧ theoretical_minimum m = ceil (Py.sum demands) capacity
    ∧ total_students m = Py.sum demands
    ∧ overloaded_buses m = indices_where (λ load, capacity <? load) (bus_loads m)
    ∧ underutilized_buses m
      = indices_where
          (λ load, bool_decide (Qc_of_Z load < Qc_of_Z capacity * Q2Qc (1 # 2))%Qc)
          (bus_loads m).
Proof.
  unfold solve_vrp_with_fleet_limit. intros Hrun.
  destruct (vehicle_capacities !! 0%nat) as [capacity|]; [| discriminate].
  cbn [mbind option_bind] in Hrun.
  unfold Py.ceil_div in Hrun.
  destruct (Z.eqb_spec capacity 0) as [|Hne]; [discriminate |].
  cbn [mbind option_bind] in Hrun. fold (ceil (Py.sum demands) capacity) in Hrun.
  destruct (fleet_search _ _ _ _ _ _ _ _) as [st|] eqn:Hsearch; [| discriminate].
  cbn [mbind option_bind] in Hrun.
  apply fleet_search_from_attempt
    with (lo := Z.max (ceil (Py.sum demands) capacity)
                      (default (Z.max 1 (max_buses / 2)) min_buses))
         (hi := max_buses) (max_buses := max_buses) in Hsearch.
  2:{ apply Forall_forall. intros n Hn. unfold Py.range2 in Hn.
      apply list_elem_of_fmap in Hn as (k & -> & Hk).
      apply elem_of_seq in Hk. lia. }
  2:{ cbn. lia. }
  2:{ left. reflexivity. }
  exists capacity, st.
  destruct (best_routes st) as [|route rest] eqn:Hbest; [discriminate |].
  destruct (mapM (route_load demands depot_index) (route :: rest)) as [loads|]
    eqn:Hloads; [| discriminate].
  cbn [mbind option_bind] in Hrun. case_guard; [| discriminate].
  cbn [mbind option_bind] in Hrun.
  injection Hrun as <- <- _. cbn [bus_loads buses_used buses_requested
    theoretical_minimum total_students overloaded_buses underutilized_buses].
  repeat split; try reflexivity; try assumption. discriminate.
Qed.

(** The loads of a returned plan. *)
Lemma returned_plan_loads vehicle_capacities max_buses min_buses routes m log :
  solve_vrp_with_fleet_limit SolveWithParameters dist_matrix demands
    depot_index vehicle_capacities max_buses min_buses
  = Some (routes, Some m, log) →
  mapM (route_load demands depot_index) routes = Some (bus_loads m)
  ∧ Forall (λ load, 0 < load) (bus_loads m)
  ∧ buses_used m = Z.of_nat (length routes)
  ∧ buses_used m < max_buses
  ∧ total_students m = Py.sum demands.
Proof.
  intros Hrun.
  apply returned_plan in Hrun
    as (capacity & st & _ & _ & Hst & -> & Hne & Hloads & Hused & _ & _
        & Htotal & _ & _).
  destruct Hst as [Hnil|(n & vr & _ & _ & Hroutes & Hnum & Hlt)];
    [contradiction |].
  split; [exact Hloads |]. split; [| rewrite Hused; auto].
  destruct (loads_of_loaded _ _ (used_routes_loaded vr _ Hroutes))
    as (loads & Hloads' & Hpos).
  rewrite Hloads in Hloads'. injection Hloads' as <-. exact Hpos.
Qed.

(** Routes only come with metrics. *)
Lemma returned_routes_metrics vehicle_capacities max_buses min_buses routes om log :
  solve_vrp_with_fleet_limit SolveWithParameters dist_matrix demands
    depot_index vehicle_capacities max_buses min_buses
  = Some (routes, om, log) →
  routes ≠ [] → ∃ m, om = Some m.
Proof.
  unfold solve_vrp_with_fleet_limit. intros Hrun Hne.
  destruct (vehicle_capacities !! 0%nat) as [capacity|]; [| discriminate].
  cbn [mbind option_bind] in Hrun.
  destruct (Py.ceil_div _ _) as [tmin|]; [| discriminate].
  cbn [mbind option_bind] in Hrun.
  destruct (fleet_search _ _ _ _ _ _ _ _) as [st|]; [| discriminate].
  cbn [mbind option_bind] in Hrun.
  destruct (best_routes st) as [|route rest].
  - injection Hrun as <- _ _. contradiction.
  - destruct (mapM _ _) as [loads|]; [| discriminate].
    cbn [mbind option_bind] in Hrun. case_guard; [| discriminate].
    cbn [mbind option_bind] in Hrun. injection Hrun as _ <- _.
    eexists. reflexivity.
Qed.

(** No fleet size is tried when the fleet cannot carry the demand. *)
Lemma small_fleet_no_routes vehicle_capacities capacity max_buses min_buses :
  vehicle_capacities !! 0%nat = Some capacity →
  capacity ≠ 0 →
  max_buses < ceil (Py.sum demands) capacity →
  ∃ log,
    solve_vrp_with_fleet_limit SolveWithParameters dist_matrix demands
      depot_index vehicle_capacities max_buses min_buses
    = Some ([], None, log).
Proof.
  intros Hcap Hne Hlt. unfold solve_vrp_with_fleet_limit.
  rewrite Hcap. cbn [mbind option_bind].
  rewrite ceil_div_Some by assumption. cbn [mbind option_bind].
  rewrite range2_empty by lia. cbn. eexists. reflexivity.
Qed.

Lemma route_load_nonneg route load :
  Forall (λ d, 0 ≤ d) demands →
  route_load demands depot_index route = Some load → 0 ≤ load.
Proof.
  intros Hdem Hload. unfold route_load in Hload.
  destruct (mapM _ _) as [ds|] eqn:Hds; [| discriminate].
  injection Hload as <-. apply sum_nonneg.
  apply mapM_Some_1 in Hds.
  induction Hds as [|i d l ds Hd _ IH]; constructor; [| exact IH].
  rewrite Forall_forall in Hdem. apply Hdem.
  apply list_elem_of_lookup. exists i. exact Hd.
Qed.

(** Dropping the routes without load does not change the total load. *)
Lemma used_routes_sum vehicle_routes routes loads :
  Forall (λ d, 0 ≤ d) demands →
  used_routes demands depot_index vehicle_routes = Some routes →
  mapM (route_load demands depot_index) routes = Some loads →
  ∃ all_loads,
    mapM (route_load demands depot_index) vehicle_routes = Some all_loads
    ∧ Py.sum loads = Py.sum all_loads.
Proof.
  intros Hdem. revert routes loads.
  induction vehicle_routes as [|r rest IH]; intros routes loads Hused Hloads.
  - injection Hused as <-. injection Hloads as <-. exists []. split; reflexivity.
  - cbn [used_routes] in Hused.
    destruct (route_load demands depot_index r) as [load|] eqn:Hload; [| discriminate].
    destruct (used_routes demands depot_index rest) as [routes'|]; [| discriminate].
    cbn [mbind option_bind] in Hused.
    pose proof (route_load_nonneg r load Hdem Hload) as Hnonneg.
    destruct (Z.ltb_spec 0 load) as [Hpos|Hzero]; injection Hused as <-.
    + cbn [mapM] in Hloads. rewrite Hload in Hloads.
      cbn [mbind option_bind] in Hloads.
      destruct (mapM (route_load demands depot_index) routes') as [loads'|] eqn:Hl';
        [| discriminate].
      injection Hloads as <-.
      destruct (IH routes' loads' eq_refl Hl') as (all_loads & Hall & Hsum).
      exists (load :: all_loads). split.
      * cbn [mapM]. rewrite Hload. cbn [mbind option_bind]. rewrite Hall. reflexivity.
      * rewrite !sum_cons, Hsum. reflexivity.
    + destruct (IH routes' loads eq_refl Hloads) as (all_loads & Hall & Hsum).
      exists (load :: all_loads). split.
      * cbn [mapM]. rewrite Hload. cbn [mbind option_bind]. rewrite Hall. reflexivity.
      * rewrite sum_cons, Hsum. lia.
Qed.

(** The loads of all routes add up the demand of every visit of a stop. *)
Lemma loads_sum_visits vehicle_routes all_loads :
  mapM (route_load demands depot_index) vehicle_routes = Some all_loads →
  Py.sum all_loads
  = Py.sum ((λ i, default 0 (demands !! i))
              <$> filter (λ i, i ≠ depot_index) (concat vehicle_routes)).
Proof.
  intros Hrun. apply mapM_Some_1 in Hrun.
  induction Hrun as [|r load rest loads Hload _ IH]; [reflexivity |].
  cbn [concat]. rewrite filter_app, fmap_app, sum_app, sum_cons, IH.
  f_equal. unfold route_load in Hload.
  destruct (mapM _ _) as [ds|] eqn:Hds; [| discriminate].
  injection Hload as <-. rewrite (mapM_lookup_default _ _ _ Hds). reflexivity.
Qed.

Lemma sum_all_stops :
  demands !! depot_index = Some 0 →
  Py.sum ((λ i, default 0 (demands !! i))
            <$> filter (λ i, i ≠ depot_index) (seq 0 (length demands)))
  = Py.sum demands.
Proof.
  intros Hdepot.
  assert (Hskip : ∀ l : list nat,
             Py.sum ((λ i, default 0 (demands !! i))
                       <$> filter (λ i, i ≠ depot_index) l)
             = Py.sum ((λ i, default 0 (demands !! i)) <$> l)).
  { induction l as [|i l IH]; [reflexivity |].
    rewrite filter_cons. destruct (decide (i ≠ depot_index)) as [Hne|Heq].
    - rewrite !fmap_cons, !sum_cons, IH. reflexivity.
    - apply dec_stable in Heq. subst i.
      rewrite fmap_cons, sum_cons, IH, Hdepot. reflexivity. }
  rewrite Hskip. f_equal. apply list_eq. intros i.
  rewrite list_lookup_fmap.
  destruct (decide (i < length demands)%nat) as [Hlt|Hge].
  - rewrite lookup_seq_lt by assumption. simpl.
    destruct (lookup_lt_is_Some_2 demands i Hlt) as [d Hd]. rewrite Hd. reflexivity.
  - rewrite lookup_seq_ge by lia. rewrite lookup_ge_None_2 by lia. reflexivity.
Qed.

(** What the solver promises for the models of the search: every stop
    other than the depot is visited exactly once, and no vehicle carries
    more than the capacity of the [Capacity] dimension. *)
Definition capacitated (capacity : Z) : Prop :=
  ∀ num_vehicles vehicle_routes,
    SolveWithParameters (attempt capacity num_vehicles) = Some vehicle_routes →
    filter (λ i, i ≠ depot_index) (concat vehicle_routes)
      ≡ₚ filter (λ i, i ≠ depot_index) (seq 0 (length dist_matrix))
    ∧ Forall (λ r, ∀ load, route_load demands depot_index r = Some load →
                           load ≤ capacity)
             vehicle_routes.

(** X12 (routing.py, [solve_vrp_with_fleet_limit]): with a solver that
    keeps its contract, a returned plan seats every student: the bus
    loads add up to the total demand, no bus is reported overloaded,
    and the number of buses used is at least the theoretical minimum. *)
Theorem returned_plan_seats_everyone
    vehicle_capacities capacity max_buses min_buses routes m log :
  vehicle_capacities !! 0%nat = Some capacity →
  0 < capacity →
  length dist_matrix = length demands →
  Forall (λ d, 0 ≤ d) demands →
  demands !! depot_index = Some 0 →
  capacitated capacity →
  solve_vrp_with_fleet_limit SolveWithParameters dist_matrix demands
    depot_index vehicle_capacities max_buses min_buses
  = Some (routes, Some m, log) →
  Py.sum (bus_loads m) = total_students m
  ∧ overloaded_buses m = []
  ∧ theoretical_minimum m ≤ buses_used m.
Proof.
  intros Hcap Hpos Hlen Hdem Hdepot Hsolver Hrun.
  apply returned_plan in Hrun
    as (capacity' & st & Hcap' & _ & Hst & -> & Hne & Hloads & Hused & _
        & Htmin & Htotal & Hover & _).
  rewrite Hcap in Hcap'. injection Hcap' as <-.
  destruct Hst as [Hnil|(n & vr & _ & Hsol & Hroutes & Hnum & _)];
    [contradiction |].
  destruct (Hsolver n vr Hsol) as [Hvisit Hwithin].
  assert (Hle : Forall (λ load, load ≤ capacity) (bus_loads m)).
  { pose proof (used_routes_loaded vr _ Hroutes) as Hin.
    apply mapM_Some_1 in Hloads. rewrite Forall_forall in Hin, Hwithin.
    apply Forall_forall. intros load Hload.
    apply list_elem_of_lookup in Hload as [i Hi].
    destruct (Forall2_lookup_r _ _ _ _ _ Hloads Hi) as (r & Hr & Hrl).
    apply (Hwithin r); [| exact Hrl].
    apply Hin. apply list_elem_of_lookup. exists i. exact Hr. }
  assert (Hsum : Py.sum (bus_loads m) = Py.sum demands).
  { destruct (used_routes_sum vr _ _ Hdem Hroutes Hloads) as (all_loads & Hall & ->).
    rewrite (loads_sum_visits vr all_loads Hall).
    rewrite <- (sum_all_stops Hdepot), <- Hlen.
    apply sum_Permutation, fmap_Permutation, Hvisit. }
  split; [rewrite Htotal; exact Hsum |]. split.
  - rewrite Hover. apply indices_where_none.
    eapply Forall_impl; [exact Hle |]. intros load Hl. cbv beta in Hl |- *.
    destruct (Z.ltb_spec capacity load); [lia | reflexivity].
  - rewrite Htmin, Hused, Hnum.
    pose proof (ceil_bounds (Py.sum demands) capacity Hpos) as Hceil.
    pose proof (sum_le_const _ _ Hle) as Hbound.
    apply mapM_Some_1, Forall2_length in Hloads.
    rewrite <- Hloads in Hbound. rewrite Hsum in Hbound. nia.
Qed.

Lemma route_load_is_Some route :
  Forall (λ i, (i < length demands)%nat) route →
  is_Some (route_load demands depot_index route).
Proof.
  intros Hin. unfold route_load.
  assert (Hsome : is_Some (mapM (λ i, demands !! i)
                             (filter (λ i, i ≠ depot_index) route))).
  { apply mapM_is_Some. apply Forall_forall. intros i Hi.
    apply list_elem_of_filter in Hi as [_ Hi].
    rewrite Forall_forall in Hin. apply lookup_lt_is_Some_2, Hin, Hi. }
  destruct Hsome as [ds ->]. eexists. reflexivity.
Qed.

Lemma used_routes_is_Some vehicle_routes :
  Forall (Forall (λ i, (i < length demands)%nat)) vehicle_routes →
  is_Some (used_routes demands depot_index vehicle_routes).
Proof.
  induction 1 as [|r rest Hr _ [routes IH]]; [eexists; reflexivity |].
  destruct (route_load_is_Some r Hr) as [load Hload].
  cbn [used_routes]. rewrite Hload, IH. eexists. reflexivity.
Qed.

(** The node sequences the solver hands back name stops of the problem. *)
Definition names_stops : Prop :=
  ∀ model vehicle_routes,
    SolveWithParameters model = Some vehicle_routes →
    Forall (Forall (λ i, (i < length demands)%nat)) vehicle_routes.

Lemma fleet_search_is_Some capacity tmin candidates st :
  names_stops →
  is_Some (fleet_search SolveWithParameters dist_matrix demands depot_index
             capacity tmin candidates st).
Proof.
  intros Hsolver. revert st.
  induction candidates as [|n rest IH]; intros st; [eexists; reflexivity |].
  cbn [fleet_search].
  destruct (SolveWithParameters _) as [vr|] eqn:Hsol; [| apply IH].
  destruct (used_routes_is_Some vr (Hsolver _ _ Hsol)) as [routes ->].
  cbn [mbind option_bind].
  destruct (_ <? _); [| apply IH].
  destruct (_ <=? _); [eexists; reflexivity | apply IH].
Qed.

(** X13 (routing.py, [solve_vrp_with_fleet_limit]): the router raises
    for one reason only, the capacity it divides by: an empty
    [vehicle_capacities] ([IndexError]) or a first capacity of 0
    ([ZeroDivisionError]).  In every other case it returns, whatever the
    solver finds; in particular the division by [max_buses] and by the
    number of loads in the metrics never fails. *)
Theorem router_raises_only_without_capacity
    vehicle_capacities max_buses min_buses :
  names_stops →
  is_Some (solve_vrp_with_fleet_limit SolveWithParameters dist_matrix demands
             depot_index vehicle_capacities max_buses min_buses)
  ↔ ∃ capacity, vehicle_capacities !! 0%nat = Some capacity ∧ capacity ≠ 0.
Proof.
  intros Hsolver. unfold solve_vrp_with_fleet_limit. split.
  - intros [res Hrun].
    destruct (vehicle_capacities !! 0%nat) as [capacity|]; [| discriminate].
    exists capacity. split; [reflexivity |].
    intros ->. discriminate.
  - intros (capacity & -> & Hne). cbn [mbind option_bind].
    rewrite ceil_div_Some by assumption. cbn [mbind option_bind].
    match goal with
    | |- context [fleet_search ?S ?D ?d ?i ?c ?t ?cs ?s] =>
        destruct (fleet_search_is_Some c t cs s Hsolver) as [st Hsearch];
        pose proof Hsearch as Hkept
    end.
    rewrite Hsearch. cbn [mbind option_bind].
    apply fleet_search_from_attempt
      with (lo := Z.max (ceil (Py.sum demands) capacity)
                        (default (Z.max 1 (max_buses / 2)) min_buses))
           (hi := max_buses) (max_buses := max_buses) in Hkept.
    2:{ apply Forall_forall. intros n Hn. unfold Py.range2 in Hn.
        apply list_elem_of_fmap in Hn as (k & -> & Hk).
        apply elem_of_seq in Hk. lia. }
    2:{ cbn. lia. }
    2:{ left. reflexivity. }
    destruct (best_routes st) as [|route rest] eqn:Hbest; [eexists; reflexivity |].
    destruct Hkept as [Hnil|(n & vr & _ & _ & Hroutes & Hnum & Hlt)];
      [congruence |].
    rewrite Hbest in Hroutes, Hnum.
    destruct (loads_of_loaded _ _ (used_routes_loaded vr _ Hroutes))
      as (loads & -> & _).
    cbn [mbind option_bind]. cbn [length] in Hnum.
    case_guard; [eexists; reflexivity | lia].
Qed.

End WithSolver.

Lemma one_bus_per_stop_capacitated :
  capacitated FleetFacts.one_bus_per_stop (FleetFacts.one_km_apart 3)
    [0; 40; 40] 0 40.
Proof.
  intros n vr Hsol. unfold FleetFacts.one_bus_per_stop in Hsol.
  cbn [attempt rm_num_vehicles] in Hsol.
  destruct (n =? 2); [| discriminate]. injection Hsol as <-. split.
  - vm_compute. reflexivity.
  - repeat constructor; intros load Hload; vm_compute in Hload;
      injection Hload as <-; lia.
Qed.

Lemma one_bus_per_stop_names_stops :
  names_stops FleetFacts.one_bus_per_stop [0; 40; 40].
Proof.
  intros model vr Hsol. unfold FleetFacts.one_bus_per_stop in Hsol.
  destruct (_ =? _); [| discriminate]. injection Hsol as <-.
  repeat constructor.
Qed.

Lemma returned_plan_seats_everyone_witness :
  ∃ routes m log,
    solve_vrp_with_fleet_limit FleetFacts.one_bus_per_stop
      (FleetFacts.one_km_apart 3) [0; 40; 40] 0 [40; 40; 40] 3 None
    = Some (routes, Some m, log)
    ∧ Py.sum (bus_loads m) = total_students m
    ∧ overloaded_buses m = []
    ∧ theoretical_minimum m ≤ buses_used m.
Proof.
  destruct (solve_vrp_with_fleet_limit FleetFacts.one_bus_per_stop
              (FleetFacts.one_km_apart 3) [0; 40; 40] 0 [40; 40; 40] 3 None)
    as [[[routes [m|]] log]|] eqn:Hrun;
    [| vm_compute in Hrun; discriminate | vm_compute in Hrun; discriminate].
  exists routes, m, log. split; [reflexivity |].
  apply (returned_plan_seats_everyone FleetFacts.one_bus_per_stop
           (FleetFacts.one_km_apart 3) [0; 40; 40] 0 [40; 40; 40] 40 3 None
           routes m log).
  - reflexivity.
  - lia.
  - reflexivity.
  - repeat constructor; lia.
  - reflexivity.
  - exact one_bus_per_stop_capacitated.
  - exact Hrun.
Defined.

Lemma router_raises_only_without_capacity_witness :
  is_Some (solve_vrp_with_fleet_limit FleetFacts.one_bus_per_stop
             (FleetFacts.one_km_apart 3) [0; 40; 40] 0 [40; 40; 40] 3 None)
  ↔ ∃ capacity, [40; 40; 40] !! 0%nat = Some capacity ∧ capacity ≠ 0.
Proof.
  apply (router_raises_only_without_capacity FleetFacts.one_bus_per_stop
           (FleetFacts.one_km_apart 3) [0; 40; 40] 0 [40; 40; 40] 3 None).
  exact one_bus_per_stop_names_stops.
Defined.

End PlanFacts.

(** ** The distance matrix: shape and sign *)

Module MatrixShapeFacts.
Import Routing PyFacts MatrixFacts.

Lemma for_enumerate_invariant {A B} (Q : A → Prop) (body : nat → B → A → A)
    (i : nat) (xs : list B) (acc : A) :
  (∀ i x acc, Q acc → Q (body i x acc)) →
  Q acc → Q (Py.for_enumerate body i xs acc).
Proof.
  intros Hbody. revert i acc.
  induction xs as [|x xs IH]; intros i acc Hacc; [exact Hacc |].
  cbn [Py.for_enumerate]. apply IH, Hbody, Hacc.
Qed.

Definition square {A} (n : nat) (M : list (list A)) : Prop :=
  length M = n ∧ Forall (λ row, length row = n) M.

Lemma fill_row_length distances stop_nodes row :
  length (fill_row distances stop_nodes row) = length row.
Proof.
  unfold fill_row.
  apply (for_enumerate_invariant (λ r, length r = length row)); [| reflexivity].
  intros j t acc Hacc. destruct (distances t); [| exact Hacc].
  rewrite length_insert. exact Hacc.
Qed.

Lemma fill_rows_square G stop_nodes n dist_matrix :
  square n dist_matrix → square n (fill_rows G stop_nodes dist_matrix).
Proof.
  unfold fill_rows. apply for_enumerate_invariant.
  intros i s acc [Hlen Hrows].
  destruct (single_source_dijkstra_path_length G s) as [distances|];
    [| split; assumption].
  split; [rewrite length_alter; exact Hlen |].
  apply Forall_alter; [exact Hrows |].
  intros row _ Hrow. rewrite fill_row_length. exact Hrow.
Qed.

Lemma build_distance_matrix_square G stop_nodes :
  square (length stop_nodes) (build_distance_matrix G stop_nodes).
Proof.
  unfold build_distance_matrix, astype_int, nan_to_num.
  rewrite fill_diagonal_zeros.
  destruct (fill_rows_square G stop_nodes (length stop_nodes)
              (np_zeros (length stop_nodes))) as [Hlen Hrows].
  { unfold np_zeros. split; [apply length_replicate |].
    apply Forall_replicate. apply length_replicate. }
  split; [rewrite !length_fmap; exact Hlen |].
  rewrite !Forall_fmap. eapply Forall_impl; [exact Hrows |].
  intros row Hrow. cbn. rewrite !length_fmap. exact Hrow.
Qed.

Lemma int_of_float_nonneg (x : Qc) : (0 ≤ x)%Qc → Py.int_of_float x = Qfloor x.
Proof.
  intros Hx. unfold Py.int_of_float.
  destruct (decide (0 ≤ x)%Qc); [reflexivity | contradiction].
Qed.

Lemma Qfloor_nonneg (x : Qc) : (0 ≤ x)%Qc → 0 ≤ Qfloor x.
Proof.
  intros Hx. change 0 with (Qfloor 0). apply Qfloor_resp_le. exact Hx.
Qed.

Lemma entry_nonneg G s t : nonneg_lengths G → 0 ≤ entry G s t.
Proof.
  intros Hnn. unfold entry.
  destruct (single_source_dijkstra_path_length G s) as [distances|] eqn:Hrun;
    [| rewrite zero_entry; reflexivity].
  pose proof (dijkstra_contract G s distances Hnn Hrun t) as [Hsome _].
  destruct (distances t) as [m|]; [| rewrite zero_entry; reflexivity].
  destruct (proj1 (Hsome m) eq_refl) as [[n' Hn'] _].
  pose proof (walk_nonneg G n' s t m Hnn Hn') as Hm.
  cbn [nan_to_num_entry]. rewrite int_of_float_nonneg by exact Hm.
  apply Qfloor_nonneg, Hm.
Qed.


(** X16 (routing.py, [build_distance_matrix]): the matrix depends on the
    graph nodes of the stops only.  Two stops on the same node, such as
    the sub-stops of a split stop, are at distance 0 from each other and
    have the same distance to every stop. *)
Theorem stops_on_one_node_coincide
    (G : graph) (stop_nodes : list Z) (i i' : nat) (s : Z) :
  nonneg_lengths G →
  stop_nodes !! i = Some s →
  stop_nodes !! i' = Some s →
  build_distance_matrix G stop_nodes !! i ≫= (.!! i') = Some 0
  ∧ build_distance_matrix G stop_nodes !! i
    = build_distance_matrix G stop_nodes !! i'.
Proof.
  intros Hnn Hi Hi'. split.
  - rewrite matrix_lookup, Hi, Hi'. cbn [mbind option_bind].
    rewrite entry_diag by exact Hnn. reflexivity.
  - destruct (build_distance_matrix_square G stop_nodes) as [Hlen Hrows].
    destruct (lookup_lt_is_Some_2 (build_distance_matrix G stop_nodes) i)
      as [row Hrow]; [rewrite Hlen; eapply lookup_lt_Some, Hi |].
    destruct (lookup_lt_is_Some_2 (build_distance_matrix G stop_nodes) i')
      as [row' Hrow']; [rewrite Hlen; eapply lookup_lt_Some, Hi' |].
    rewrite Hrow, Hrow'. f_equal. apply list_eq. intros j.
    pose proof (matrix_lookup G stop_nodes i j) as Hj.
    pose proof (matrix_lookup G stop_nodes i' j) as Hj'.
    rewrite Hrow, Hi in Hj. rewrite Hrow', Hi' in Hj'.
    cbn [mbind option_bind] in Hj, Hj'. rewrite Hj, Hj'. reflexivity.
Qed.

(** Two stops on node 1 and one on node 2, 500.7 m along the only road. *)
Definition one_road : graph :=
  mk_graph false [] [(1, 2, Q2Qc (5007 # 10))].

Lemma one_road_nonneg : nonneg_lengths one_road.
Proof. repeat constructor. vm_compute. discriminate. Qed.


Lemma stops_on_one_node_coincide_witness :
  build_distance_matrix one_road [1; 1; 2] !! 0%nat ≫= (.!! 1%nat) = Some 0
  ∧ build_distance_matrix one_road [1; 1; 2] !! 0%nat
    = build_distance_matrix one_road [1; 1; 2] !! 1%nat.
Proof.
  apply (stops_on_one_node_coincide one_road [1; 1; 2] 0 1 1).
  - exact one_road_nonneg.
  - reflexivity.
  - reflexivity.
Defined.

End MatrixShapeFacts.

(** ** The pipeline *)

Module PipelineFacts.
Import Routing Clustering Stops Pipeline PyFacts.

Section Run.

Variable haversine_km : Qc * Qc → Qc * Qc → Qc.
Variable KMeans_inertia : Z → list (Qc * Qc) → Qc.
Variable KneeLocator_elbow : list Z → list Qc → option Z.
Variable KMeans_fit : Z → list (Qc * Qc) → kmeans_model.
Variable KMeans_labels : Z → list (Qc * Qc) → list Z.
Variable graph_from_point : Qc * Qc → option graph.
Variable nearest_nodes : graph → Qc → Qc → Z.
Variable node_y node_x : graph → Z → Qc.
Variable SolveWithParameters : routing_model → option (list (list nat)).

Lemma snapped_num_students nn ny nx row :
  num_students (get_snapped_coords nn ny nx row) = c_num_students row.
Proof. unfold get_snapped_coords. destruct (decide _); reflexivity. Qed.

Lemma snapped_stop_id nn ny nx row :
  stop_id (get_snapped_coords nn ny nx row) = c_stop_id row.
Proof. unfold get_snapped_coords. destruct (decide _); reflexivity. Qed.

(** The demands of the snapped stop table add up to the riders. *)
Lemma snapped_total nn ny nx df_bus school_coords :
  Py.sum (num_students
            <$> snap_stops_to_graph nn ny nx
                  (create_stop_df df_bus (Some school_coords)))
  = Z.of_nat (length df_bus).
Proof.
  unfold snap_stops_to_graph. rewrite <- list_fmap_compose.
  assert (Hcol : ∀ l : list cluster_row,
             (num_students ∘ get_snapped_coords nn ny nx) <$> l
             = c_num_students <$> l).
  { intros l. apply list_fmap_ext. intros i row _.
    apply snapped_num_students. }
  rewrite Hcol. unfold create_stop_df. rewrite fmap_cons, PlanFacts.sum_cons.
  rewrite StopFacts.cluster_stops_total. reflexivity.
Qed.

(** The school row stays at the head of the table, and is only accepted
    by a capacity that is not negative. *)
Lemma split_school_first depot rest bus_capacity out :
  num_students depot = 0 →
  split_large_stops (depot :: rest) bus_capacity = Some out →
  0 ≤ bus_capacity
  ∧ ∃ out', out = depot :: out'
            ∧ split_large_stops rest bus_capacity = Some out'.
Proof.
  intros Hzero Hrun. unfold split_large_stops in Hrun |- *.
  cbn [mapM] in Hrun.
  destruct (split_row bus_capacity depot) as [piece|] eqn:Hdepot; [| discriminate].
  cbn [mbind option_bind] in Hrun.
  destruct (mapM (split_row bus_capacity) rest) as [pieces|]; [| discriminate].
  cbn in Hrun. injection Hrun as <-.
  destruct (decide (0 ≤ bus_capacity)) as [Hcap|Hneg].
  - split; [exact Hcap |].
    rewrite SplitTableFacts.split_row_within in Hdepot by lia.
    injection Hdepot as <-. exists (concat pieces). split; reflexivity.
  - rewrite SplitTableFacts.split_row_negative_capacity in Hdepot by lia.
    discriminate.
Qed.

(** The stops of the riders never carry the id of the school. *)
Lemma rider_stops_not_school nn ny nx (df_bus : list student_row) :
  Forall (λ r, stop_id r ≠ school)
    (get_snapped_coords nn ny nx
       <$> (stop_of_cluster df_bus <$> unique (assigned_stop_id <$> df_bus))).
Proof.
  apply Forall_fmap, Forall_fmap, Forall_forall. intros id _. cbn.
  rewrite snapped_stop_id. discriminate.
Qed.

Lemma keep_loaded (routes : list (list nat)) (loads : list Z) :
  length routes = length loads →
  Forall (λ load, 0 < load) loads →
  filter (λ rl : list nat * Z, 0 < rl.2) (zip routes loads) = zip routes loads.
Proof.
  intros Hlen Hpos. apply SplitFacts.filter_all.
  apply Forall_forall. intros [r load] Hin. cbn.
  apply elem_of_zip_r in Hin. rewrite Forall_forall in Hpos. apply Hpos, Hin.
Qed.

(** The stop table the router is given: the school row first. *)
Definition depot_row (G : graph) (school_coords : Qc * Qc) : stop_row :=
  get_snapped_coords (nearest_nodes G) (node_y G) (node_x G)
    (school_stop school_coords).

(** What a run that reaches the report stage has gone through. *)
Lemma route_riders_Ok df_walkers df_bus school_coords bus_capacity num_bus p :
  route_riders graph_from_point nearest_nodes node_y node_x SolveWithParameters
    df_walkers df_bus school_coords bus_capacity num_bus = Ok p →
  ∃ G stops routes m log,
    0 ≤ bus_capacity
    ∧ plan_stop_df p = depot_row G school_coords :: stops
    ∧ Forall (λ row, stop_id row ≠ school) stops
    ∧ plan_depot_index p = 0%nat
    ∧ plan_demands p = num_students <$> plan_stop_df p
    ∧ Py.sum (plan_demands p) = Z.of_nat (length df_bus)
    ∧ solve_vrp_with_fleet_limit SolveWithParameters (plan_dist_matrix_km p)
        (plan_demands p) 0 (replicate (Z.to_nat num_bus) bus_capacity)
        num_bus (Some (Z.max 1 (num_bus / 2)))
      = Some (routes, Some m, log)
    ∧ plan_vrp_metrics p = Some m
    ∧ remove_empty_buses (plan_demands p) 0 routes
      = Some (plan_routes p, plan_bus_loads p)
    ∧ plan_actual_num_buses p = Z.of_nat (length (plan_routes p))
    ∧ plan_df_bus p = df_bus
    ∧ plan_df_walkers p = df_walkers
    ∧ plan_dist_matrix_km p
      = Optimizer.dist_matrix_km
          (build_distance_matrix G (graph_node <$> plan_stop_df p)).
Proof.
  unfold Pipeline.route_riders. intros Hrun.
  destruct (graph_from_point _) as [G|]; [| discriminate].
  cbn [try bind] in Hrun.
  pose proof (snapped_total (nearest_nodes G) (node_y G) (node_x G)
                df_bus school_coords) as Htotal.
  unfold create_stop_df, snap_stops_to_graph in Hrun, Htotal.
  rewrite fmap_cons in Hrun, Htotal. fold (depot_row G school_coords) in Hrun, Htotal.
  destruct (split_large_stops _ bus_capacity) as [out|] eqn:Hsplit;
    [| discriminate].
  cbn [try bind] in Hrun.
  assert (Hdepot : num_students (depot_row G school_coords) = 0).
  { unfold depot_row. rewrite snapped_num_students. reflexivity. }
  destruct (split_school_first _ _ _ _ Hdepot Hsplit)
    as (Hcap & stops & Hout & Hrest).
  pose proof (SplitTableFacts.split_ids _ _ _ Hrest
                (rider_stops_not_school _ _ _ df_bus)) as Hids.
  assert (Hdem : Py.sum (num_students <$> out) = Z.of_nat (length df_bus)).
  { rewrite <- Htotal. unfold split_large_stops in Hsplit.
    destruct (mapM _ _) as [pieces|] eqn:Hp; [| discriminate].
    injection Hsplit as <-.
    apply (SplitTableFacts.split_pieces _ bus_capacity pieces Hcap Hp). }
  clear Hsplit. subst out.
  cbn [list_find] in Hrun.
  rewrite decide_True in Hrun
    by (unfold depot_row; rewrite snapped_stop_id; reflexivity).
  cbn [fmap option_fmap option_map] in Hrun.
  destruct (solve_vrp_with_fleet_limit _ _ _ _ _ _ _) as [[[routes om] log]|]
    eqn:Hsolve; [| discriminate].
  cbn [try bind fst snd] in Hrun.
  destruct routes as [|route rest] eqn:Hroutes; [discriminate |].
  rewrite <- Hroutes in *.
  destruct (remove_empty_buses _ _ routes) as [filtered|] eqn:Hfilter;
    [| discriminate].
  cbn [try bind] in Hrun. injection Hrun as <-. cbn.
  destruct (PlanFacts.returned_routes_metrics _ _ _ _ _ _ _ routes om log Hsolve)
    as [m ->]; [rewrite Hroutes; discriminate |].
  exists G, stops, routes, m, log.
  repeat split; try reflexivity; try assumption.
  destruct filtered. exact Hfilter.
Qed.

(** X17 (optimizer.py, [full_optimization_pipeline], lines 61-111): in a
    run that gets past the router the school is stop 0, the step that
    removes empty buses removes nothing, and the numbers agree: the
    bus loads and the bus count are those of the router's metrics, every
    bus carries a student, fewer buses are used than were offered, and
    the demand handed to the router is the number of riders. *)
Theorem routed_plan_is_consistent
    df_walkers df_bus school_coords bus_capacity num_bus p :
  route_riders graph_from_point nearest_nodes node_y node_x SolveWithParameters
    df_walkers df_bus school_coords bus_capacity num_bus = Ok p →
  ∃ m,
    plan_vrp_metrics p = Some m
    ∧ plan_depot_index p = 0%nat
    ∧ plan_bus_loads p = bus_loads m
    ∧ Forall (λ load, 0 < load) (plan_bus_loads p)
    ∧ plan_actual_num_buses p = buses_used m
    ∧ plan_actual_num_buses p < num_bus
    ∧ total_students m = Z.of_nat (length df_bus).
Proof.
  intros Hrun.
  apply route_riders_Ok in Hrun
    as (G & stops & routes & m & log & _ & _ & _ & Hdepot & _ & Htotal & Hsolve
        & Hm & Hfilter & Hnum & _ & _ & _).
  apply PlanFacts.returned_plan_loads in Hsolve
    as (Hloads & Hpos & Hused & Hlt & Hstudents).
  exists m. split; [exact Hm |]. split; [exact Hdepot |].
  unfold remove_empty_buses in Hfilter. rewrite Hloads in Hfilter.
  cbn [mbind option_bind] in Hfilter.
  assert (Hlen : length routes = length (bus_loads m)).
  { apply mapM_Some_1, Forall2_length in Hloads. exact Hloads. }
  rewrite (keep_loaded routes (bus_loads m) Hlen Hpos) in Hfilter.
  rewrite fst_zip, snd_zip in Hfilter by lia.
  injection Hfilter as Hr Hl.
  rewrite <- Hl, Hnum, <- Hr, Hused, Hstudents, Htotal.
  repeat split; try reflexivity; try assumption. lia.
Qed.

(** X18 (optimizer.py, [full_optimization_pipeline], lines 61-103): with
    fewer buses than the riders need at full capacity the run ends in the
    pipeline's own [ValueError]: the router tries no fleet size and
    returns no route. *)
Theorem fleet_too_small_is_value_error
    df_walkers df_bus school_coords bus_capacity num_bus G :
  graph_from_point (mean (Latitude <$> df_bus), mean (Longitude <$> df_bus))
  = Some G →
  0 < bus_capacity →
  0 < num_bus →
  num_bus < ceil (Z.of_nat (length df_bus)) bus_capacity →
  route_riders graph_from_point nearest_nodes node_y node_x SolveWithParameters
    df_walkers df_bus school_coords bus_capacity num_bus
  = Raise (ValueError "VRP optimization failed - no feasible solution found").
Proof.
  intros HG Hcap Hbus Hsmall. unfold Pipeline.route_riders.
  rewrite HG. cbn [try bind].
  pose proof (snapped_total (nearest_nodes G) (node_y G) (node_x G)
                df_bus school_coords) as Htotal.
  unfold create_stop_df, snap_stops_to_graph in Htotal |- *.
  rewrite fmap_cons in Htotal |- *. fold (depot_row G school_coords) in Htotal |- *.
  match goal with
  | |- context [split_large_stops ?t bus_capacity] =>
      destruct (split_large_stops t bus_capacity) as [out|] eqn:Hsplit
  end.
  2:{ exfalso. unfold split_large_stops in Hsplit.
      match type of Hsplit with
      | context [mapM _ ?t] =>
          destruct (SplitFacts.split_rows_run t bus_capacity Hcap) as [ps Hps]
      end.
      rewrite Hps in Hsplit. discriminate. }
  cbn [try bind].
  assert (Hdepot : num_students (depot_row G school_coords) = 0).
  { unfold depot_row. rewrite snapped_num_students. reflexivity. }
  destruct (split_school_first _ _ _ _ Hdepot Hsplit) as (_ & stops & Hout & _).
  assert (Hdem : Py.sum (num_students <$> out) = Z.of_nat (length df_bus)).
  { rewrite <- Htotal. unfold split_large_stops in Hsplit.
    destruct (mapM _ _) as [pieces|] eqn:Hp; [| discriminate].
    injection Hsplit as <-.
    apply (SplitTableFacts.split_pieces _ bus_capacity pieces); [lia | exact Hp]. }
  clear Hsplit. subst out.
  cbn [list_find].
  rewrite decide_True
    by (unfold depot_row; rewrite snapped_stop_id; reflexivity).
  cbn [fmap option_fmap option_map].
  match goal with
  | |- context [solve_vrp_with_fleet_limit ?S ?D ?d ?i ?v ?mx ?mn] =>
      destruct (PlanFacts.small_fleet_no_routes S D d i v bus_capacity mx mn)
        as [log Hlog]
  end.
  - apply lookup_replicate_2. lia.
  - lia.
  - change (num_bus < ceil (Py.sum (num_students
                                      <$> depot_row G school_coords :: stops))
                           bus_capacity).
    rewrite Hdem. exact Hsmall.
  - rewrite Hlog. reflexivity.
Qed.

(** X19 (optimizer.py, [full_optimization_pipeline], lines 61-100): the
    form values are not checked.  A bus capacity of zero or below, when
    there is a rider, or a fleet of zero or fewer buses ends the run in
    an exception of the code below (a division by zero in
    [split_large_stops], an index error in the router), not in a plan. *)
Theorem nonpositive_inputs_raise
    df_walkers df_bus school_coords bus_capacity num_bus :
  (bus_capacity ≤ 0 ∧ df_bus ≠ []) ∨ num_bus ≤ 0 →
  route_riders graph_from_point nearest_nodes node_y node_x SolveWithParameters
    df_walkers df_bus school_coords bus_capacity num_bus = Raise Error.
Proof.
  intros Hbad. unfold Pipeline.route_riders.
  destruct (graph_from_point _) as [G|]; [| reflexivity].
  cbn [try bind].
  unfold create_stop_df, snap_stops_to_graph.
  rewrite fmap_cons. fold (depot_row G school_coords).
  assert (Hdepot : num_students (depot_row G school_coords) = 0).
  { unfold depot_row. rewrite snapped_num_students. reflexivity. }
  match goal with
  | |- context [split_large_stops ?t bus_capacity] =>
      destruct (split_large_stops t bus_capacity) as [out|] eqn:Hsplit;
      [| reflexivity]
  end.
  cbn [try bind].
  destruct (split_school_first _ _ _ _ Hdepot Hsplit) as (Hcap & stops & -> & _).
  destruct Hbad as [[Hle Hriders]|Hbus].
  - exfalso. assert (bus_capacity = 0) as -> by lia.
    destruct df_bus as [|r df_bus']; [contradiction |].
    set (row := get_snapped_coords (nearest_nodes G) (node_y G) (node_x G)
                  (stop_of_cluster (r :: df_bus') (assigned_stop_id r))).
    rewrite (SplitTableFacts.split_raises _ 0 row) in Hsplit; [discriminate | |].
    + right. apply list_elem_of_fmap.
      exists (stop_of_cluster (r :: df_bus') (assigned_stop_id r)).
      split; [reflexivity |]. apply list_elem_of_fmap.
      exists (assigned_stop_id r). split; [reflexivity |].
      apply StopFacts.elem_of_unique. rewrite fmap_cons. left.
    + apply SplitTableFacts.split_row_zero_capacity. unfold row.
      rewrite snapped_num_students. cbn [stop_of_cluster c_num_students].
      unfold group_of. rewrite filter_cons_True by reflexivity.
      cbn [length]. lia.
  - cbn [list_find].
    rewrite decide_True
      by (unfold depot_row; rewrite snapped_stop_id; reflexivity).
    cbn [fmap option_fmap option_map].
    unfold solve_vrp_with_fleet_limit.
    replace (Z.to_nat num_bus) with 0%nat by lia. reflexivity.
Qed.

(** X20 (optimizer.py, [full_optimization_pipeline], lines 35-51, and
    clustering.py, [find_optimal_clusters]): the elbow search fits
    [KMeans] for every [k] up to 30, and [KMeans] rejects fewer samples
    than clusters.  A table with fewer than 30 students beyond walking
    distance therefore never gets a plan: the run raises. *)
Theorem fewer_than_30_riders_raise
    fuel df school_coords bus_capacity num_bus safe_walk_miles :
  (length (bus_riders haversine_km school_coords safe_walk_miles df) < 30)%nat →
  full_optimization_pipeline haversine_km KMeans_inertia KneeLocator_elbow
    KMeans_fit KMeans_labels graph_from_point nearest_nodes node_y node_x
    SolveWithParameters fuel df school_coords bus_capacity num_bus safe_walk_miles
  = Raise Error.
Proof.
  intros Hfew. unfold Pipeline.full_optimization_pipeline.
  destruct df as [|r0 df0] eqn:Hdf; [reflexivity |]. rewrite <- Hdf in *.
  set (df_bus := bus_riders haversine_km school_coords safe_walk_miles df) in *.
  assert (Hfit : find_optimal_clusters KMeans_inertia KneeLocator_elbow KMeans_fit
                   (u_coords <$> df_bus) = None).
  { unfold find_optimal_clusters.
    rewrite (mapM_None_2 _ (Py.range2 1 31)); [reflexivity |].
    apply Exists_exists. exists 30. split.
    - unfold Py.range2. apply list_elem_of_fmap. exists 29%nat.
      split; [reflexivity |]. apply elem_of_seq. simpl. lia.
    - unfold fit_checked. rewrite length_fmap.
      destruct (Z.ltb_spec (Z.of_nat (length df_bus)) 30); [reflexivity | lia]. }
  rewrite Hfit. reflexivity.
Qed.

Lemma assign_stops_riders df_bus kmeans rows :
  assign_stops haversine_km df_bus kmeans = Some rows →
  StudentID <$> rows = u_StudentID <$> df_bus
  ∧ coords <$> rows = u_coords <$> df_bus.
Proof.
  unfold assign_stops. intros Hrun.
  case_guard as Hlen; [| discriminate]. cbn [mbind option_bind] in Hrun.
  apply mapM_Some_1 in Hrun.
  assert (Hcols : StudentID <$> rows
                  = u_StudentID <$> (zip df_bus (predict kmeans (u_coords <$> df_bus))).*1
                  ∧ coords <$> rows
                    = u_coords <$> (zip df_bus (predict kmeans (u_coords <$> df_bus))).*1).
  { induction Hrun as [|rl row l rows' Hrow _ [IHid IHc]]; [split; reflexivity |].
    destruct (np_item _ _) as [center|]; [| discriminate].
    cbn [mbind option_bind] in Hrow. injection Hrow as <-.
    rewrite !fmap_cons, IHid, IHc. split; reflexivity. }
  rewrite fst_zip in Hcols by lia. exact Hcols.
Qed.

Lemma filter_split_length {A} (P : A → Prop) `{!∀ x, Decision (P x)} (l : list A) :
  (length (filter P l) + length (filter (λ x, ¬ P x) l) = length l)%nat.
Proof.
  induction l as [|x l IH]; [reflexivity |].
  rewrite !filter_cons.
  destruct (decide (P x)), (decide (¬ P x)); cbn [length]; try lia; tauto.
Qed.

(** X21 (optimizer.py, [full_optimization_pipeline], lines 35-111): a
    run that reaches the report stage has lost no student on the way.
    The walkers are the students within the safe walking distance, the
    riders are all the others, in table order and at their homes, through
    clustering and repair; and the demands of the stops handed to the
    router add up to the number of riders. *)
Theorem pipeline_accounts_for_every_student
    fuel df school_coords bus_capacity num_bus safe_walk_miles p :
  full_optimization_pipeline haversine_km KMeans_inertia KneeLocator_elbow
    KMeans_fit KMeans_labels graph_from_point nearest_nodes node_y node_x
    SolveWithParameters fuel df school_coords bus_capacity num_bus safe_walk_miles = Ok p →
  plan_df_walkers p = walkers haversine_km school_coords safe_walk_miles df
  ∧ StudentID <$> plan_df_bus p
    = u_StudentID <$> bus_riders haversine_km school_coords safe_walk_miles df
  ∧ coords <$> plan_df_bus p
    = u_coords <$> bus_riders haversine_km school_coords safe_walk_miles df
  ∧ (length (plan_df_bus p) + length (plan_df_walkers p) = length df)%nat
  ∧ Py.sum (plan_demands p)
    = Z.of_nat (length (bus_riders haversine_km school_coords safe_walk_miles df)).
Proof.
  intros Hrun. unfold Pipeline.full_optimization_pipeline in Hrun.
  destruct df as [|r0 df0] eqn:Hdf; [discriminate |]. rewrite <- Hdf in *.
  destruct (find_optimal_clusters _ _ _ _) as [fitted|]; [| discriminate].
  cbn [try bind] in Hrun.
  destruct (assign_stops _ _ _) as [rows|] eqn:Hassign; [| discriminate].
  cbn [try bind] in Hrun.
  destruct (enforce_max_distance _ _ _ _ _) as [df_bus| |] eqn:Hrepair;
    [| discriminate | discriminate].
  apply assign_stops_riders in Hassign as [Hids Hcoords].
  apply StopFacts.enforce_loop_same_riders in Hrepair.
  assert (Hkept : StudentID <$> df_bus = StudentID <$> rows
                  ∧ coords <$> df_bus = coords <$> rows).
  { clear -Hrepair.
    induction Hrepair as [|r r' l l' (Hid & Hc) _ (IHid & IHc)];
      [split; reflexivity |].
    rewrite !fmap_cons. split; congruence. }
  destruct Hkept as [Hids' Hcoords'].
  apply route_riders_Ok in Hrun
    as (_ & _ & _ & _ & _ & _ & _ & _ & _ & _ & Htotal & _ & _ & _ & _ & Hbus
        & Hwalk & _).
  rewrite Hbus, Hwalk, Htotal.
  assert (Hlen : length df_bus
                 = length (bus_riders haversine_km school_coords safe_walk_miles df)).
  { rewrite <- (length_fmap StudentID), Hids', Hids, length_fmap. reflexivity. }
  split; [reflexivity |]. split; [congruence |]. split; [congruence |].
  split; [| rewrite Hlen; reflexivity].
  rewrite Hlen. apply filter_split_length.
Qed.

End Run.

(** *** A concrete run *)

(** Stand-ins for the libraries: an elbow at 2, a model that separates at
    half a degree of latitude, the road of [MatrixShapeFacts.one_road]
    with the school at its far end, and a solver that sends one bus
    round all stops. *)
Definition model_at_half_degree (k : Z) (coords : list (Qc * Qc)) : kmeans_model :=
  mk_kmeans_model (RepairFacts.split_at_half_degree k) [(0%Qc, 0%Qc); (1%Qc, 0%Qc)].

Definition node_by_latitude (G : graph) (X Y : Qc) : Z :=
  if decide (Y < Q2Qc (1 # 2))%Qc then 1 else 2.

Definition one_round_trip (m : routing_model) : option (list (list nat)) :=
  Some (((0%nat :: seq 1 (rm_num_stops m - 1)) ++ [0%nat])
          :: replicate (Z.to_nat (rm_num_vehicles m) - 1) [0%nat; 0%nat]).

Definition run_route :=
  route_riders (λ _, Some MatrixShapeFacts.one_road) node_by_latitude
    (λ _ _, 0%Qc) (λ _ _, 0%Qc) one_round_trip.

Definition run_pipeline :=
  full_optimization_pipeline RepairFacts.meridian_km (λ k _, Qc_of_Z (31 - k))
    (λ _ _, Some 2) model_at_half_degree RepairFacts.first_versus_rest
    (λ _, Some MatrixShapeFacts.one_road) node_by_latitude
    (λ _ _, 0%Qc) (λ _ _, 0%Qc) one_round_trip.

(** [n] students a ten-thousandth of a degree apart, 111 km south of a
    school at latitude 1. *)
Definition street (n : nat) : list upload_row :=
  (λ i : nat, mk_upload_row (pretty i) (Q2Qc (Z.of_nat i # 10000)) 0%Qc) <$> seq 0 n.

Definition reached (r : result plan) : plan :=
  match r with
  | Ok p => p
  | _ => mk_plan [] [] [] [] 0 [] [] [] 0 None
  end.

Lemma reached_eq (r : result plan) :
  (if r is Ok _ then true else false) = true → r = Ok (reached r).
Proof. destruct r; intros H; [reflexivity | discriminate | discriminate]. Qed.

Lemma routed_plan_is_consistent_witness :
  ∃ m,
    plan_vrp_metrics (reached (run_route [] RepairFacts.near_pair (1%Qc, 0%Qc) 40 3))
    = Some m
    ∧ plan_depot_index (reached (run_route [] RepairFacts.near_pair (1%Qc, 0%Qc) 40 3))
      = 0%nat
    ∧ plan_bus_loads (reached (run_route [] RepairFacts.near_pair (1%Qc, 0%Qc) 40 3))
      = bus_loads m
    ∧ Forall (λ load, 0 < load)
        (plan_bus_loads (reached (run_route [] RepairFacts.near_pair (1%Qc, 0%Qc) 40 3)))
    ∧ plan_actual_num_buses
        (reached (run_route [] RepairFacts.near_pair (1%Qc, 0%Qc) 40 3))
      = buses_used m
    ∧ plan_actual_num_buses
        (reached (run_route [] RepairFacts.near_pair (1%Qc, 0%Qc) 40 3)) < 3
    ∧ total_students m = Z.of_nat (length RepairFacts.near_pair).
Proof.
  apply (routed_plan_is_consistent (λ _, Some MatrixShapeFacts.one_road)
           node_by_latitude (λ _ _, 0%Qc) (λ _ _, 0%Qc) one_round_trip
           [] RepairFacts.near_pair (1%Qc, 0%Qc) 40 3).
  apply reached_eq. vm_compute. reflexivity.
Defined.

Lemma fleet_too_small_is_value_error_witness :
  run_route [] RepairFacts.two_streets (1%Qc, 0%Qc) 1 3
  = Raise (ValueError "VRP optimization failed - no feasible solution found").
Proof.
  apply (fleet_too_small_is_value_error (λ _, Some MatrixShapeFacts.one_road)
           node_by_latitude (λ _ _, 0%Qc) (λ _ _, 0%Qc) one_round_trip
           [] RepairFacts.two_streets (1%Qc, 0%Qc) 1 3 MatrixShapeFacts.one_road).
  - reflexivity.
  - lia.
  - lia.
  - vm_compute. reflexivity.
Defined.

Lemma nonpositive_inputs_raise_witness :
  run_route [] RepairFacts.near_pair (1%Qc, 0%Qc) 0 3 = Raise Error
  ∧ run_route [] RepairFacts.near_pair (1%Qc, 0%Qc) 40 0 = Raise Error.
Proof.
  split.
  - apply (nonpositive_inputs_raise (λ _, Some MatrixShapeFacts.one_road)
             node_by_latitude (λ _ _, 0%Qc) (λ _ _, 0%Qc) one_round_trip
             [] RepairFacts.near_pair (1%Qc, 0%Qc) 0 3).
    left. split; [lia | discriminate].
  - apply (nonpositive_inputs_raise (λ _, Some MatrixShapeFacts.one_road)
             node_by_latitude (λ _ _, 0%Qc) (λ _ _, 0%Qc) one_round_trip
             [] RepairFacts.near_pair (1%Qc, 0%Qc) 40 0).
    right. lia.
Defined.

Lemma fewer_than_30_riders_raise_witness :
  run_pipeline 5 (street 29) (1%Qc, 0%Qc) 40 3 (Q2Qc (3 # 2)) = Raise Error.
Proof.
  apply (fewer_than_30_riders_raise RepairFacts.meridian_km (λ k _, Qc_of_Z (31 - k))
           (λ _ _, Some 2) model_at_half_degree RepairFacts.first_versus_rest
           (λ _, Some MatrixShapeFacts.one_road) node_by_latitude
           (λ _ _, 0%Qc) (λ _ _, 0%Qc) one_round_trip
           5 (street 29) (1%Qc, 0%Qc) 40 3 (Q2Qc (3 # 2))).
  vm_compute. lia.
Defined.

Lemma pipeline_accounts_for_every_student_witness :
  plan_df_walkers
    (reached (run_pipeline 5 (street 30) (1%Qc, 0%Qc) 40 3 (Q2Qc (3 # 2))))
  = walkers RepairFacts.meridian_km (1%Qc, 0%Qc) (Q2Qc (3 # 2)) (street 30)
  ∧ StudentID <$> plan_df_bus
      (reached (run_pipeline 5 (street 30) (1%Qc, 0%Qc) 40 3 (Q2Qc (3 # 2))))
    = u_StudentID
        <$> bus_riders RepairFacts.meridian_km (1%Qc, 0%Qc) (Q2Qc (3 # 2)) (street 30)
  ∧ coords <$> plan_df_bus
      (reached (run_pipeline 5 (street 30) (1%Qc, 0%Qc) 40 3 (Q2Qc (3 # 2))))
    = u_coords
        <$> bus_riders RepairFacts.meridian_km (1%Qc, 0%Qc) (Q2Qc (3 # 2)) (street 30)
  ∧ (length (plan_df_bus
               (reached (run_pipeline 5 (street 30) (1%Qc, 0%Qc) 40 3 (Q2Qc (3 # 2)))))
     + length (plan_df_walkers
                 (reached (run_pipeline 5 (street 30) (1%Qc, 0%Qc) 40 3 (Q2Qc (3 # 2)))))
     = length (street 30))%nat
  ∧ Py.sum (plan_demands
              (reached (run_pipeline 5 (street 30) (1%Qc, 0%Qc) 40 3 (Q2Qc (3 # 2)))))
    = Z.of_nat (length (bus_riders RepairFacts.meridian_km (1%Qc, 0%Qc)
                          (Q2Qc (3 # 2)) (street 30))).
Proof.
  apply (pipeline_accounts_for_every_student RepairFacts.meridian_km
           (λ k _, Qc_of_Z (31 - k))
           (λ _ _, Some 2) model_at_half_degree RepairFacts.first_versus_rest
           (λ _, Some MatrixShapeFacts.one_road) node_by_latitude
           (λ _ _, 0%Qc) (λ _ _, 0%Qc) one_round_trip
           5 (street 30) (1%Qc, 0%Qc) 40 3 (Q2Qc (3 # 2))).
  apply reached_eq. vm_compute. reflexivity.
Defined.

End PipelineFacts.

(** ** The report *)

Module InfoFacts.
Import Routing Clustering Stops Pipeline Info PyFacts.

(** [indices_where], counting from [k]. *)
Definition indices_from (k : nat) (P : Z → bool) (loads : list Z) : list nat :=
  omap (λ il : nat * Z, if P il.2 then Some il.1 else None)
       (imap (λ i load, ((k + i)%nat, load)) loads).

Lemma indices_from_cons k P x loads :
  indices_from k P (x :: loads)
  = (if P x then [k] else []) ++ indices_from (S k) P loads.
Proof.
  unfold indices_from. cbn [imap]. cbn [omap list_omap snd fst].
  rewrite Nat.add_0_r.
  assert (Hshift : imap ((λ (i : nat) (load : Z), ((k + i)%nat, load)) ∘ S) loads
                   = imap (λ (i : nat) (load : Z), ((S k + i)%nat, load)) loads).
  { apply imap_ext. intros i y _. cbn. f_equal. lia. }
  rewrite Hshift. destruct (P x); reflexivity.
Qed.

Lemma indices_from_ext k P Q loads :
  Forall (λ load, P load = Q load) loads →
  indices_from k P loads = indices_from k Q loads.
Proof.
  intros Hall. revert k. induction Hall as [|x l Hx _ IH]; intros k; [reflexivity |].
  rewrite !indices_from_cons, Hx, IH. reflexivity.
Qed.

(** Half the capacity, in whole students. *)
Lemma below_half (load capacity : Z) :
  (Qc_of_Z load < Qc_of_Z capacity * Q2Qc (1 # 2))%Qc ↔ 2 * load < capacity.
Proof.
  set (half := (Qc_of_Z capacity * Q2Qc (1 # 2))%Qc).
  assert (Hhalf : (half * Qc_of_Z 2 = Qc_of_Z capacity)%Qc).
  { unfold half. rewrite <- Qcmult_assoc.
    replace (Q2Qc (1 # 2) * Qc_of_Z 2)%Qc with 1%Qc
      by (apply Qc_is_canon; reflexivity).
    apply Qcmult_1_r. }
  assert (Htwo : (0 < Qc_of_Z 2)%Qc) by reflexivity.
  assert (Hdouble : (Qc_of_Z (2 * load) = Qc_of_Z load * Qc_of_Z 2)%Qc).
  { rewrite Z2Qc_inj_mul. apply Qcmult_comm. }
  rewrite (Z2Qc_inj_lt (2 * load) capacity), Hdouble, <- Hhalf.
  split; intros Hlt.
  - apply Qcmult_lt_compat_r; assumption.
  - destruct (Qclt_le_dec (Qc_of_Z load) half) as [|Hle]; [assumption |].
    apply (Qcmult_le_compat_r _ _ (Qc_of_Z 2)) in Hle; [| apply Qclt_le_weak, Htwo].
    exfalso. apply (Qclt_not_le _ _ Hlt Hle).
Qed.

(** With the school at index 0 and nowhere else, the report's load of a
    route is the router's, and the route names rows of the table. *)
Lemma bus_load_route_load depot stops route load :
  stop_id depot = school →
  Forall (λ row, stop_id row ≠ school) stops →
  route_load (num_students <$> depot :: stops) 0 route = Some load →
  bus_load (depot :: stops) route = Some load
  ∧ Forall (λ i, (i < length (depot :: stops))%nat) route.
Proof.
  intros Hdepot Hstops. unfold route_load, bus_load. intros Hload.
  destruct (mapM _ _) as [ds|] eqn:Hds; [| discriminate].
  injection Hload as <-.
  assert (Hrows : ∃ rows,
             mapM (λ i, (depot :: stops) !! i) route = Some rows
             ∧ num_students <$> not_depot rows = ds
             ∧ Forall (λ i, (i < length (depot :: stops))%nat) route).
  { revert ds Hds. induction route as [|i route IH]; intros ds Hds.
    - injection Hds as <-. exists []. repeat split; constructor.
    - rewrite filter_cons in Hds. destruct i as [|j].
      + destruct (decide (0%nat ≠ 0%nat)) as [Hne|_]; [contradiction |].
        destruct (IH ds Hds) as (rows & Hrows & Hsum & Hin).
        exists (depot :: rows). cbn [mapM].
        change ((depot :: stops) !! 0%nat) with (Some depot).
        cbn [mbind option_bind]. rewrite Hrows. split; [reflexivity |]. split.
        * unfold not_depot. rewrite filter_cons_False by (intros Hn; contradiction).
          exact Hsum.
        * constructor; [cbn; lia | exact Hin].
      + destruct (decide (S j ≠ 0%nat)) as [_|Hz]; [| lia].
        cbn [mapM] in Hds.
        change ((num_students <$> depot :: stops) !! S j)
          with ((num_students <$> stops) !! j) in Hds.
        rewrite list_lookup_fmap in Hds.
        destruct (stops !! j) as [row|] eqn:Hrow; [| discriminate].
        cbn [fmap option_fmap option_map mbind option_bind] in Hds.
        destruct (mapM _ (filter _ route)) as [ds'|] eqn:Hds'; [| discriminate].
        injection Hds as <-.
        destruct (IH ds' eq_refl) as (rows & Hrows & Hsum & Hin).
        exists (row :: rows). cbn [mapM].
        change ((depot :: stops) !! S j) with (stops !! j).
        rewrite Hrow. cbn [mbind option_bind]. rewrite Hrows.
        split; [reflexivity |]. split.
        * unfold not_depot. rewrite filter_cons_True.
          -- rewrite fmap_cons. f_equal. exact Hsum.
          -- rewrite Forall_forall in Hstops. apply Hstops.
             apply list_elem_of_lookup. exists j. exact Hrow.
        * constructor; [| exact Hin]. apply lookup_lt_Some in Hrow. cbn. lia. }
  destruct Hrows as (rows & -> & <- & Hin). split; [reflexivity | exact Hin].
Qed.

(** In a square matrix every leg of a route between its rows is there. *)
Lemma legs_is_Some (n : nat) (dist_matrix_km : list (list Qc)) (route : list nat) :
  length dist_matrix_km = n →
  Forall (λ row, length row = n) dist_matrix_km →
  Forall (λ i, (i < n)%nat) route →
  is_Some (legs dist_matrix_km route).
Proof.
  intros Hlen Hrows Hroute. unfold legs. apply mapM_is_Some.
  rewrite Forall_forall in Hroute. apply Forall_forall. intros [a b] Hab.
  assert (Ha : (a < n)%nat) by (apply Hroute; eapply elem_of_zip_l, Hab).
  assert (Hb : (b < n)%nat).
  { apply Hroute. apply elem_of_zip_r in Hab.
    destruct route as [|i route]; [apply elem_of_nil in Hab; contradiction |].
    right. exact Hab. }
  cbn. destruct (lookup_lt_is_Some_2 dist_matrix_km a) as [row Hrow]; [lia |].
  rewrite Hrow. cbn [mbind option_bind]. apply lookup_lt_is_Some_2.
  rewrite (proj1 (Forall_lookup _ _) Hrows a row Hrow). exact Hb.
Qed.

(** The loop of the overview, given the loads of the routes. *)
Lemma tally_routes_spec stop_df vehicle_capacities dist_matrix_km capacity
    routes loads k t :
  Forall2 (λ r load, bus_load stop_df r = Some load) routes loads →
  (∀ i, capacity_of vehicle_capacities i = Some capacity) →
  Forall (λ r, is_Some (legs dist_matrix_km r)) routes →
  ∃ total_distance,
    tally_routes stop_df vehicle_capacities dist_matrix_km k routes t
    = Some (t.1.1 ++ indices_from k (λ load, capacity <? load) loads,
            t.1.2 ++ indices_from k
                       (λ load, negb (capacity <? load)
                                && bool_decide (Qc_of_Z load
                                                < Qc_of_Z capacity * Q2Qc (1 # 2))%Qc)
                       loads,
            total_distance).
Proof.
  intros Hloads Hcap. revert k t.
  induction Hloads as [|r load routes loads Hload _ IH]; intros k t Hlegs.
  - exists t.2. cbn. rewrite !app_nil_r. destruct t as [[? ?] ?]. reflexivity.
  - apply Forall_cons in Hlegs as [[ls Hls] Hlegs].
    cbn [tally_routes]. rewrite Hload, Hcap, Hls. cbn [mbind option_bind].
    rewrite !indices_from_cons.
    destruct (capacity <? load).
    + edestruct IH as [td ->]; [exact Hlegs |]. exists td. cbn.
      rewrite <- !app_assoc. reflexivity.
    + cbn [negb andb]. destruct (bool_decide _).
      * edestruct IH as [td ->]; [exact Hlegs |]. exists td. cbn.
        rewrite <- !app_assoc. reflexivity.
      * edestruct IH as [td ->]; [exact Hlegs |]. exists td. cbn.
        reflexivity.
Qed.

Lemma capacity_of_replicate (n : nat) (capacity : Z) (i : nat) :
  (0 < n)%nat → capacity_of (replicate n capacity) i = Some capacity.
Proof.
  intros Hn. unfold capacity_of. rewrite length_replicate.
  destruct (decide (i < n)%nat); apply lookup_replicate_2; assumption.
Qed.

Section Run.

Variable graph_from_point : Qc * Qc → option graph.
Variable nearest_nodes : graph → Qc → Qc → Z.
Variable node_y node_x : graph → Z → Qc.
Variable SolveWithParameters : routing_model → option (list (list nat)).
Variable round2 : Qc → Qc.

(** X22 (info.py, [generate_overview_metrics] and
    [calculate_admin_metrics], as optimizer.py calls them in lines
    138-139): on the plan of a run that got past the router the overview
    never raises, and it tells the same story as the router's metrics:
    its total of students is the number of riders, its bus count is
    [buses_used], its overloaded and underutilized buses are the router's,
    and its stop count is the one of the admin metrics. *)
Theorem overview_agrees_with_router
    df_walkers df_bus school_coords bus_capacity num_bus p :
  route_riders graph_from_point nearest_nodes node_y node_x SolveWithParameters
    df_walkers df_bus school_coords bus_capacity num_bus = Ok p →
  ∃ ov m,
    generate_overview_metrics round2 (plan_stop_df p) (plan_routes p)
      (replicate (Z.to_nat num_bus) bus_capacity) (plan_dist_matrix_km p)
    = Some ov
    ∧ plan_vrp_metrics p = Some m
    ∧ ov_total_students ov = Z.of_nat (length df_bus)
    ∧ ov_total_buses ov = buses_used m
    ∧ ov_overloaded ov = overloaded_buses m
    ∧ ov_underutilized ov = underutilized_buses m
    ∧ ov_total_stops ov
      = am_total_stops
          (calculate_admin_metrics (plan_stop_df p) (plan_routes p)
             (replicate (Z.to_nat num_bus) bus_capacity)).
Proof.
  intros Hrun.
  apply PipelineFacts.route_riders_Ok in Hrun
    as (G & stops & routes & m & log & Hcap & Hstops & Hids & _ & Hdem & Htotal
        & Hsolve & Hm & Hfilter & _ & _ & _ & Hmatrix).
  pose proof (PlanFacts.returned_plan_loads _ _ _ _ _ _ _ _ _ _ Hsolve)
    as (Hloads & Hpos & Hused & _ & _).
  apply PlanFacts.returned_plan in Hsolve
    as (capacity & _ & Hfirst & _ & _ & _ & _ & _ & _ & _ & _ & _ & Hover & Hunder).
  assert (Hbus : (0 < Z.to_nat num_bus)%nat).
  { apply lookup_lt_Some in Hfirst. rewrite length_replicate in Hfirst. exact Hfirst. }
  rewrite lookup_replicate_2 in Hfirst by exact Hbus. injection Hfirst as <-.
  assert (Hlen : length routes = length (bus_loads m)).
  { apply mapM_Some_1, Forall2_length in Hloads. exact Hloads. }
  unfold remove_empty_buses in Hfilter. rewrite Hloads in Hfilter.
  cbn [mbind option_bind] in Hfilter.
  rewrite (PipelineFacts.keep_loaded routes (bus_loads m) Hlen Hpos) in Hfilter.
  rewrite fst_zip, snd_zip in Hfilter by lia.
  injection Hfilter as Hroutes _.
  set (depot := PipelineFacts.depot_row nearest_nodes node_y node_x G school_coords)
    in *.
  assert (Hdepot : stop_id depot = school).
  { unfold depot, PipelineFacts.depot_row.
    rewrite PipelineFacts.snapped_stop_id. reflexivity. }
  assert (Hzero : num_students depot = 0).
  { unfold depot, PipelineFacts.depot_row.
    rewrite PipelineFacts.snapped_num_students. reflexivity. }
  assert (Hriders : not_depot (plan_stop_df p) = stops).
  { rewrite Hstops. unfold not_depot.
    rewrite filter_cons_False by (intros Hn; contradiction).
    apply SplitFacts.filter_all, Hids. }
  rewrite Hdem, Hstops in Hloads.
  assert (Hroute : Forall2 (λ r load, bus_load (plan_stop_df p) r = Some load)
                     routes (bus_loads m)
                   ∧ Forall (λ r, is_Some (legs (plan_dist_matrix_km p) r)) routes).
  { apply mapM_Some_1 in Hloads. rewrite Hstops.
    destruct (MatrixShapeFacts.build_distance_matrix_square G
                (graph_node <$> plan_stop_df p)) as [Hsq Hrows].
    rewrite length_fmap, Hstops in Hsq, Hrows. rewrite Hstops in Hmatrix.
    clear -Hloads Hdepot Hids Hmatrix Hsq Hrows.
    induction Hloads as [|r load rs ls Hr _ [IH1 IH2]]; [split; constructor |].
    destruct (bus_load_route_load depot stops r load Hdepot Hids Hr) as [Hb Hin].
    split; constructor; try assumption.
    apply (legs_is_Some (length (depot :: stops))); [| | exact Hin].
    - rewrite Hmatrix. unfold Optimizer.dist_matrix_km.
      rewrite length_fmap. exact Hsq.
    - rewrite Hmatrix. unfold Optimizer.dist_matrix_km.
      apply Forall_fmap. eapply Forall_impl; [exact Hrows |].
      intros row Hrow. cbn. rewrite length_fmap. exact Hrow. }
  destruct Hroute as [Hbus_loads Hlegs].
  destruct (tally_routes_spec (plan_stop_df p)
              (replicate (Z.to_nat num_bus) bus_capacity)
              (plan_dist_matrix_km p) bus_capacity routes (bus_loads m) 0
              ([], [], 0%Qc) Hbus_loads
              (λ i, capacity_of_replicate _ bus_capacity i Hbus) Hlegs)
    as [td Htally].
  unfold generate_overview_metrics. rewrite <- Hroutes, Htally.
  cbn [mbind option_bind]. eexists. exists m.
  split; [reflexivity |]. split; [exact Hm |].
  cbn [ov_total_students ov_total_buses ov_overloaded ov_underutilized
       ov_total_stops calculate_admin_metrics am_total_stops fst snd app].
  rewrite Hriders. split; [| split; [| split; [| split]]].
  - rewrite <- Htotal, Hdem, Hstops, fmap_cons, PlanFacts.sum_cons, Hzero.
    reflexivity.
  - symmetry. exact Hused.
  - rewrite Hover. reflexivity.
  - transitivity
      (indices_from 0
         (λ load, bool_decide (Qc_of_Z load
                               < Qc_of_Z bus_capacity * Q2Qc (1 # 2))%Qc)
         (bus_loads m)); [| rewrite Hunder; reflexivity].
    apply indices_from_ext.
    apply Forall_forall. intros load _. cbv beta.
    destruct (Z.ltb_spec bus_capacity load) as [Hlt|_]; [| reflexivity].
    cbn [negb andb]. symmetry. apply bool_decide_eq_false.
    rewrite below_half. lia.
  - rewrite Hstops. cbn [length]. lia.
Qed.

End Run.

Lemma overview_agrees_with_router_witness :
  ∃ ov m,
    generate_overview_metrics (λ x, x)
      (plan_stop_df
         (PipelineFacts.reached
            (PipelineFacts.run_route [] RepairFacts.near_pair (1%Qc, 0%Qc) 40 3)))
      (plan_routes
         (PipelineFacts.reached
            (PipelineFacts.run_route [] RepairFacts.near_pair (1%Qc, 0%Qc) 40 3)))
      (replicate (Z.to_nat 3) 40)
      (plan_dist_matrix_km
         (PipelineFacts.reached
            (PipelineFacts.run_route [] RepairFacts.near_pair (1%Qc, 0%Qc) 40 3)))
    = Some ov
    ∧ plan_vrp_metrics
        (PipelineFacts.reached
           (PipelineFacts.run_route [] RepairFacts.near_pair (1%Qc, 0%Qc) 40 3))
      = Some m
    ∧ ov_total_students ov = Z.of_nat (length RepairFacts.near_pair)
    ∧ ov_total_buses ov = buses_used m
    ∧ ov_overloaded ov = overloaded_buses m
    ∧ ov_underutilized ov = underutilized_buses m
    ∧ ov_total_stops ov
      = am_total_stops
          (calculate_admin_metrics
             (plan_stop_df
                (PipelineFacts.reached
                   (PipelineFacts.run_route [] RepairFacts.near_pair
                      (1%Qc, 0%Qc) 40 3)))
             (plan_routes
                (PipelineFacts.reached
                   (PipelineFacts.run_route [] RepairFacts.near_pair
                      (1%Qc, 0%Qc) 40 3)))
             (replicate (Z.to_nat 3) 40)).
Proof.
  apply (overview_agrees_with_router (λ _, Some MatrixShapeFacts.one_road)
           PipelineFacts.node_by_latitude (λ _ _, 0%Qc) (λ _ _, 0%Qc)
           PipelineFacts.one_round_trip (λ x, x)
           [] RepairFacts.near_pair (1%Qc, 0%Qc) 40 3).
  apply PipelineFacts.reached_eq. vm_compute. reflexivity.
Defined.

End InfoFacts.
